(** * Floating UI interaction hooks: a shallow embedding and its properties

    The development follows
    [packages/react-dom-interactions/dist/floating-ui.react-dom-interactions.umd.js].
    Each module embeds one part of that file:

    - [Tree]      : [getChildren], [getAncestors] over the floating node list;
    - [Dismiss]   : the listeners installed by [useDismiss];
    - [Merge]     : [mergeProps] / [useInteractions];
    - [Polygon]   : [isPointInPolygon] and the [safePolygon] pointer handler;
    - [ListNav]   : [findNonDisabledIndex] and the [useListNavigation] handlers;
    - [Typeahead] : the [useTypeahead] key handler;
    - [AriaHide]  : [hideOthers] and its release function.

    JavaScript loops that may not terminate ([while] over parent links) are
    given fuel and return [None] when it runs out; every other function is
    total. *)

From Stdlib Require Import ZArith QArith Lia List Bool String Ascii.
From stdpp Require Import gmap strings list pretty.
Import ListNotations.
Local Open Scope string_scope.
Local Open Scope list_scope.

(* ===================================================================== *)
(** ** The floating node tree *)
(* ===================================================================== *)

Module Tree.

(** The part of an [InteractionContext] that tree queries read: the [open]
    flag and [refs.floating.current] (a DOM element handle, [None] when the
    element is not mounted). *)
Record Context := mkContext {
  open : bool;
  floating : option nat
}.

(** A registered node.  [parentId = None] is JavaScript [null]; [ctx = None]
    is a node whose owning instance has not attached its context yet. *)
Record FloatingNode := mkNode {
  id : string;
  parentId : option string;
  ctx : option Context
}.

(** [===] between two possibly-null ids. *)
Definition id_eqb (a b : option string) : bool :=
  match a, b with
  | Some x, Some y => String.eqb x y
  | None, None => true
  | _, _ => false
  end.

(** [node.context?.open], coerced to a boolean. *)
Definition is_open (n : FloatingNode) : bool :=
  match ctx n with
  | Some c => open c
  | None => false
  end.

(** The filter predicate of [getChildren]:
    [node.parentId === id && node.context?.open]. *)
Definition child_of (pid : option string) (node : FloatingNode) : bool :=
  id_eqb (parentId node) pid && is_open node.

(** One round of the loop body: the nodes whose parent is some member of
    [currentChildren] and whose context reports [open]. *)
Definition next_level (nodes currentChildren : list FloatingNode) : list FloatingNode :=
  List.filter
    (fun node => existsb (fun n => child_of (Some (id n)) node) currentChildren)
    nodes.

(** The [while (currentChildren.length)] loop of [getChildren]. *)
Fixpoint children_loop (fuel : nat) (nodes currentChildren allChildren : list FloatingNode)
  : option (list FloatingNode) :=
  match currentChildren with
  | [] => Some allChildren
  | _ :: _ =>
      match fuel with
      | O => None
      | S fuel' =>
          let next := next_level nodes currentChildren in
          children_loop fuel' nodes next (allChildren ++ next)
      end
  end.

Definition getChildren (fuel : nat) (nodes : list FloatingNode) (qid : option string)
  : option (list FloatingNode) :=
  let allChildren := List.filter (child_of qid) nodes in
  children_loop fuel nodes allChildren allChildren.

(** [getChildren(nodes, nodeId)] as the hooks call it, with the [nodeId] of
    their context: a string, or absent.  An absent [nodeId] is [undefined],
    while the [parentId] of a node is a string or [null]; [null === undefined]
    is false, so the first filter keeps no node and the loop does not run. *)
Definition getChildrenOf (fuel : nat) (nodes : list FloatingNode) (nodeId : option string)
  : option (list FloatingNode) :=
  match nodeId with
  | Some i => getChildren fuel nodes (Some i)
  | None => Some []
  end.

(** [nodes.find(node => node.id === i)]. *)
Definition find_node (nodes : list FloatingNode) (i : string) : option FloatingNode :=
  List.find (fun node => String.eqb (id node) i) nodes.

(** Truthiness of a string: only the empty string is falsy. *)
Definition truthy (s : string) : bool := negb (String.eqb s "").

(** The [while (currentParentId)] loop of [getAncestors].  A failed [find]
    leaves [currentParentId] undefined, which ends the loop at the next test. *)
Fixpoint ancestors_loop (fuel : nat) (nodes : list FloatingNode)
    (currentParentId : option string) (allAncestors : list FloatingNode)
  : option (list FloatingNode) :=
  match currentParentId with
  | None => Some allAncestors
  | Some p =>
      if truthy p then
        match fuel with
        | O => None
        | S fuel' =>
            match find_node nodes p with
            | Some currentNode =>
                ancestors_loop fuel' nodes (parentId currentNode)
                  (allAncestors ++ [currentNode])
            | None => ancestors_loop fuel' nodes None allAncestors
            end
        end
      else Some allAncestors
  end.

Definition getAncestors (fuel : nat) (nodes : list FloatingNode) (qid : option string)
  : option (list FloatingNode) :=
  let start :=
    match qid with
    | Some i =>
        match find_node nodes i with
        | Some n => parentId n
        | None => None
        end
    | None => None
    end in
  ancestors_loop fuel nodes start [].

(** *** Specification vocabulary *)

(** [ancestor nodes a d]: following [parentId] links upward from a node whose
    id is [d] reaches the id [a] in one or more steps. *)
Inductive ancestor (nodes : list FloatingNode) : string -> string -> Prop :=
| anc_parent n a :
    In n nodes -> parentId n = Some a -> ancestor nodes a (id n)
| anc_step n p a :
    In n nodes -> parentId n = Some p -> ancestor nodes a p -> ancestor nodes a (id n).

(** No node is its own transitive ancestor. *)
Definition acyclic (nodes : list FloatingNode) : Prop :=
  forall i, ~ ancestor nodes i i.

(** A forest: ids identify nodes, ids are the non-empty strings that the id
    generator produces, and the parent links are acyclic. *)
Record forest (nodes : list FloatingNode) : Prop := mkForest {
  forest_ids : List.NoDup (map id nodes);
  forest_truthy : forall n, In n nodes -> id n <> "";
  forest_acyclic : acyclic nodes
}.

(** [open_descendant nodes q n]: [n] descends from [q] through a chain of
    registered nodes that all report [open]. *)
Inductive open_descendant (nodes : list FloatingNode) (q : option string)
  : FloatingNode -> Prop :=
| od_child n :
    In n nodes -> parentId n = q -> is_open n = true -> open_descendant nodes q n
| od_step m n :
    open_descendant nodes q m -> In n nodes -> parentId n = Some (id m) ->
    is_open n = true -> open_descendant nodes q n.

(** [parent_of nodes i p]: [p] is the registered node that the node with id
    [i] names as its parent. *)
Definition parent_of (nodes : list FloatingNode) (i : string) (p : FloatingNode) : Prop :=
  exists n, In n nodes /\ id n = i /\ parentId n = Some (id p) /\ In p nodes.

(** The chain of parents of [i], nearest first, ending at a root. *)
Inductive parent_chain (nodes : list FloatingNode) : string -> list FloatingNode -> Prop :=
| pc_root i : (forall p, ~ parent_of nodes i p) -> parent_chain nodes i []
| pc_up i p l :
    parent_of nodes i p -> parent_chain nodes (id p) l -> parent_chain nodes i (p :: l).

(** The chain that the loop of [getAncestors] walks from a parent id:
    it ends at [null], or at an id that no registered node carries. *)
Inductive up_chain (nodes : list FloatingNode) : option string -> list FloatingNode -> Prop :=
| up_null : up_chain nodes None []
| up_missing p : (forall n, In n nodes -> id n <> p) -> up_chain nodes (Some p) []
| up_node p cn l :
    In cn nodes -> id cn = p -> up_chain nodes (parentId cn) l ->
    up_chain nodes (Some p) (cn :: l).

(** A four-level chain used in the examples: a <- b <- c <- d, all open. *)
Definition chain4 : list FloatingNode :=
  [ mkNode "a" None (Some (mkContext true (Some 1%nat)));
    mkNode "b" (Some "a") (Some (mkContext true (Some 2%nat)));
    mkNode "c" (Some "b") (Some (mkContext true (Some 3%nat)));
    mkNode "d" (Some "c") (Some (mkContext true (Some 4%nat))) ].

(** Nodes strictly below some member of [cur] through open links. *)
Inductive below (nodes cur : list FloatingNode) : FloatingNode -> Prop :=
| below_child m n :
    In m cur -> In n nodes -> parentId n = Some (id m) -> is_open n = true ->
    below nodes cur n
| below_step m n :
    below nodes cur m -> In n nodes -> parentId n = Some (id m) -> is_open n = true ->
    below nodes cur n.

(** [has_path nodes k n]: a duplicate-free list of [k+1] registered ids, made
    of [id n] and ancestors of [n]. *)
Definition has_path (nodes : list FloatingNode) (k : nat) (n : FloatingNode) : Prop :=
  exists path : list string,
    length path = S k /\ List.NoDup path /\ incl path (map id nodes) /\
    forall p, In p path -> p = id n \/ ancestor nodes p (id n).

Definition chain4_rank (s : string) : nat :=
  if String.eqb s "a" then 0
  else if String.eqb s "b" then 1
  else if String.eqb s "c" then 2
  else 3.

(** A root whose id is the empty string, and its child. *)
Definition emptyIdTree : list FloatingNode :=
  [ mkNode "" None (Some (mkContext true None));
    mkNode "a" (Some "") (Some (mkContext true None)) ].

(** A two-node cycle, both nodes open. *)
Definition cycA : FloatingNode := mkNode "a" (Some "b") (Some (mkContext true None)).
Definition cycB : FloatingNode := mkNode "b" (Some "a") (Some (mkContext true None)).

Definition cycle2 : list FloatingNode := [cycA; cycB].

End Tree.


(* ===================================================================== *)
(** ** The dismiss coordinator ([useDismiss]) *)
(* ===================================================================== *)

Module Dismiss.

(** The options of [useDismiss] with their defaults. *)
Record Options := mkOptions {
  enabled : bool;
  escapeKey : bool;
  outsidePointerDown : bool;
  referencePointerDown : bool;
  ancestorScroll : bool;
  bubbles : bool
}.

Definition defaults : Options :=
  {| enabled := true; escapeKey := true; outsidePointerDown := true;
     referencePointerDown := false; ancestorScroll := false; bubbles := true |}.

(** What the hook reads from its context and environment.  DOM elements are
    handles ([nat]); [nodeId] is the id given to [useFloating], [None] when
    it is absent ([undefined]); [tree] is [tree.nodesRef.current], or [None]
    without a [FloatingTree] provider; [overflowAncestors] is what the
    positioning library reports for the reference followed by the floating
    element. *)
Record Instance := mkInstance {
  open : bool;
  floatingEl : option nat;
  referenceEl : option nat;
  nodeId : option string;
  tree : option (list Tree.FloatingNode);
  nested : bool;
  overflowAncestors : list nat;
  visualViewport : option nat
}.

(** The payload of [events.emit('dismiss', payload)]. *)
Inductive Payload :=
| PreventScroll (b : bool)
| PayloadFalse
| PayloadUndefined.

Inductive Effect :=
| Emit (p : Payload)
| OnOpenChange (b : bool).

(** A DOM event reaching a listener.  A pointer event carries its composed
    path (target first, then its ancestors). *)
Inductive Signal :=
| KeyDown (key : string)
| PointerDown (path : list nat)
| Scroll (target : nat).

Definition isEventTargetWithin (path : list nat) (node : option nat) : bool :=
  match node with
  | None => false
  | Some el => existsb (Nat.eqb el) path
  end.

(** [tree && getChildren(tree.nodesRef.current, nodeId).length > 0] *)
Definition hasOpenChildren (fuel : nat) (i : Instance) : option bool :=
  match tree i with
  | None => Some false
  | Some nodes =>
      match Tree.getChildrenOf fuel nodes (nodeId i) with
      | None => None
      | Some cs => Some (negb (Nat.eqb (length cs) 0))
      end
  end.

Definition onKeyDown (fuel : nat) (o : Options) (i : Instance) (key : string)
  : option (list Effect) :=
  if String.eqb key "Escape" then
    if negb (bubbles o) then
      match hasOpenChildren fuel i with
      | None => None
      | Some true => Some []
      | Some false => Some [Emit (PreventScroll false); OnOpenChange false]
      end
    else Some [Emit (PreventScroll false); OnOpenChange false]
  else Some [].

(** [tree && getChildren(...).some(node => isEventTargetWithin(event,
    node.context?.refs.floating.current))] *)
Definition targetIsInsideChildren (fuel : nat) (i : Instance) (path : list nat)
  : option bool :=
  match tree i with
  | None => Some false
  | Some nodes =>
      match Tree.getChildrenOf fuel nodes (nodeId i) with
      | None => None
      | Some cs =>
          Some (existsb
                  (fun node =>
                     isEventTargetWithin path
                       (match Tree.ctx node with
                        | Some c => Tree.floating c
                        | None => None
                        end))
                  cs)
      end
  end.

Definition onPointerDown (fuel : nat) (o : Options) (i : Instance) (path : list nat)
  : option (list Effect) :=
  match targetIsInsideChildren fuel i path with
  | None => None
  | Some inside =>
      if isEventTargetWithin path (floatingEl i)
         || isEventTargetWithin path (referenceEl i)
         || inside
      then Some []
      else
        let close :=
          [Emit (if nested i then PreventScroll true else PayloadFalse);
           OnOpenChange false] in
        if negb (bubbles o) then
          match hasOpenChildren fuel i with
          | None => None
          | Some true => Some []
          | Some false => Some close
          end
        else Some close
  end.

Definition onScroll : list Effect := [OnOpenChange false].

(** The elements that receive the scroll listener. *)
Definition ancestors (o : Options) (i : Instance) : list nat :=
  List.filter
    (fun a => match visualViewport i with
              | Some v => negb (Nat.eqb a v)
              | None => true
              end)
    (if ancestorScroll o then overflowAncestors i else []).

(** Delivery of a DOM event to the listeners that the effect installed:
    none while closed or disabled, and each kind only under its option. *)
Definition deliver (fuel : nat) (o : Options) (i : Instance) (s : Signal)
  : option (list Effect) :=
  if negb (open i) || negb (enabled o) then Some []
  else
    match s with
    | KeyDown key => if escapeKey o then onKeyDown fuel o i key else Some []
    | PointerDown path =>
        if outsidePointerDown o then onPointerDown fuel o i path else Some []
    | Scroll a =>
        if existsb (Nat.eqb a) (ancestors o i) then Some onScroll else Some []
    end.

(** The [reference.onPointerDown] prop returned by the hook. *)
Definition referenceOnPointerDown (o : Options) : list Effect :=
  if referencePointerDown o then [Emit PayloadUndefined; OnOpenChange false] else [].

(** A pointer-down as the page delivers it.  The hook, when enabled,
    returns the [reference.onPointerDown] prop, which React calls when the
    event passes through the reference element; the document listener of
    the effect sees the same event.  The two handlers run independently:
    the result gives the effects of the prop first and those of the document
    listener second. *)
Definition pointerDownEvent (fuel : nat) (o : Options) (i : Instance) (path : list nat)
  : option (list Effect * list Effect) :=
  match deliver fuel o i (PointerDown path) with
  | None => None
  | Some effs =>
      Some (if enabled o && isEventTargetWithin path (referenceEl i)
            then referenceOnPointerDown o else [],
            effs)
  end.

(** A menu "a" with an open submenu "b"; element handles: 10/11 are the
    reference and floating element of "a", 21 the floating element of "b",
    99 a scroll container around the reference. *)
Definition menuTree : list Tree.FloatingNode :=
  [ Tree.mkNode "a" None (Some (Tree.mkContext true (Some 11%nat)));
    Tree.mkNode "b" (Some "a") (Some (Tree.mkContext true (Some 21%nat))) ].

Definition menuA : Instance :=
  {| open := true; floatingEl := Some 11%nat; referenceEl := Some 10%nat;
     nodeId := Some "a"; tree := Some menuTree; nested := false;
     overflowAncestors := [99%nat]; visualViewport := None |}.

(** A menu "a" whose submenu "b" is closed while "c", a submenu of "b", still
    reports open. *)
Definition deepTree : list Tree.FloatingNode :=
  [ Tree.mkNode "a" None (Some (Tree.mkContext true (Some 11%nat)));
    Tree.mkNode "b" (Some "a") (Some (Tree.mkContext false (Some 21%nat)));
    Tree.mkNode "c" (Some "b") (Some (Tree.mkContext true (Some 31%nat))) ].

Definition deepA : Instance :=
  {| open := true; floatingEl := Some 11%nat; referenceEl := Some 10%nat;
     nodeId := Some "a"; tree := Some deepTree; nested := false;
     overflowAncestors := [99%nat]; visualViewport := None |}.

End Dismiss.

(* ===================================================================== *)
(** ** The prop-getter merge engine ([mergeProps], [useInteractions]) *)
(* ===================================================================== *)

Module Merge.

(** A prop value as contributed by a hook or by the caller: a function
    (identified by a handle, so that calls can be traced) or any other
    value (kept as its printed form). *)
Inductive Value :=
| VFun (f : nat)
| VData (d : string).

(** A prop value in the merged object: a contributed value stored as it is,
    or the closure that [mergeProps] builds for an event key, which reads
    the handler list of that key from the call's [Map] when invoked. *)
Inductive Out :=
| Plain (v : Value)
| Handler (key : string).

Abbreviation Props := (gmap string Value).

Inductive ElementKey := Reference | Floating | Item.

(** What an interaction hook returns: one optional prop object per target. *)
Record PropSet := mkPropSet {
  reference : option Props;
  floating : option Props;
  item : option Props
}.

Definition select (elementKey : ElementKey) (value : PropSet) : option Props :=
  match elementKey with
  | Reference => reference value
  | Floating => floating value
  | Item => item value
  end.

(** [key.indexOf('on') === 0] *)
Definition is_handler_key (key : string) : bool := String.prefix "on" key.

(** [typeof value === 'function' ? [value] : []] *)
Definition funs_of (v : Value) : list nat :=
  match v with
  | VFun f => [f]
  | VData _ => []
  end.

(** The state threaded through [reduce]: the accumulator object and the
    [Map] from event key to the list of contributed handlers. *)
Definition MergeState : Type := gmap string Out * gmap string (list nat).

(** The body of [Object.entries(props).forEach]. *)
Definition step (st : MergeState) (entry : string * Value) : MergeState :=
  let '(acc, map) := st in
  let '(key, value) := entry in
  if is_handler_key key then
    let map1 := match map !! key with
                | Some _ => map
                | None => <[key := []]> map
                end in
    let map2 := match value with
                | VFun f => <[key := default [] (map1 !! key) ++ [f]]> map1
                | VData _ => map1
                end in
    (<[key := Handler key]> acc, map2)
  else (<[key := Plain value]> acc, map).

(** The reducer: a falsy entry is skipped. *)
Definition assign_all (st : MergeState) (props : option Props) : MergeState :=
  match props with
  | None => st
  | Some p => foldl step st (map_to_list p)
  end.

(** [propsList.map(value => value ? value[elementKey] : null).concat(userProps)] *)
Definition contributions (userProps : option Props) (propsList : list (option PropSet))
    (elementKey : ElementKey) : list (option Props) :=
  map (fun value => match value with
                    | Some v => select elementKey v
                    | None => None
                    end) propsList
  ++ [userProps].

(** The result of a call: the merged object and the handler [Map] that its
    closures captured. *)
Record Merged := mkMerged {
  props : gmap string Out;
  handlers : gmap string (list nat)
}.

Definition tabIndexDefault (elementKey : ElementKey) : gmap string Out :=
  match elementKey with
  | Floating => {[ "tabIndex" := Plain (VData "-1") ]}
  | _ => ∅
  end.

(** Object spread is right-biased; [∪] on maps is left-biased. *)
Definition mergeProps (userProps : option Props) (propsList : list (option PropSet))
    (elementKey : ElementKey) : Merged :=
  let st := foldl assign_all (∅, ∅) (contributions userProps propsList elementKey) in
  {| props := st.1 ∪ ((Plain <$> default ∅ userProps) ∪ tabIndexDefault elementKey);
     handlers := st.2 |}.

Record Interactions := mkInteractions {
  getReferenceProps : option Props -> Merged;
  getFloatingProps : option Props -> Merged;
  getItemProps : option Props -> Merged
}.

Definition useInteractions (propsList : list (option PropSet)) : Interactions :=
  {| getReferenceProps := fun userProps => mergeProps userProps propsList Reference;
     getFloatingProps := fun userProps => mergeProps userProps propsList Floating;
     getItemProps := fun userProps => mergeProps userProps propsList Item |}.

(** Calling the prop stored under [key]: the handles of the functions that
    run, in order; [None] when the prop is absent or not a function. *)
Definition invoke (r : Merged) (key : string) : option (list nat) :=
  match props r !! key with
  | Some (Handler k) => Some (default [] (handlers r !! k))
  | Some (Plain (VFun f)) => Some [f]
  | _ => None
  end.

(** *** Specification vocabulary *)

(** [props[key]] of an optional object. *)
Definition lookup_c (key : string) (c : option Props) : option Value :=
  match c with
  | Some p => p !! key
  | None => None
  end.

(** The functions contributed under [key], in contribution order. *)
Definition contributed (key : string) (cs : list (option Props)) : list nat :=
  flat_map (fun c => match lookup_c key c with
                     | Some v => funs_of v
                     | None => []
                     end) cs.

(** Whether any contribution has [key] as an own property. *)
Definition has_key (key : string) (cs : list (option Props)) : bool :=
  existsb (fun c => match lookup_c key c with Some _ => true | None => false end) cs.

(** The value of the last contribution that has [key]. *)
Fixpoint last_value (key : string) (cs : list (option Props)) : option Value :=
  match cs with
  | [] => None
  | c :: cs' =>
      match last_value key cs' with
      | Some v => Some v
      | None => lookup_c key c
      end
  end.

(** The effect of one contribution on a single key of the accumulator and
    of the handler map. *)
Definition upd_acc (key : string) (ov : option Value) (old : option Out) : option Out :=
  match ov with
  | None => old
  | Some v => Some (if is_handler_key key then Handler key else Plain v)
  end.

Definition upd_map (key : string) (ov : option Value) (old : option (list nat))
  : option (list nat) :=
  match ov with
  | None => old
  | Some v => if is_handler_key key then Some (default [] old ++ funs_of v) else old
  end.

(** Two hooks contribute [onClick] (handlers 1 and 2) and a [role]; the
    caller supplies its own [onClick] (handler 3) and overrides [role]. *)
Definition hookA : PropSet :=
  mkPropSet (Some {[ "onClick" := VFun 1; "role" := VData "tooltip" ]}) None None.
Definition hookB : PropSet :=
  mkPropSet (Some {[ "onClick" := VFun 2; "aria-expanded" := VData "true" ]}) None None.
Definition callerProps : Props :=
  {[ "onClick" := VFun 3; "role" := VData "button" ]}.

End Merge.

(* ===================================================================== *)
(** ** Hover-intent geometry ([isPointInPolygon], [safePolygon]) *)
(* ===================================================================== *)

Module Polygon.

(** Coordinates are exact rationals.  The handler only adds, subtracts,
    halves and quadruples its inputs before comparing them, and divides
    inside [isPointInPolygon]; on inputs whose intermediate values are
    binary fractions (as in the scenario below) this agrees with the
    double-precision arithmetic of the source. *)
Local Open Scope Q_scope.

Definition Point : Type := Q * Q.

(** [a >= b], [a > b] and [a <= b] on numbers. *)
Definition geb (a b : Q) : bool := Qle_bool b a.
Definition gtb (a b : Q) : bool := negb (Qle_bool a b).
Definition leb (a b : Q) : bool := Qle_bool a b.

(** The test of one polygon edge:
    [yi >= y !== yj >= y && x <= (xj - xi) * (y - yi) / (yj - yi) + xi]. *)
Definition intersect (x y : Q) (pi pj : Point) : bool :=
  let '(xi, yi) := pi in
  let '(xj, yj) := pj in
  negb (Bool.eqb (geb yi y) (geb yj y))
  && leb x ((xj - xi) * (y - yi) / (yj - yi) + xi).

(** The loop [for (i = 0, j = length - 1; i < length; j = i++)]: [pj] is
    the vertex visited in the previous round. *)
Fixpoint pip_loop (x y : Q) (pj : Point) (rest : list Point) (isInside : bool) : bool :=
  match rest with
  | [] => isInside
  | pi :: rest' =>
      pip_loop x y pi rest' (if intersect x y pi pj then negb isInside else isInside)
  end.

Definition isPointInPolygon (point : Point) (polygon : list Point) : bool :=
  let '(x, y) := point in
  pip_loop x y (List.last polygon (0, 0)) polygon false.

(** A [DOMRect] as returned by [getBoundingClientRect]. *)
Record Rect := mkRect {
  left : Q; top : Q; right : Q; bottom : Q; width : Q; height : Q
}.

(** The rectangle written [{x, y, w, h}]. *)
Definition rectOf (x y w h : Q) : Rect :=
  {| left := x; top := y; right := x + w; bottom := y + h; width := w; height := h |}.

Inductive Side := Top | Bottom | Left | Right.
Inductive Alignment := Start | End_.

(** A placement string such as ["bottom-start"]; [side] is
    [placement.split('-')[0]]. *)
Record Placement := mkPlacement {
  side : Side;
  alignment : option Alignment
}.

(** A mounted element: its handle and its bounding rectangle. *)
Record Element := mkElement {
  handle : nat;
  rect : Rect
}.

Record Options := mkOptions {
  restMs : Q;
  buffer : Q
}.

(** The arguments the hover hook binds when it creates the handler;
    [nodeId] is [None] when the context has none ([undefined]). *)
Record Binding := mkBinding {
  x : option Q;
  y : option Q;
  placement : option Placement;
  domReference : option Element;
  floating : option Element;
  nodeId : option string;
  tree : option (list Tree.FloatingNode);
  leave : bool
}.

(** A pointer event: [composedPath] lists the target and its ancestors. *)
Record PointerEvent := mkPointerEvent {
  pointerType : option string;
  clientX : Q;
  clientY : Q;
  type : string;
  composedPath : list nat
}.

(** The two variables captured by the closure. *)
Record State := mkState {
  timeoutPending : bool;
  polygonIsDestroyed : bool
}.

Inductive Effect :=
| OnClose
| SetTimeout (ms : Q).

(** [el?.contains(targetNode)] *)
Definition contains (el : option Element) (path : list nat) : bool :=
  match el with
  | None => false
  | Some e => existsb (Nat.eqb (handle e)) path
  end.

(** [event.pointerType && event.pointerType !== 'mouse'] *)
Definition notMouse (pointerType : option string) : bool :=
  match pointerType with
  | None => false
  | Some s => negb (String.eqb s EmptyString) && negb (String.eqb s "mouse"%string)
  end.

(** [tree && getChildren(tree.nodesRef.current, nodeId).some(({context}) =>
    context?.open)] *)
Definition childOpen (fuel : nat) (b : Binding) : option bool :=
  match tree b with
  | None => Some false
  | Some nodes =>
      match Tree.getChildrenOf fuel nodes (nodeId b) with
      | None => None
      | Some cs => Some (existsb Tree.is_open cs)
      end
  end.

(** The "leaving from the opposite side" test. *)
Definition pastFarEdge (s : Side) (x y : Q) (refRect : Rect) : bool :=
  match s with
  | Top => geb y (bottom refRect - 1)
  | Bottom => leb y (top refRect + 1)
  | Left => geb x (right refRect - 1)
  | Right => leb x (left refRect + 1)
  end.

(** The rectangular trough between the two elements. *)
Definition inTrough (s : Side) (clientX clientY : Q) (refRect rect : Rect) : bool :=
  match s with
  | Top =>
      geb clientX (left rect) && leb clientX (right rect)
      && geb clientY (top rect) && leb clientY (top refRect + 1)
  | Bottom =>
      geb clientX (left rect) && leb clientX (right rect)
      && geb clientY (bottom refRect - 1) && leb clientY (bottom rect)
  | Left =>
      geb clientX (left rect) && leb clientX (left refRect + 1)
      && geb clientY (top rect) && leb clientY (bottom rect)
  | Right =>
      geb clientX (right refRect - 1) && leb clientX (right rect)
      && geb clientY (top rect) && leb clientY (bottom rect)
  end.

Definition getPolygon (s : Side) (buffer : Q) (refRect rect : Rect)
    (cursorLeaveFromRight cursorLeaveFromBottom : bool) (x y : Q) : list Point :=
  let isFloatingWider := gtb (width rect) (width refRect) in
  let isFloatingTaller := gtb (height rect) (height refRect) in
  match s with
  | Top =>
      let cursorPointOne :=
        (if isFloatingWider then x + buffer / 2
         else if cursorLeaveFromRight then x + buffer * 4 else x - buffer * 4,
         y + buffer + 1) in
      let cursorPointTwo :=
        (if isFloatingWider then x - buffer / 2
         else if cursorLeaveFromRight then x + buffer * 4 else x - buffer * 4,
         y + buffer + 1) in
      [ cursorPointOne; cursorPointTwo;
        (left rect,
         if cursorLeaveFromRight then bottom rect - buffer
         else if isFloatingWider then bottom rect - buffer else top rect);
        (right rect,
         if cursorLeaveFromRight
         then (if isFloatingWider then bottom rect - buffer else top rect)
         else bottom rect - buffer) ]
  | Bottom =>
      let cursorPointOne :=
        (if isFloatingWider then x + buffer / 2
         else if cursorLeaveFromRight then x + buffer * 4 else x - buffer * 4,
         y - buffer) in
      let cursorPointTwo :=
        (if isFloatingWider then x - buffer / 2
         else if cursorLeaveFromRight then x + buffer * 4 else x - buffer * 4,
         y - buffer) in
      [ cursorPointOne; cursorPointTwo;
        (left rect,
         if cursorLeaveFromRight then top rect + buffer
         else if isFloatingWider then top rect + buffer else bottom rect);
        (right rect,
         if cursorLeaveFromRight
         then (if isFloatingWider then top rect + buffer else bottom rect)
         else top rect + buffer) ]
  | Left =>
      let cursorPointOne :=
        (x + buffer + 1,
         if isFloatingTaller then y + buffer / 2
         else if cursorLeaveFromBottom then y + buffer * 4 else y - buffer * 4) in
      let cursorPointTwo :=
        (x + buffer + 1,
         if isFloatingTaller then y - buffer / 2
         else if cursorLeaveFromBottom then y + buffer * 4 else y - buffer * 4) in
      [ (if cursorLeaveFromBottom then right rect - buffer
         else if isFloatingTaller then right rect - buffer else left rect,
         top rect);
        (if cursorLeaveFromBottom
         then (if isFloatingTaller then right rect - buffer else left rect)
         else right rect - buffer,
         bottom rect);
        cursorPointOne; cursorPointTwo ]
  | Right =>
      let cursorPointOne :=
        (x - buffer,
         if isFloatingTaller then y + buffer / 2
         else if cursorLeaveFromBottom then y + buffer * 4 else y - buffer * 4) in
      let cursorPointTwo :=
        (x - buffer,
         if isFloatingTaller then y - buffer / 2
         else if cursorLeaveFromBottom then y + buffer * 4 else y - buffer * 4) in
      [ cursorPointOne; cursorPointTwo;
        (if cursorLeaveFromBottom then left rect + buffer
         else if isFloatingTaller then left rect + buffer else right rect,
         top rect);
        (if cursorLeaveFromBottom
         then (if isFloatingTaller then left rect + buffer else right rect)
         else left rect + buffer,
         bottom rect) ]
  end.

(** [onPointerMove]: the new closure state and the effects, in order.
    [clearTimeout(timeoutId)] comes first, so the timer is pending afterwards
    only if this call sets it. *)
Definition onPointerMove (fuel : nat) (o : Options) (b : Binding) (st : State)
    (event : PointerEvent) : option (State * list Effect) :=
  let cleared := {| timeoutPending := false; polygonIsDestroyed := polygonIsDestroyed st |} in
  if notMouse (pointerType event) then Some (cleared, [])
  else if String.eqb (type event) "pointermove"
          && contains (domReference b) (composedPath event)
  then Some (cleared, [])
  else
    match childOpen fuel b with
    | None => None
    | Some true => Some (cleared, [])
    | Some false =>
        if contains (floating b) (composedPath event) && negb (leave b)
        then Some ({| timeoutPending := false; polygonIsDestroyed := true |}, [])
        else
          match domReference b, floating b, placement b, x b, y b with
          | Some reference, Some float, Some pl, Some x, Some y =>
              let refRect := rect reference in
              let rect := rect float in
              let side := side pl in
              let cursorLeaveFromRight := gtb x (right rect - width rect / 2) in
              let cursorLeaveFromBottom := gtb y (bottom rect - height rect / 2) in
              if pastFarEdge side x y refRect then Some (cleared, [OnClose])
              else if inTrough side (clientX event) (clientY event) refRect rect
              then Some (cleared, [])
              else if polygonIsDestroyed st then Some (cleared, [OnClose])
              else
                let poly :=
                  getPolygon side (buffer o) refRect rect
                    cursorLeaveFromRight cursorLeaveFromBottom x y in
                if negb (isPointInPolygon (clientX event, clientY event) poly)
                then Some (cleared, [OnClose])
                else if Qeq_bool (restMs o) 0 then Some (cleared, [])
                else Some ({| timeoutPending := true;
                              polygonIsDestroyed := polygonIsDestroyed st |},
                           [SetTimeout (restMs o)])
          | _, _, _, _, _ => Some (cleared, [])
          end
    end.

(** The scenario of the hover-intent test: a reference [{0,0,100,40}] with
    the floating element [{0,40,100,60}] placed below it, and a pointer that
    left the reference at (50,38). *)
Definition scenario (al : option Alignment) (nodeId : option string)
    (tree : option (list Tree.FloatingNode)) (leave : bool) : Binding :=
  {| x := Some 50; y := Some 38;
     placement := Some (mkPlacement Bottom al);
     domReference := Some (mkElement 1 (rectOf 0 0 100 40));
     floating := Some (mkElement 2 (rectOf 0 40 100 60));
     nodeId := nodeId; tree := tree; leave := leave |}.

End Polygon.

(* ===================================================================== *)
(** ** List navigation ([findNonDisabledIndex], [useListNavigation]) *)
(* ===================================================================== *)

Module ListNav.
Local Open Scope Z_scope.

(** An item element: its handle and the two attributes that the disabled
    probe reads ([hasAttribute('disabled')] and
    [getAttribute('aria-disabled') === 'true']). *)
Record Item := mkItem {
  elem : nat;
  hasDisabledAttr : bool;
  ariaDisabledTrue : bool
}.

(** [listRef.current]: an array of elements or [null]. *)
Definition ItemList : Type := list (option Item).

Definition ARROW_UP : string := "ArrowUp".
Definition ARROW_DOWN : string := "ArrowDown".
Definition ARROW_LEFT : string := "ArrowLeft".
Definition ARROW_RIGHT : string := "ArrowRight".

Definition len (l : ItemList) : Z := Z.of_nat (length l).

Definition isIndexOutOfBounds (l : ItemList) (index : Z) : bool :=
  (index <? 0) || (index >=? len l).

(** The disabled test inside the loop condition, for an in-bounds index. *)
Definition isDisabled (l : ItemList) (disabledIndices : option (list Z)) (index : Z) : bool :=
  match disabledIndices with
  | Some d => existsb (Z.eqb index) d
  | None =>
      if index <? 0 then true
      else
        match nth_error l (Z.to_nat index) with
        | Some (Some it) => hasDisabledAttr it || ariaDisabledTrue it
        | _ => true
        end
  end.

(** The loop condition of [findNonDisabledIndex]. *)
Definition keepWalking (l : ItemList) (disabledIndices : option (list Z)) (index : Z) : bool :=
  (index >=? 0) && (index <=? len l - 1) && isDisabled l disabledIndices index.

(** The [do ... while] loop; every round with a true condition consumes one
    in-bounds index, so [length l] rounds of fuel are never used up. *)
Fixpoint walk (fuel : nat) (l : ItemList) (disabledIndices : option (list Z))
    (decrement : bool) (index : Z) : Z :=
  let index' := index + (if decrement then -1 else 1) in
  match fuel with
  | O => index'
  | S fuel' =>
      if keepWalking l disabledIndices index'
      then walk fuel' l disabledIndices decrement index'
      else index'
  end.

Definition findNonDisabledIndex (l : ItemList) (startingIndex : Z) (decrement : bool)
    (disabledIndices : option (list Z)) : Z :=
  walk (length l) l disabledIndices decrement startingIndex.

Inductive Orientation := Vertical | Horizontal | Both.

Definition doSwitch (orientation : Orientation) (vertical horizontal : bool) : bool :=
  match orientation with
  | Vertical => vertical
  | Horizontal => horizontal
  | Both => vertical || horizontal
  end.

Definition isMainOrientationKey (key : string) (orientation : Orientation) : bool :=
  let vertical := String.eqb key ARROW_UP || String.eqb key ARROW_DOWN in
  let horizontal := String.eqb key ARROW_LEFT || String.eqb key ARROW_RIGHT in
  doSwitch orientation vertical horizontal.

Definition isMainOrientationToEndKey (key : string) (orientation : Orientation) (rtl : bool)
  : bool :=
  let vertical := String.eqb key ARROW_DOWN in
  let horizontal := if rtl then String.eqb key ARROW_LEFT else String.eqb key ARROW_RIGHT in
  doSwitch orientation vertical horizontal
  || String.eqb key "Enter" || String.eqb key " " || String.eqb key "".

Definition isCrossOrientationOpenKey (key : string) (orientation : Orientation) (rtl : bool)
  : bool :=
  let vertical := if rtl then String.eqb key ARROW_LEFT else String.eqb key ARROW_RIGHT in
  let horizontal := String.eqb key ARROW_DOWN in
  doSwitch orientation vertical horizontal.

Definition isCrossOrientationCloseKey (key : string) (orientation : Orientation) (rtl : bool)
  : bool :=
  let vertical := if rtl then String.eqb key ARROW_RIGHT else String.eqb key ARROW_LEFT in
  let horizontal := String.eqb key ARROW_UP in
  doSwitch orientation vertical horizontal.

Definition getMinIndex (l : ItemList) (disabledIndices : option (list Z)) : Z :=
  findNonDisabledIndex l (-1) false disabledIndices.

Definition getMaxIndex (l : ItemList) (disabledIndices : option (list Z)) : Z :=
  findNonDisabledIndex l (len l) true disabledIndices.

(** The options of [useListNavigation] together with the [open] flag of
    the context.  [disabledIndices = None] is the probing mode. *)
Record Props := mkProps {
  open : bool;
  selectedIndex : option Z;
  allowEscape : bool;
  loop : bool;
  nested : bool;
  rtl : bool;
  virtual : bool;
  focusItemOnHover : bool;
  openOnArrowKeyDown : bool;
  disabledIndices : option (list Z);
  orientation : Orientation;
  referenceIsHTMLElement : bool
}.

(** The mutable refs of one hook instance, with the item list. *)
Record State := mkState {
  listRef : ItemList;
  indexRef : Z;
  keyRef : option string;
  blockPointerLeaveRef : bool
}.

(** A key event: its key, and whether the element that carries the listener
    is itself the active element (no item has focus). *)
Record KeyEvent := mkKeyEvent {
  key : string;
  currentTargetIsActive : bool
}.

Inductive Effect :=
| OnNavigate (index : option Z)
| OnOpenChange (b : bool)
| StopEvent
| FocusReference
| FocusFloating
| FocusItem (index : Z)
| FocusTarget.

Definition setIndex (st : State) (i : Z) : State :=
  {| listRef := listRef st; indexRef := i; keyRef := keyRef st;
     blockPointerLeaveRef := blockPointerLeaveRef st |}.

Definition setBlock (st : State) (b : bool) : State :=
  {| listRef := listRef st; indexRef := indexRef st; keyRef := keyRef st;
     blockPointerLeaveRef := b |}.

Definition setKey (st : State) (k : option string) : State :=
  {| listRef := listRef st; indexRef := indexRef st; keyRef := k;
     blockPointerLeaveRef := blockPointerLeaveRef st |}.

Definition setList (st : State) (l : ItemList) : State :=
  {| listRef := l; indexRef := indexRef st; keyRef := keyRef st;
     blockPointerLeaveRef := blockPointerLeaveRef st |}.

(** The index chosen by the main-orientation branch of [onKeyDown]. *)
Definition nextIndex (p : Props) (l : ItemList) (currentIndex : Z) (toEnd : bool) : Z :=
  let minIndex := getMinIndex l (disabledIndices p) in
  let maxIndex := getMaxIndex l (disabledIndices p) in
  if toEnd then
    if loop p then
      if currentIndex >=? maxIndex
      then (if allowEscape p && negb (currentIndex =? len l) then -1 else minIndex)
      else findNonDisabledIndex l currentIndex false (disabledIndices p)
    else Z.min maxIndex (findNonDisabledIndex l currentIndex false (disabledIndices p))
  else
    if loop p then
      if currentIndex <=? minIndex
      then (if allowEscape p && negb (currentIndex =? -1) then len l else maxIndex)
      else findNonDisabledIndex l currentIndex true (disabledIndices p)
    else Z.max minIndex (findNonDisabledIndex l currentIndex true (disabledIndices p)).

(** The shared [onKeyDown] (the floating element's key handler). *)
Definition onKeyDown (p : Props) (st : State) (event : KeyEvent) : State * list Effect :=
  let st := setBlock st true in
  if nested p && isCrossOrientationCloseKey (key event) (orientation p) (rtl p)
  then (st, [StopEvent; OnOpenChange false]
            ++ (if referenceIsHTMLElement p then [FocusReference] else []))
  else
    let l := listRef st in
    let currentIndex := indexRef st in
    let minIndex := getMinIndex l (disabledIndices p) in
    let maxIndex := getMaxIndex l (disabledIndices p) in
    let '(st, e1) :=
      if String.eqb (key event) "Home"
      then (setIndex st minIndex, [OnNavigate (Some minIndex)])
      else (st, []) in
    let '(st, e2) :=
      if String.eqb (key event) "End"
      then (setIndex st maxIndex, [OnNavigate (Some maxIndex)])
      else (st, []) in
    if isMainOrientationKey (key event) (orientation p) then
      let toEnd := isMainOrientationToEndKey (key event) (orientation p) (rtl p) in
      if open p && negb (virtual p) && currentTargetIsActive event then
        let i := if toEnd then minIndex else maxIndex in
        (setIndex st i, e1 ++ e2 ++ [StopEvent; OnNavigate (Some i)])
      else
        let i := nextIndex p l currentIndex toEnd in
        (setIndex st i,
         e1 ++ e2 ++
         [StopEvent;
          if isIndexOutOfBounds l i then OnNavigate None else OnNavigate (Some i)])
    else (st, e1 ++ e2).

(** [reference.onKeyDown]. *)
Definition referenceOnKeyDown (p : Props) (st : State) (event : KeyEvent)
  : State * list Effect :=
  let st := setBlock st true in
  if virtual p && open p then onKeyDown p st event
  else
    let k := key event in
    let isNavigationKey :=
      String.prefix "Arrow" k || String.eqb k "Enter" || String.eqb k " "
      || String.eqb k "" in
    let st := if isNavigationKey then setKey st (Some k) else st in
    if nested p then
      if isCrossOrientationOpenKey k (orientation p) (rtl p) then
        if open p then
          let i := getMinIndex (listRef st) (disabledIndices p) in
          (setIndex st i, [StopEvent; OnNavigate (Some i)])
        else (st, [StopEvent; OnOpenChange true])
      else (st, [])
    else if isMainOrientationKey k (orientation p) then
      let st := match selectedIndex p with
                | Some s => setIndex st s
                | None => st
                end in
      let '(st, e) :=
        if negb (open p) && openOnArrowKeyDown p
        then (st, [OnOpenChange true])
        else onKeyDown p st event in
      (st, StopEvent :: e ++
           (if open p then [OnNavigate (Some (indexRef st))] else []))
    else (st, []).

(** [listRef.current.indexOf(target)]: the first position that holds the
    element, or [-1]. *)
Fixpoint indexOfFrom (l : ItemList) (target : nat) (i : Z) : Z :=
  match l with
  | [] => -1
  | Some it :: l' => if Nat.eqb (elem it) target then i else indexOfFrom l' target (i + 1)
  | None :: l' => indexOfFrom l' target (i + 1)
  end.

Definition indexOf (l : ItemList) (target : nat) : Z := indexOfFrom l target 0.

(** [item.onFocus] and, when [focusItemOnHover] is set, [item.onMouseMove]. *)
Definition itemOnFocus (st : State) (currentTarget : nat) : State * list Effect :=
  let index := indexOf (listRef st) currentTarget in
  if negb (index =? -1) then (st, [OnNavigate (Some index)]) else (st, []).

Definition itemOnMouseMove (p : Props) (st : State) (currentTarget : nat)
  : State * list Effect :=
  if focusItemOnHover p then itemOnFocus st currentTarget else (st, []).

Definition itemOnPointerLeave (p : Props) (st : State) : State * list Effect :=
  if focusItemOnHover p && negb (blockPointerLeaveRef st) then
    (setIndex st (-1),
     [FocusItem (-1); OnNavigate None] ++ (if virtual p then [] else [FocusFloating]))
  else (st, []).

Definition floatingOnPointerMove (st : State) : State * list Effect :=
  (setBlock st false, []).

(** The operations of the navigation state machine.  [Render] stands for a
    render in between events: the component refills [listRef] and the layout
    effects may leave any value in [indexRef]. *)
Inductive Op :=
| FloatingKeyDown (event : KeyEvent)
| ReferenceKeyDown (event : KeyEvent)
| FloatingPointerMove
| ItemFocus (currentTarget : nat)
| ItemClick
| ItemMouseMove (currentTarget : nat)
| ItemPointerLeave
| Render (l : ItemList) (index : Z).

Definition step (p : Props) (st : State) (op : Op) : State * list Effect :=
  match op with
  | FloatingKeyDown event => onKeyDown p st event
  | ReferenceKeyDown event => referenceOnKeyDown p st event
  | FloatingPointerMove => floatingOnPointerMove st
  | ItemFocus t => itemOnFocus st t
  | ItemClick => (st, [FocusTarget])
  | ItemMouseMove t => itemOnMouseMove p st t
  | ItemPointerLeave => itemOnPointerLeave p st
  | Render l i => (setIndex (setList st l) i, [])
  end.

(** Running a sequence of operations: for each one, the state it started
    from and the effects it produced. *)
Fixpoint run (p : Props) (st : State) (ops : list Op) : list (State * Op * list Effect) :=
  match ops with
  | [] => []
  | op :: ops' =>
      let '(st', effs) := step p st op in
      (st, op, effs) :: run p st' ops'
  end.

Fixpoint final (p : Props) (st : State) (ops : list Op) : State :=
  match ops with
  | [] => st
  | op :: ops' => final p (fst (step p st op)) ops'
  end.

(** *** Specification vocabulary *)

(** An index that refers to an item of the list that is not disabled. *)
Definition validIndex (l : ItemList) (disabledIndices : option (list Z)) (i : Z) : Prop :=
  0 <= i < len l /\ isDisabled l disabledIndices i = false.

(** Fuel that covers the in-bounds indices ahead of [index]. *)
Definition enough (fuel : nat) (l : ItemList) (decrement : bool) (index : Z) : Prop :=
  if decrement
  then index > len l \/ index <= Z.of_nat fuel
  else index < -1 \/ len l - 1 - index <= Z.of_nat fuel.

(** An arrow-key press that reaches the index computation of [onKeyDown]:
    a main-orientation key, not taken as the close key of a nested list, and
    not the "no item has focus" reset. *)
Definition arrowNavigation (p : Props) (event : KeyEvent) : bool :=
  isMainOrientationKey (key event) (orientation p)
  && negb (nested p && isCrossOrientationCloseKey (key event) (orientation p) (rtl p))
  && negb (open p && negb (virtual p) && currentTargetIsActive event).

(** The grid of the visual test: 49 buttons, nine of them disabled. *)
Definition gridDisabled : list Z := [0; 1; 2; 5; 10; 15; 46; 47; 48].

Definition gridList : ItemList :=
  map (fun i => Some (mkItem i (existsb (Z.eqb (Z.of_nat i)) gridDisabled) false))
      (seq 0 49).

Definition gridProps (virtual : bool) (orientation : Orientation) (rtl : bool) : Props :=
  {| open := true; selectedIndex := None; allowEscape := false; loop := true;
     nested := false; rtl := rtl; virtual := virtual; focusItemOnHover := true;
     openOnArrowKeyDown := false; disabledIndices := Some gridDisabled;
     orientation := orientation; referenceIsHTMLElement := true |}.

(** What the amended invariant promises about the effects of one
    operation started in state [st]: an arrow-key press that reaches the
    index computation reports only valid indices; item focus and hover
    report the position of the item itself; pointer leave reports no
    index. *)
Definition reportsOk (p : Props) (st : State) (op : Op) (effs : list Effect) : Prop :=
  match op with
  | FloatingKeyDown event =>
      arrowNavigation p event = true ->
      forall i, In (OnNavigate (Some i)) effs ->
                validIndex (listRef st) (disabledIndices p) i
  | ItemFocus t | ItemMouseMove t =>
      forall i, In (OnNavigate (Some i)) effs ->
                0 <= i < len (listRef st) /\
                exists it, nth_error (listRef st) (Z.to_nat i) = Some (Some it) /\
                           elem it = t
  | ItemPointerLeave => forall i, ~ In (OnNavigate (Some i)) effs
  | _ => True
  end.

(** Three enabled items, and the same list with index 1 listed as
    disabled. *)
Definition threeItems : ItemList :=
  [ Some (mkItem 100 false false); Some (mkItem 101 false false);
    Some (mkItem 102 false false) ].

(** The same three items with the middle one marked [aria-disabled]. *)
Definition threeItemsAria : ItemList :=
  [ Some (mkItem 100 false false); Some (mkItem 101 false true);
    Some (mkItem 102 false false) ].

Definition plainProps (loop allowEscape virtual : bool) (d : option (list Z)) : Props :=
  {| open := true; selectedIndex := None; allowEscape := allowEscape; loop := loop;
     nested := false; rtl := false; virtual := virtual; focusItemOnHover := true;
     openOnArrowKeyDown := true; disabledIndices := d;
     orientation := Vertical; referenceIsHTMLElement := true |}.

(** The index after a forward press in the grid, from index [i]. *)
Definition gridNext (i : Z) : Z :=
  nextIndex (gridProps false Horizontal false) gridList i true.

(** Boolean form of [validIndex]. *)
Definition validIndexb (l : ItemList) (disabledIndices : option (list Z)) (i : Z) : bool :=
  negb (isIndexOutOfBounds l i) && negb (isDisabled l disabledIndices i).

(** Forward presses of key [k], one per flag; the flag tells whether the
    floating element itself held focus at that press. *)
Definition forwardPresses (k : string) (flags : list bool) : list Op :=
  map (fun f => FloatingKeyDown (mkKeyEvent k f)) flags.

End ListNav.

(* ===================================================================== *)
(** ** Typeahead ([useTypeahead]) *)
(* ===================================================================== *)

Module Typeahead.
Local Open Scope Z_scope.

(** A string is a sequence of 8-bit characters.  [asciiLowerCase] lowers
    the ASCII letters and leaves the other characters as they are: it is
    what [toLocaleLowerCase] does to an ASCII string in a locale without
    casing rules of its own, and it is used for concrete scenarios only. *)
Definition lowerAscii (c : ascii) : ascii :=
  let n := nat_of_ascii c in
  if (65 <=? n)%nat && (n <=? 90)%nat then ascii_of_nat (n + 32) else c.

Fixpoint asciiLowerCase (s : string) : string :=
  match s with
  | EmptyString => EmptyString
  | String c s' => String (lowerAscii c) (asciiLowerCase s')
  end.

(** [listRef.current]: the labels, some of which may be [null]. *)
Definition Labels : Type := list (option string).

(** Index normalisation of [Array.prototype.slice]. *)
Definition relIndex (n : nat) (i : Z) : nat :=
  Z.to_nat (if i <? 0 then Z.max (Z.of_nat n + i) 0 else Z.min i (Z.of_nat n)).

(** [l.slice(start, end)] and [l.slice(start)]. *)
Definition slice {A} (l : list A) (start stop : Z) : list A :=
  skipn (relIndex (length l) start) (firstn (relIndex (length l) stop) l).

Definition sliceFrom {A} (l : list A) (start : Z) : list A :=
  skipn (relIndex (length l) start) l.

(** [listContent.indexOf(str)] *)
Fixpoint indexOfFrom (l : Labels) (str : string) (i : Z) : Z :=
  match l with
  | [] => -1
  | Some t :: l' => if String.eqb t str then i else indexOfFrom l' str (i + 1)
  | None :: l' => indexOfFrom l' str (i + 1)
  end.

Definition indexOf (l : Labels) (str : string) : Z := indexOfFrom l str 0.

Record Props := mkProps {
  listRef : option Labels;
  findMatch : option (Labels -> string -> option string);
  ignoreKeys : list string
}.

(** The refs of one hook instance; [typing] is [dataRef.current.typing] and
    [timerPending] tells whether the reset timer is scheduled. *)
Record State := mkState {
  stringRef : string;
  prevIndexRef : option Z;
  matchIndexRef : option Z;
  typing : bool;
  timerPending : bool
}.

Record KeyEvent := mkKeyEvent {
  key : string;
  focusWithin : bool
}.

Inductive Effect :=
| OnMatch (index : Z)
| StopEvent.

Definition fixedIgnoredKeys : list string :=
  ["Home"; "End"; "Escape"; "Enter"; "Tab";
   "ArrowUp"; "ArrowDown"; "ArrowLeft"; "ArrowRight"]%string.

(** [[...listContent.slice((prevIndex ?? 0) + 1),
      ...listContent.slice(0, (prevIndex ?? 0) + 1)]] *)
Definition orderedList (listContent : Labels) (prevIndex : option Z) : Labels :=
  let n := default 0 prevIndex + 1 in
  sliceFrom listContent n ++ slice listContent 0 n.

Section Locale.

(** [String.prototype.toLocaleLowerCase] as the host implements it: it
    depends on the locale and on the Unicode tables, so it is a parameter
    of the model. *)
Variable toLocaleLowerCase : string -> string.

(** [text ? text[0]?.toLocaleLowerCase() !== text[1]?.toLocaleLowerCase() : true];
    for a text of one character the right-hand side is [undefined]. *)
Definition firstTwoDiffer (text : option string) : bool :=
  match text with
  | None | Some EmptyString => true
  | Some (String c0 EmptyString) => true
  | Some (String c0 (String c1 _)) =>
      negb (String.eqb (toLocaleLowerCase (String c0 EmptyString))
                       (toLocaleLowerCase (String c1 EmptyString)))
  end.

(** The default matcher:
    [orderedList.find(text => text?.toLocaleLowerCase().indexOf(s) === 0)]. *)
Definition matches (s : string) (text : option string) : bool :=
  match text with
  | None => false
  | Some t => String.prefix s (toLocaleLowerCase t)
  end.

Definition defaultFind (orderedList : Labels) (s : string) : option string :=
  match List.find (matches s) orderedList with
  | Some (Some t) => Some t
  | _ => None
  end.

Definition onKeyDown (p : Props) (st : State) (event : KeyEvent) : State * list Effect :=
  if negb (focusWithin event) then (st, [])
  else
    let busy :=
      match stringRef st with
      | EmptyString => false
      | String c _ => negb (Ascii.eqb c " "%char)
      end in
    let typing1 := if busy then true else typing st in
    let e1 := if busy && String.eqb (key event) " " then [StopEvent] else [] in
    let st1 := {| stringRef := stringRef st; prevIndexRef := prevIndexRef st;
                  matchIndexRef := matchIndexRef st; typing := typing1;
                  timerPending := timerPending st |} in
    match listRef p with
    | None => (st1, e1)
    | Some listContent =>
        if existsb (String.eqb (key event)) (fixedIgnoredKeys ++ ignoreKeys p)
        then (st1, e1)
        else
          let allowRapidSuccessionOfFirstLetter := forallb firstTwoDiffer listContent in
          let rapid :=
            allowRapidSuccessionOfFirstLetter && String.eqb (stringRef st) (key event) in
          let string1 := if rapid then EmptyString else stringRef st in
          let prev1 := if rapid then matchIndexRef st else prevIndexRef st in
          let string2 := (string1 ++ key event)%string in
          let ordered := orderedList listContent prev1 in
          let str :=
            match findMatch p with
            | Some f => f ordered string2
            | None => defaultFind ordered string2
            end in
          let index :=
            match str with
            | Some (String c s) => indexOf listContent (String c s)
            | _ => -1
            end in
          if negb (index =? -1) then
            ({| stringRef := string2; prevIndexRef := prev1;
                matchIndexRef := Some index; typing := typing1;
                timerPending := true |},
             e1 ++ [OnMatch index])
          else
            ({| stringRef := string2; prevIndexRef := prev1;
                matchIndexRef := matchIndexRef st; typing := typing1;
                timerPending := true |},
             e1)
    end.

(** The callback of the reset timer. *)
Definition onTimeout (st : State) : State :=
  {| stringRef := EmptyString; prevIndexRef := matchIndexRef st;
     matchIndexRef := matchIndexRef st; typing := false; timerPending := false |}.

(** The layout effect keyed on [open]. *)
Definition openEffect (open : bool) (st : State) : State :=
  if open then
    {| stringRef := EmptyString; prevIndexRef := prevIndexRef st;
       matchIndexRef := None; typing := typing st; timerPending := false |}
  else st.

(** The layout effect keyed on [open], [selectedIndex] and [activeIndex]. *)
Definition syncEffect (open : bool) (selectedIndex activeIndex : option Z) (st : State)
  : State :=
  if open && String.eqb (stringRef st) EmptyString then
    {| stringRef := stringRef st;
       prevIndexRef :=
         Some (match selectedIndex with
               | Some s => s
               | None => default (-1) activeIndex
               end);
       matchIndexRef := matchIndexRef st; typing := typing st;
       timerPending := timerPending st |}
  else st.

Inductive Op :=
| KeyDown (event : KeyEvent)
| TimerExpires
| OpenEffect (open : bool)
| SyncEffect (open : bool) (selectedIndex activeIndex : option Z).

Definition step (p : Props) (st : State) (op : Op) : State * list Effect :=
  match op with
  | KeyDown event => onKeyDown p st event
  | TimerExpires => (if timerPending st then onTimeout st else st, [])
  | OpenEffect o => (openEffect o st, [])
  | SyncEffect o s a => (syncEffect o s a st, [])
  end.

(** The effects of a sequence of operations, in order. *)
Fixpoint run (p : Props) (st : State) (ops : list Op) : list Effect :=
  match ops with
  | [] => []
  | op :: ops' => snd (step p st op) ++ run p (fst (step p st op)) ops'
  end.

End Locale.

(** The initial refs when neither [selectedIndex] nor [activeIndex] is set. *)
Definition initial : State :=
  {| stringRef := EmptyString; prevIndexRef := Some (-1); matchIndexRef := None;
     typing := false; timerPending := false |}.

Definition fruit : Props :=
  {| listRef := Some [Some "Apple"; Some "Apricot"; Some "Banana"]%string;
     findMatch := None; ignoreKeys := [] |}.


(** *** Specification vocabulary *)


(** No two positions of the list hold the same label. *)
Definition distinctLabels (l : Labels) : Prop :=
  forall i j t, nth_error l i = Some (Some t) -> nth_error l j = Some (Some t) -> i = j.





End Typeahead.

(* ===================================================================== *)
(** ** The aria-hidden ledger ([hideOthers]) *)
(* ===================================================================== *)

Module AriaHide.

(** A DOM subtree: an element handle and its child elements, in order. *)
#[warnings="-register-all"] Inductive Dom := Node (el : nat) (children : list Dom).

Definition elOf (d : Dom) : nat := match d with Node e _ => e end.

(** A counter read back from a [WeakMap]: [get(node) - 1] is [NaN] when the
    node has no entry. *)
Inductive Num := Int (z : Z) | NaN.

(** [(map.get(node) || 0) + 1] *)
Definition bump (o : option Num) : Z :=
  match o with
  | Some (Int z) => (z + 1)%Z
  | _ => 1%Z
  end.

(** [map.get(node) - 1] *)
Definition decr (o : option Num) : Num :=
  match o with
  | Some (Int z) => Int (z - 1)
  | _ => NaN
  end.

(** [!value] for a number. *)
Definition falsy (n : Num) : bool :=
  match n with
  | Int z => Z.eqb z 0
  | NaN => true
  end.

(** The module-level variables.  The marker counters live in [WeakMap]
    objects that release functions keep a reference to, so they are kept in
    a heap addressed by handle; [markerMap] is the handle stored under the
    default marker name, if any. *)
Record Ledger := mkLedger {
  counterMap : gmap nat Num;
  uncontrolledNodes : gset nat;
  markerHeap : list (gmap nat Num);
  markerMap : option nat;
  lockCount : Z
}.

(** The attributes that the function reads and writes, and the ledger. *)
Record World := mkWorld {
  ariaHidden : gmap nat string;
  markerAttr : gmap nat string;
  ledger : Ledger
}.

(** What a release function captured. *)
Record Release := mkRelease {
  hiddenNodes : list nat;
  markerCounter : nat
}.

Definition inTargets (targets : list nat) (e : nat) : bool :=
  existsb (Nat.eqb e) targets.

(** [elementsToKeep.has(node)] for a node of the subtree: [keep] marks the
    targets and walks up their [parentNode] chains, so a node of the tree is
    marked when it is a target or has one below it. *)
Fixpoint kept (targets : list nat) (d : Dom) : bool :=
  match d with
  | Node e cs => inTargets targets e || existsb (kept targets) cs
  end.

(** The traversal [deep]: the nodes it hides, in the order it meets them. *)
Fixpoint deep (targets : list nat) (parent : Dom) : list nat :=
  match parent with
  | Node e cs =>
      if inTargets targets e then []
      else flat_map (fun node => if kept targets node then deep targets node
                                 else [elOf node]) cs
  end.

(** [attr !== null && attr !== 'false'] *)
Definition alreadyHidden (attr : option string) : bool :=
  match attr with
  | None => false
  | Some s => negb (String.eqb s "false")
  end.

(** The body of the [else] branch in [deep], for one node. *)
Definition hideNode (h : nat) (w : World) (node : nat) : World :=
  let lg := ledger w in
  let hidden := alreadyHidden (ariaHidden w !! node) in
  let counterValue := bump (counterMap lg !! node) in
  let mc := default ∅ (markerHeap lg !! h) in
  let markerValue := bump (mc !! node) in
  {| ariaHidden := if hidden then ariaHidden w else <[node := "true"]> (ariaHidden w);
     markerAttr := if Z.eqb markerValue 1 then <[node := "true"]> (markerAttr w)
                   else markerAttr w;
     ledger :=
       {| counterMap := <[node := Int counterValue]> (counterMap lg);
          uncontrolledNodes :=
            if Z.eqb counterValue 1 && hidden
            then {[node]} ∪ uncontrolledNodes lg
            else uncontrolledNodes lg;
          markerHeap := <[h := <[node := Int markerValue]> mc]> (markerHeap lg);
          markerMap := markerMap lg;
          lockCount := lockCount lg |} |}.

(** [if (!markerMap[markerName]) markerMap[markerName] = new WeakMap()]:
    the handle of the marker counter in use, and the world once it exists. *)
Definition markerHandle (lg : Ledger) : nat :=
  match markerMap lg with
  | Some h => h
  | None => length (markerHeap lg)
  end.

Definition withMarker (w : World) : World :=
  let lg := ledger w in
  {| ariaHidden := ariaHidden w; markerAttr := markerAttr w;
     ledger := {| counterMap := counterMap lg;
                  uncontrolledNodes := uncontrolledNodes lg;
                  markerHeap := match markerMap lg with
                                | Some _ => markerHeap lg
                                | None => markerHeap lg ++ [∅]
                                end;
                  markerMap := Some (markerHandle lg);
                  lockCount := lockCount lg |} |}.

(** [lockCount++] *)
Definition lock (w : World) : World :=
  let lg := ledger w in
  {| ariaHidden := ariaHidden w; markerAttr := markerAttr w;
     ledger := {| counterMap := counterMap lg;
                  uncontrolledNodes := uncontrolledNodes lg;
                  markerHeap := markerHeap lg; markerMap := markerMap lg;
                  lockCount := (lockCount lg + 1)%Z |} |}.

(** [hideOthers(targets, parentNode)] with the default marker name, where
    [doc] is the subtree under [parentNode]. *)
Definition hideOthers (w : World) (targets : list nat) (doc : Dom) : World * Release :=
  let h := markerHandle (ledger w) in
  let nodes := deep targets doc in
  (lock (foldl (hideNode h) (withMarker w) nodes),
   {| hiddenNodes := nodes; markerCounter := h |}).

(** The body of [hiddenNodes.forEach] in the release function. *)
Definition unhideNode (h : nat) (w : World) (node : nat) : World :=
  let lg := ledger w in
  let counterValue := decr (counterMap lg !! node) in
  let mc := default ∅ (markerHeap lg !! h) in
  let markerValue := decr (mc !! node) in
  {| ariaHidden :=
       if falsy counterValue && negb (bool_decide (node ∈ uncontrolledNodes lg))
       then delete node (ariaHidden w) else ariaHidden w;
     markerAttr := if falsy markerValue then delete node (markerAttr w) else markerAttr w;
     ledger :=
       {| counterMap := <[node := counterValue]> (counterMap lg);
          uncontrolledNodes :=
            if falsy counterValue then uncontrolledNodes lg ∖ {[node]}
            else uncontrolledNodes lg;
          markerHeap := <[h := <[node := markerValue]> mc]> (markerHeap lg);
          markerMap := markerMap lg;
          lockCount := lockCount lg |} |}.

(** The function returned by [hideOthers]. *)
Definition release (w : World) (r : Release) : World :=
  let w1 := foldl (unhideNode (markerCounter r)) w (hiddenNodes r) in
  let lg1 := ledger w1 in
  let n := (lockCount lg1 - 1)%Z in
  {| ariaHidden := ariaHidden w1; markerAttr := markerAttr w1;
     ledger :=
       if Z.eqb n 0 then
         {| counterMap := ∅; uncontrolledNodes := ∅; markerHeap := markerHeap lg1;
            markerMap := None; lockCount := n |}
       else
         {| counterMap := counterMap lg1; uncontrolledNodes := uncontrolledNodes lg1;
            markerHeap := markerHeap lg1; markerMap := markerMap lg1;
            lockCount := n |} |}.

(** [n] activations with the same targets, one after the other, and the
    release functions they return. *)
Fixpoint activate (n : nat) (w : World) (targets : list nat) (doc : Dom)
  : World * list Release :=
  match n with
  | O => (w, [])
  | S n' =>
      let '(w1, r) := hideOthers w targets doc in
      let '(w2, rs) := activate n' w1 targets doc in
      (w2, r :: rs)
  end.

Definition releaseAll (w : World) (rs : list Release) : World := foldl release w rs.

(** The ledger before any activation. *)
Definition freshLedger : Ledger :=
  {| counterMap := ∅; uncontrolledNodes := ∅; markerHeap := []; markerMap := None;
     lockCount := 0 |}.

(** The world after [n] activations from an empty ledger, and the release
    functions they returned. *)
Definition locked (n : nat) (aria marker : gmap nat string) (targets : list nat)
    (doc : Dom) : World * list Release :=
  activate n (mkWorld aria marker freshLedger) targets doc.

Definition roundTrip (n : nat) (aria marker : gmap nat string) (targets : list nat)
    (doc : Dom) : World :=
  releaseAll (fst (locked n aria marker targets doc))
             (snd (locked n aria marker targets doc)).

(** *** Specification vocabulary *)

(** What the code tracks about the [aria-hidden] state of one node: the
    attribute, the counter entry and membership in [uncontrolledNodes]. *)
Definition Local : Type := option string * option Num * bool.

Definition localOf (w : World) (x : nat) : Local :=
  (ariaHidden w !! x, counterMap (ledger w) !! x,
   bool_decide (x ∈ uncontrolledNodes (ledger w))).

Definition hideLocal (s : Local) : Local :=
  let '(attr, cnt, unc) := s in
  let hidden := alreadyHidden attr in
  (if hidden then attr else Some "true",
   Some (Int (bump cnt)),
   if Z.eqb (bump cnt) 1 && hidden then true else unc).

Definition unhideLocal (s : Local) : Local :=
  let '(attr, cnt, unc) := s in
  let v := decr cnt in
  (if falsy v && negb unc then None else attr,
   Some v,
   if falsy v then false else unc).

(** How many times [deep] lists node [x]. *)
Definition occurrences (x : nat) (l : list nat) : nat :=
  length (List.filter (Nat.eqb x) l).

(** A page body (0) holding a dialog (1, the target), a sidebar (2) and a
    footer (3) that has a child (4). *)
Definition page : Dom :=
  Node 0 [Node 1 []; Node 2 []; Node 3 [Node 4 []]].

End AriaHide.

(* ===================================================================== *)
(** ** The event bus ([createPubSub]) and the id generator ([genId]) *)
(* ===================================================================== *)

Module PubSub.

(** The [Map] from event name to the array of listeners.  A listener is a
    function, identified by a handle: [l !== listener] compares functions
    by identity. *)
Abbreviation Bus := (gmap string (list nat)).

(** [map.get(event) || []] *)
Definition listeners (map : Bus) (event : string) : list nat :=
  default [] (map !! event).

(** [emit(event, data)]: the calls it makes, in order. *)
Definition emit {D : Type} (map : Bus) (event : string) (data : D) : list (nat * D) :=
  List.map (fun handler => (handler, data)) (listeners map event).

(** [on(event, listener)] *)
Definition on (map : Bus) (event : string) (listener : nat) : Bus :=
  <[event := listeners map event ++ [listener]]> map.

(** [off(event, listener)] *)
Definition off (map : Bus) (event : string) (listener : nat) : Bus :=
  <[event := List.filter (fun l => negb (Nat.eqb l listener)) (listeners map event)]> map.

End PubSub.

Module Ids.

(** The module-level counter is a JavaScript number that starts at 0 and
    that only [count++] changes: its values are the integers up to [2^53],
    where it stays, since [2^53 + 1] rounds back to [2^53]. *)
Definition maxCount : N := 2 ^ 53.

(** [count++] on such a value. *)
Definition increment (count : N) : N :=
  if (count <? maxCount)%N then (count + 1)%N else count.

(** [genId]: the id built from the counter, and the counter after the
    call.  An integer of this range prints as its decimal numeral. *)
Definition genId (count : N) : string * N :=
  ("floating-ui-" +:+ pretty count, increment count).

(** The ids of [n] successive calls. *)
Fixpoint genIds (n : nat) (count : N) : list string :=
  match n with
  | O => []
  | S n' => fst (genId count) :: genIds n' (snd (genId count))
  end.

End Ids.

(* ===================================================================== *)
(** ** The focus manager ([FloatingFocusManager]) *)
(* ===================================================================== *)

Module FocusManager.

(** *** Returning focus after a dismissal *)

(** The two variables of the return-focus effect. *)
Record ReturnState := mkReturnState {
  returnFocusValue : bool;
  preventReturnFocusScroll : bool
}.

(** The state when the effect starts: [returnFocusValue = returnFocus]. *)
Definition initialReturn (returnFocus : bool) : ReturnState :=
  {| returnFocusValue := returnFocus; preventReturnFocusScroll := false |}.

(** The listener [onDismiss(allowReturnFocus = false)] on the ['dismiss']
    event: an object payload turns returning focus on and carries the
    scroll hint; [false] or no payload turns it off. *)
Definition onDismiss (payload : Dismiss.Payload) (st : ReturnState) : ReturnState :=
  match payload with
  | Dismiss.PreventScroll b =>
      {| returnFocusValue := true; preventReturnFocusScroll := b |}
  | Dismiss.PayloadFalse | Dismiss.PayloadUndefined =>
      {| returnFocusValue := false;
         preventReturnFocusScroll := preventReturnFocusScroll st |}
  end.

(** What the effect's cleanup does when the floating element unmounts:
    [Some preventScroll] when it focuses the previously focused element. *)
Definition cleanupFocus (previousIsHTMLElement : bool) (st : ReturnState) : option bool :=
  if returnFocusValue st && previousIsHTMLElement
  then Some (preventReturnFocusScroll st)
  else None.

(** The listener sees the payloads that the dismiss coordinator emits on
    the shared bus, in order. *)
Definition afterEffects (effs : list Dismiss.Effect) (st : ReturnState) : ReturnState :=
  foldl (fun st e => match e with
                     | Dismiss.Emit p => onDismiss p st
                     | Dismiss.OnOpenChange _ => st
                     end) st effs.

(** [root]: [tree?.nodesRef.current.find(node => node.id === nodeId)
    ?.parentId == null].  Without a tree, without a [nodeId] or when no node
    carries the id, the optional chain gives [undefined] and the instance
    counts as a root. *)
Definition root (i : Dismiss.Instance) : bool :=
  match Dismiss.tree i, Dismiss.nodeId i with
  | Some nodes, Some nodeId =>
      match Tree.find_node nodes nodeId with
      | Some node =>
          match Tree.parentId node with
          | Some _ => false
          | None => true
          end
      | None => true
      end
  | _, _ => true
  end.

(** The return-focus effect as a whole.  Its first statement is
    [if (preventTabbing && !root) return]: then nothing is subscribed and
    there is no cleanup.  Otherwise it starts from [initialReturn], its
    listener sees the ['dismiss'] events among [effs], and its cleanup is
    [cleanupFocus].  The result is [Some preventScroll] when the previously
    focused element is focused again. *)
Definition returnFocusEffect (preventTabbing returnFocus previousIsHTMLElement : bool)
    (i : Dismiss.Instance) (effs : list Dismiss.Effect) : option bool :=
  if preventTabbing && negb (root i) then None
  else cleanupFocus previousIsHTMLElement (afterEffects effs (initialReturn returnFocus)).

(** *** Closing on focus-out (non-modal mode) *)

(** A [focusout] event: the composed path of [relatedTarget] ([None] when
    focus leaves the document), and whether the listener that runs is the
    one on the reference element. *)
Record FocusOutEvent := mkFocusOutEvent {
  relatedTarget : option (list nat);
  currentTargetIsReference : bool
}.

(** [el?.contains(relatedTarget)] *)
Definition containsRelated (el : option nat) (related : option (list nat)) : bool :=
  match el, related with
  | Some e, Some path => existsb (Nat.eqb e) path
  | _, _ => false
  end.

(** [onFocusOut]; the instance is the one of the dismiss coordinator (same
    context), and [referenceIsElement] is [isElement(refs.domReference.current)]. *)
Definition onFocusOut (fuel : nat) (i : Dismiss.Instance) (referenceIsElement : bool)
    (event : FocusOutEvent) : option (list Dismiss.Effect) :=
  let focusMovedOutsideFloating :=
    negb (containsRelated (Dismiss.floatingEl i) (relatedTarget event)) in
  let focusMovedOutsideReference :=
    referenceIsElement
    && negb (containsRelated (Dismiss.referenceEl i) (relatedTarget event)) in
  match Dismiss.hasOpenChildren fuel i with
  | None => None
  | Some isChildOpen =>
      let isParentRelated :=
        match Dismiss.tree i with
        | None => Some false
        | Some nodes =>
            if currentTargetIsReference event then
              match Tree.getAncestors fuel nodes (Dismiss.nodeId i) with
              | None => None
              | Some ancestors =>
                  Some (existsb
                          (fun node =>
                             containsRelated
                               (match Tree.ctx node with
                                | Some c => Tree.floating c
                                | None => None
                                end)
                               (relatedTarget event))
                          ancestors)
              end
            else Some false
        end in
      match isParentRelated with
      | None => None
      | Some related =>
          if focusMovedOutsideFloating && focusMovedOutsideReference
             && negb isChildOpen && negb related
          then Some [Dismiss.OnOpenChange false]
          else Some []
      end
  end.

(** The submenu "b" of the menu tree, seen from its own instance. *)
Definition menuB : Dismiss.Instance :=
  {| Dismiss.open := true; Dismiss.floatingEl := Some 21%nat;
     Dismiss.referenceEl := Some 20%nat; Dismiss.nodeId := Some "b";
     Dismiss.tree := Some Dismiss.menuTree; Dismiss.nested := true;
     Dismiss.overflowAncestors := []; Dismiss.visualViewport := None |}.

End FocusManager.

(* ===================================================================== *)
(** ** Sessions of [hideOthers] calls with different targets *)
(* ===================================================================== *)

Module AriaSession.
Import AriaHide.

(** What the callers of [hideOthers] do over time: activate it for some
    targets under some parent, keeping the returned release function, or
    call one of the release functions not called yet ([Close k] calls the
    one at position [k] of the pending list; every release function is
    called at most once, as an effect cleanup is). *)
Inductive Op :=
| Open (targets : list nat) (doc : Dom)
| Close (k : nat).

Fixpoint remove_nth {A : Type} (k : nat) (l : list A) : list A :=
  match l, k with
  | [], _ => []
  | _ :: l', O => l'
  | a :: l', S k' => a :: remove_nth k' l'
  end.

Definition step (s : World * list Release) (op : Op) : World * list Release :=
  let '(w, pending) := s in
  match op with
  | Open targets doc =>
      let '(w', r) := hideOthers w targets doc in (w', pending ++ [r])
  | Close k =>
      match nth_error pending k with
      | Some r => (release w r, remove_nth k pending)
      | None => (w, pending)
      end
  end.

Definition exec (aria marker : gmap nat string) (ops : list Op) : World * list Release :=
  foldl step (mkWorld aria marker freshLedger, []) ops.

(** How many times the pending activations have hidden node [x]. *)
Fixpoint hiddenBy (pending : list Release) (x : nat) : nat :=
  match pending with
  | [] => O
  | r :: pending' => (occurrences x (hiddenNodes r) + hiddenBy pending' x)%nat
  end.

(** The state the code keeps for a node whose attribute was [a0] before
    any activation and that is hidden [c] times at present. *)
Definition localInv (a0 : option string) (c : nat) (s : Local) : Prop :=
  match c with
  | O => fst (fst s) = a0 /\ bump (snd (fst s)) = 1%Z /\ snd s = false
  | S k => s = (if alreadyHidden a0 then a0 else Some "true",
                Some (Int (Z.of_nat (S k))), alreadyHidden a0)
  end.

(** What a session keeps true of the module-level variables. *)
Definition ledgerInv (s : World * list Release) : Prop :=
  lockCount (ledger (fst s)) = Z.of_nat (length (snd s)) /\
  (snd s = [] ->
   counterMap (ledger (fst s)) = ∅ /\ uncontrolledNodes (ledger (fst s)) = ∅ /\
   markerMap (ledger (fst s)) = None).

(** ... and of a node [x] that did not start with [aria-hidden="false"]. *)
Definition sessionInv (a0 : option string) (x : nat) (s : World * list Release) : Prop :=
  ledgerInv s /\ localInv a0 (hiddenBy (snd s) x) (localOf (fst s) x).

(** The proper sub-nodes of a subtree, in document order. *)
Fixpoint subnodes (d : Dom) : list Dom :=
  match d with
  | Node _ cs => flat_map (fun c => c :: subnodes c) cs
  end.

(** Two dialogs (1 and 5) on a page: body 0 holds 1, 2, 3 (with child 4)
    and 5. *)
Definition twoDialogs : Dom :=
  Node 0 [Node 1 []; Node 2 []; Node 3 [Node 4 []]; Node 5 []].

End AriaSession.

(* ===================================================================== *)
(** ** Click and focus triggers ([useClick], [useFocus]) *)
(* ===================================================================== *)

Module Click.

(** The options of [useClick] with their defaults. *)
Record Options := mkOptions {
  enabled : bool;
  pointerDown : bool;
  toggle : bool;
  ignoreMouse : bool
}.

Definition defaults : Options :=
  {| enabled := true; pointerDown := false; toggle := true; ignoreMouse := false |}.

(** What a handler reads when it runs: the [open] flag of the render that
    created it, whether the reference is a [BUTTON] ([isButton()]) and
    whether it is a typeable element ([isSpaceIgnored()]). *)
Record Env := mkEnv {
  open : bool;
  isButton : bool;
  isSpaceIgnored : bool
}.

(** [pointerTypeRef.current] ([None] is [undefined]) and the [type] of
    [dataRef.current.openEvent] ([None] when no event is stored). *)
Record State := mkState {
  pointerTypeRef : option string;
  openEvent : option string
}.

Inductive Effect :=
| OnOpenChange (b : bool)
| PreventDefault.

Inductive Event :=
| PointerDown (pointerType : string)
| MouseDown (button : Z)
| MouseClick
| KeyDown (key : string)
| KeyUp (key : string).

(** [pointerTypeRef.current === 'mouse' && ignoreMouse] *)
Definition mouseIgnored (o : Options) (st : State) : bool :=
  match pointerTypeRef st with
  | Some s => String.eqb s "mouse" && ignoreMouse o
  | None => false
  end.

(** The open/close decision of [onMouseDown] and [onClick]; [type] is the
    type of the native event handled. *)
Definition pointerToggle (o : Options) (env : Env) (st : State) (type : string)
  : list Effect :=
  if open env then
    if toggle o && match openEvent st with
                   | Some t => String.eqb t type
                   | None => true
                   end
    then [OnOpenChange false] else []
  else [OnOpenChange true].

(** The open/close decision of the keyboard handlers. *)
Definition keyToggle (o : Options) (env : Env) : list Effect :=
  if open env then (if toggle o then [OnOpenChange false] else [])
  else [OnOpenChange true].

(** A non-empty string is truthy. *)
Definition truthyType (t : option string) : bool :=
  match t with
  | Some s => negb (String.eqb s EmptyString)
  | None => false
  end.

(** The reference handlers; a disabled hook returns no handler. *)
Definition handle (o : Options) (env : Env) (st : State) (ev : Event)
  : State * list Effect :=
  if negb (enabled o) then (st, [])
  else
    match ev with
    | PointerDown pointerType =>
        ({| pointerTypeRef := Some pointerType; openEvent := openEvent st |}, [])
    | MouseDown button =>
        if negb (Z.eqb button 0) then (st, [])
        else if mouseIgnored o st then (st, [])
        else if negb (pointerDown o) then (st, [])
        else ({| pointerTypeRef := pointerTypeRef st; openEvent := Some "mousedown" |},
              pointerToggle o env st "mousedown")
    | MouseClick =>
        if pointerDown o && truthyType (pointerTypeRef st)
        then ({| pointerTypeRef := None; openEvent := openEvent st |}, [])
        else if mouseIgnored o st then (st, [])
        else ({| pointerTypeRef := pointerTypeRef st; openEvent := Some "click" |},
              pointerToggle o env st "click")
    | KeyDown key =>
        let st' := {| pointerTypeRef := None; openEvent := openEvent st |} in
        if isButton env then (st', [])
        else (st',
              (if String.eqb key " " && negb (isSpaceIgnored env) then [PreventDefault]
               else [])
              ++ (if String.eqb key "Enter" then keyToggle o env else []))
    | KeyUp key =>
        if isButton env || isSpaceIgnored env then (st, [])
        else if String.eqb key " " then (st, keyToggle o env) else (st, [])
    end.

End Click.

Module Focus.

(** The options of [useFocus] with their defaults. *)
Record Options := mkOptions {
  enabled : bool;
  keyboardOnly : bool
}.

Definition defaults : Options := {| enabled := true; keyboardOnly := true |}.

(** The stored [dataRef.current.openEvent]: its type, and whether its
    target lies inside the reference element. *)
Record OpenEvent := mkOpenEvent {
  type : string;
  targetInReference : bool
}.

Record State := mkState {
  pointerTypeRef : string;
  blockFocusRef : bool;
  openEvent : option OpenEvent
}.

Inductive Effect := OnOpenChange (b : bool).

(** The events the hook listens to: the reference handlers, the window
    listeners ([WindowFocusTimer] is the timeout callback scheduled by the
    window focus listener) and the [dismiss] event of the tree. *)
Inductive Event :=
| PointerDown (pointerType : string)
| FocusIn (eventType : string) (nativeEvent : OpenEvent)
| Blur (relatedInFloating relatedInReference : bool)
| WindowBlur (referenceIsActive : bool)
| WindowFocusTimer
| Dismiss.

Definition handle (o : Options) (open : bool) (st : State) (ev : Event)
  : State * list Effect :=
  if negb (enabled o) then (st, [])
  else
    match ev with
    | PointerDown pointerType =>
        ({| pointerTypeRef := pointerType;
            blockFocusRef := negb (String.eqb pointerType EmptyString) && keyboardOnly o;
            openEvent := openEvent st |}, [])
    | FocusIn eventType nativeEvent =>
        if blockFocusRef st then (st, [])
        else if String.eqb eventType "focus"
                && match openEvent st with
                   | Some e => String.eqb (type e) "mousedown" && targetInReference e
                   | None => false
                   end
        then (st, [])
        else ({| pointerTypeRef := pointerTypeRef st; blockFocusRef := blockFocusRef st;
                 openEvent := Some nativeEvent |}, [OnOpenChange true])
    | Blur relatedInFloating relatedInReference =>
        if relatedInFloating || relatedInReference then (st, [])
        else ({| pointerTypeRef := pointerTypeRef st; blockFocusRef := false;
                 openEvent := openEvent st |}, [OnOpenChange false])
    | WindowBlur referenceIsActive =>
        if negb (String.eqb (pointerTypeRef st) EmptyString) && referenceIsActive
        then ({| pointerTypeRef := pointerTypeRef st; blockFocusRef := negb open;
                 openEvent := openEvent st |}, [])
        else (st, [])
    | WindowFocusTimer =>
        ({| pointerTypeRef := EmptyString; blockFocusRef := false;
            openEvent := openEvent st |}, [])
    | Dismiss =>
        ({| pointerTypeRef := pointerTypeRef st; blockFocusRef := true;
            openEvent := openEvent st |}, [])
    end.

(** The events that can lift the focus block. *)
Definition unblocks (ev : Event) : bool :=
  match ev with
  | PointerDown _ | Blur _ _ | WindowBlur _ | WindowFocusTimer => true
  | FocusIn _ _ | Dismiss => false
  end.

(** The effects of a sequence of events; [opens] gives the [open] flag of
    the render current at each event. *)
Fixpoint run (o : Options) (st : State) (evs : list (bool * Event)) : list Effect :=
  match evs with
  | [] => []
  | (open, ev) :: evs' =>
      snd (handle o open st ev) ++ run o (fst (handle o open st ev)) evs'
  end.

End Focus.

Module InnerOffset.
Local Open Scope Q_scope.

(** [overflowRef.current]: the overflow reported by the positioning
    middleware at the top and at the bottom. *)
Record Overflow := mkOverflow {
  top : Q;
  bottom : Q
}.

Record Element := mkElement {
  scrollHeight : Q;
  clientHeight : Q
}.

Record WheelEvent := mkWheelEvent {
  ctrlKey : bool;
  deltaY : Q
}.

(** [OnChange d] stands for [onChange(prev => prev + d)]; [ScrollBy d] for
    [el.scrollTop += d]. *)
Inductive Effect :=
| PreventDefault
| OnChange (delta : Q)
| ScrollBy (delta : Q).

Definition ltb (a b : Q) : bool := negb (Qle_bool b a).
Definition mathMin (a b : Q) : Q := if Qle_bool a b then a else b.
Definition mathMax (a b : Q) : Q := if Qle_bool a b then b else a.

(** The [wheel] listener of [useInnerOffset]. *)
Definition onWheel (firefox : bool) (el : option Element) (overflowRef : option Overflow)
    (e : WheelEvent) : list Effect :=
  match el, overflowRef with
  | Some el, Some overflow =>
      if ctrlKey e then []
      else
        let dY := deltaY e in
        let isAtTop := Qle_bool (-(1 # 2)) (top overflow) in
        let isAtBottom := Qle_bool (-(1 # 2)) (bottom overflow) in
        let remainingScroll := scrollHeight el - clientHeight el in
        if Qle_bool (scrollHeight el) (clientHeight el) then []
        else if negb isAtTop && ltb 0 dY || negb isAtBottom && ltb dY 0 then
          [PreventDefault;
           OnChange (if ltb dY 0 then mathMax dY (remainingScroll * (-1))
                     else mathMin dY (remainingScroll * 1))]
        else if firefox then [ScrollBy dY]
        else []
  | _, _ => []
  end.

End InnerOffset.

(* ===================================================================== *)
(** ** Where the exact geometry is the geometry of the source *)
(* ===================================================================== *)

Module PolygonRange.
Local Open Scope Q_scope.

(** The source computes in double precision.  On an edge that is vertical,
    [xj - xi] is 0, so [(xj - xi) * (y - yi) / (yj - yi) + xi] is [xi]
    exactly, provided [y - yi] and [yj - yi] do not overflow (an infinite
    factor would make the product [NaN]).  Ordinates of magnitude at most
    [2^1022] keep both differences finite. *)
Definition noOverflow (v : Q) : Prop :=
  - inject_Z (2 ^ 1022) <= v /\ v <= inject_Z (2 ^ 1022).

End PolygonRange.
(* ===================================================================== *)
(** * Properties *)
(* ===================================================================== *)

(* ===================================================================== *)
(** ** Properties of the floating node tree *)
(* ===================================================================== *)

Module TreeFacts.
Import Tree.

Lemma id_eqb_eq a b : id_eqb a b = true <-> a = b.
Proof.
  destruct a as [x|], b as [y|]; simpl; try (split; congruence).
  rewrite String.eqb_eq. split; congruence.
Qed.

Lemma child_of_spec q n :
  child_of q n = true <-> parentId n = q /\ is_open n = true.
Proof. unfold child_of. rewrite andb_true_iff, id_eqb_eq. tauto. Qed.

Lemma find_node_some nodes i n :
  find_node nodes i = Some n -> In n nodes /\ id n = i.
Proof.
  unfold find_node. intros H. apply find_some in H.
  destruct H as [Hin He]. apply String.eqb_eq in He. auto.
Qed.

Lemma find_node_none nodes i :
  find_node nodes i = None -> forall n, In n nodes -> id n <> i.
Proof.
  unfold find_node. intros H n Hin He.
  pose proof (find_none _ _ H n Hin) as Hf. simpl in Hf.
  apply String.eqb_neq in Hf. contradiction.
Qed.

(** With unique ids, [find] returns the only node carrying the id. *)
Lemma find_node_unique nodes n :
  List.NoDup (map id nodes) -> In n nodes -> find_node nodes (id n) = Some n.
Proof.
  unfold find_node. induction nodes as [|m nodes IH]; simpl; [tauto|].
  intros Hnd [->|Hin].
  - now rewrite String.eqb_refl.
  - inversion Hnd as [|? ? Hni Hnd']; subst.
    destruct (String.eqb (id m) (id n)) eqn:He.
    + apply String.eqb_eq in He. exfalso. apply Hni. rewrite He.
      now apply in_map.
    + auto.
Qed.

Lemma truthy_spec s : truthy s = true <-> s <> "".
Proof.
  unfold truthy. rewrite negb_true_iff. apply String.eqb_neq.
Qed.

(** *** The ancestor relation *)

Lemma ancestor_trans nodes a b c :
  ancestor nodes a b -> ancestor nodes b c -> ancestor nodes a c.
Proof.
  intros Hab Hbc. induction Hbc as [n b Hin Hp | n p b Hin Hp Hbp IH].
  - eapply anc_step; eauto.
  - eapply anc_step; eauto.
Qed.

Lemma ancestor_in_ids nodes a d : ancestor nodes a d -> In d (map id nodes).
Proof. intros H. destruct H; now apply in_map. Qed.

(** A rank that strictly decreases along parent links rules out cycles. *)
Lemma acyclic_of_rank nodes (rank : string -> nat) :
  (forall n p, In n nodes -> parentId n = Some p -> (rank p < rank (id n))%nat) ->
  acyclic nodes.
Proof.
  intros Hr.
  assert (Hlt : forall a d, ancestor nodes a d -> (rank a < rank d)%nat).
  { intros a d H. induction H as [n a Hin Hp | n p a Hin Hp _ IH].
    - eauto.
    - specialize (Hr n p Hin Hp). lia. }
  intros i Hi. apply Hlt in Hi. lia.
Qed.

Lemma open_descendant_ancestor nodes i n :
  open_descendant nodes (Some i) n -> ancestor nodes i (id n).
Proof.
  intros H. induction H as [n Hin Hp _ | m n _ IH Hin Hp _].
  - now apply anc_parent.
  - eapply anc_step; eauto.
Qed.

(** *** [getChildren]: what the loop collects *)

Lemma next_level_spec nodes cur n :
  In n (next_level nodes cur) <->
  In n nodes /\ exists m, In m cur /\ parentId n = Some (id m) /\ is_open n = true.
Proof.
  unfold next_level. rewrite filter_In, existsb_exists.
  split; intros [Hin [m [Hm Hc]]]; (split; [exact Hin|]); exists m; split; auto.
  - now apply child_of_spec.
  - now apply child_of_spec.
Qed.

Lemma below_nil nodes n : ~ below nodes [] n.
Proof. intros H. induction H; auto. Qed.

Lemma below_next nodes cur n :
  below nodes cur n <-> In n (next_level nodes cur) \/ below nodes (next_level nodes cur) n.
Proof.
  split.
  - intros H. induction H as [m n Hm Hin Hp Ho | m n _ IH Hin Hp Ho].
    + left. apply next_level_spec. eauto.
    + destruct IH as [IH|IH].
      * right. eapply below_child; eauto.
      * right. eapply below_step; eauto.
  - intros [H|H].
    + apply next_level_spec in H. destruct H as [Hin [m [Hm [Hp Ho]]]].
      eapply below_child; eauto.
    + induction H as [m n Hm Hin Hp Ho | m n _ IH Hin Hp Ho].
      * apply next_level_spec in Hm. destruct Hm as [Hmin [k [Hk [Hkp Hko]]]].
        apply (below_step nodes cur m n); auto.
        apply (below_child nodes cur k m); auto.
      * eapply below_step; eauto.
Qed.

Lemma children_loop_spec nodes fuel : forall cur acc r,
  children_loop fuel nodes cur acc = Some r ->
  forall n, In n r <-> In n acc \/ below nodes cur n.
Proof.
  induction fuel as [|fuel IH]; intros cur acc r H n.
  - destruct cur; simpl in H; [|discriminate]. inversion H; subst.
    split; [auto|]. intros [?|Hb]; [auto|]. now apply below_nil in Hb.
  - destruct cur as [|c cur].
    + simpl in H. inversion H; subst.
      split; [auto|]. intros [?|Hb]; [auto|]. now apply below_nil in Hb.
    + simpl in H. fold (next_level nodes (c :: cur)) in H.
      rewrite (IH _ _ _ H n), in_app_iff, (below_next nodes (c :: cur) n). tauto.
Qed.

Lemma open_descendant_below nodes q n :
  open_descendant nodes q n <->
  In n (List.filter (child_of q) nodes) \/ below nodes (List.filter (child_of q) nodes) n.
Proof.
  split.
  - intros H. induction H as [n Hin Hp Ho | m n _ IH Hin Hp Ho].
    + left. apply filter_In. split; [auto|]. now apply child_of_spec.
    + right. destruct IH as [IH|IH].
      * eapply below_child; eauto.
      * eapply below_step; eauto.
  - intros [H|H].
    + apply filter_In in H. destruct H as [Hin Hc]. apply child_of_spec in Hc.
      destruct Hc. now apply od_child.
    + induction H as [m n Hm Hin Hp Ho | m n _ IH Hin Hp Ho].
      * apply filter_In in Hm. destruct Hm as [Hmin Hc]. apply child_of_spec in Hc.
        destruct Hc. apply (od_step nodes q m n); auto.
        apply od_child; auto.
      * eapply od_step; eauto.
Qed.

Lemma getChildren_spec nodes fuel q r :
  getChildren fuel nodes q = Some r ->
  forall n, In n r <-> open_descendant nodes q n.
Proof.
  unfold getChildren. intros H n.
  rewrite (children_loop_spec _ _ _ _ _ H n), open_descendant_below. tauto.
Qed.

(** *** Termination under acyclicity *)

Lemma has_path_bound nodes k n : has_path nodes k n -> (S k <= length nodes)%nat.
Proof.
  intros (path & Hlen & Hnd & Hincl & _).
  rewrite <- Hlen, <- (length_map id nodes).
  now apply List.NoDup_incl_length.
Qed.

Lemma has_path_zero nodes n : In n nodes -> has_path nodes 0 n.
Proof.
  intros Hin. exists [id n]. repeat split.
  - constructor; [simpl; tauto | constructor].
  - intros p [<-|[]]. now apply in_map.
  - intros p [<-|[]]. now left.
Qed.

Section Acyclic.

(** The facts of this section hold for a node list without cycles. *)
Variable nodes : list FloatingNode.
Hypothesis Hac : acyclic nodes.

Lemma has_path_next k cur :
  (forall m, In m cur -> has_path nodes k m) ->
  forall n, In n (next_level nodes cur) -> has_path nodes (S k) n.
Proof.
  intros Hcur n Hn.
  apply next_level_spec in Hn. destruct Hn as (Hin & m & Hm & Hp & _).
  destruct (Hcur m Hm) as (path & Hlen & Hnd & Hincl & Hanc).
  assert (Hmn : ancestor nodes (id m) (id n)) by now apply anc_parent.
  exists (id n :: path). repeat split.
  - simpl. now rewrite Hlen.
  - constructor; [|exact Hnd]. intros Hc.
    destruct (Hanc _ Hc) as [He|Ha].
    + apply (Hac (id n)). now rewrite He at 1.
    + apply (Hac (id n)). eapply ancestor_trans; eauto.
  - intros p [<-|Hp']; [now apply in_map | now apply Hincl].
  - intros p [<-|Hp']; [now left|]. right.
    destruct (Hanc _ Hp') as [->|Ha]; [exact Hmn|].
    eapply ancestor_trans; eauto.
Qed.

Lemma children_loop_step fuel c cur acc :
  children_loop (S fuel) nodes (c :: cur) acc =
  children_loop fuel nodes (next_level nodes (c :: cur))
    (acc ++ next_level nodes (c :: cur)).
Proof. reflexivity. Qed.

Lemma children_loop_total :
  forall fuel k cur acc,
    (forall m, In m cur -> has_path nodes k m) ->
    (length nodes <= k + fuel)%nat ->
    exists r, children_loop fuel nodes cur acc = Some r.
Proof.
  intros fuel. induction fuel as [|fuel IH]; intros k cur acc Hcur Hlen.
  - destruct cur as [|c cur]; [simpl; eauto|].
    pose proof (has_path_bound _ _ _ (Hcur c (or_introl eq_refl))). lia.
  - destruct cur as [|c cur]; [simpl; eauto|].
    rewrite children_loop_step.
    apply (IH (S k)); [|lia].
    now apply has_path_next.
Qed.

(** [getChildren] needs at most one round per registered node. *)
Lemma getChildren_total q :
  exists r, getChildren (length nodes) nodes q = Some r.
Proof.
  unfold getChildren.
  apply (children_loop_total (length nodes) 0); [|lia].
  intros m Hm. apply filter_In in Hm. apply has_path_zero. tauto.
Qed.

Lemma children_loop_fuel_mono fuel : forall fuel' cur acc r,
  (fuel <= fuel')%nat ->
  children_loop fuel nodes cur acc = Some r ->
  children_loop fuel' nodes cur acc = Some r.
Proof.
  induction fuel as [|fuel IH]; intros fuel' cur acc r Hle H.
  - destruct cur; simpl in H; [|discriminate]. destruct fuel'; exact H.
  - destruct cur as [|c cur].
    + destruct fuel'; exact H.
    + destruct fuel' as [|fuel']; [lia|]. rewrite children_loop_step in *.
      apply IH; [lia | exact H].
Qed.

Lemma ancestors_loop_none fuel acc :
  ancestors_loop fuel nodes None acc = Some acc.
Proof. destruct fuel; reflexivity. Qed.

Lemma ancestors_loop_total :
  forall fuel visited cp acc,
    List.NoDup visited ->
    incl visited (map id nodes) ->
    (forall v p, In v visited -> cp = Some p -> ancestor nodes p v) ->
    (length nodes < length visited + fuel)%nat ->
    exists r, ancestors_loop fuel nodes cp acc = Some r.
Proof.
  intros fuel. induction fuel as [|fuel IH]; intros visited cp acc Hnd Hincl Hanc Hlen.
  - pose proof (List.NoDup_incl_length Hnd Hincl) as Hb.
    rewrite length_map in Hb. lia.
  - destruct cp as [p|]; [|simpl; eauto].
    simpl. destruct (truthy p); [|eauto].
    destruct (find_node nodes p) as [cn|] eqn:Hf.
    + apply find_node_some in Hf. destruct Hf as [Hin Hid].
      apply (IH (p :: visited)).
      * constructor; [|exact Hnd]. intros Hc.
        apply (Hac p). now apply (Hanc p p).
      * intros v [<-|Hv]; [rewrite <- Hid; now apply in_map | now apply Hincl].
      * intros v q [<-|Hv] Hq.
        -- rewrite <- Hid. now apply anc_parent.
        -- eapply ancestor_trans; [|apply (Hanc v p Hv eq_refl)].
           rewrite <- Hid. now apply anc_parent.
      * simpl. lia.
    + rewrite ancestors_loop_none. eauto.
Qed.

(** [getAncestors] needs at most one round per registered node, plus the
    final test. *)
Lemma getAncestors_total q :
  exists r, getAncestors (S (length nodes)) nodes q = Some r.
Proof.
  unfold getAncestors.
  apply (ancestors_loop_total _ []).
  - constructor.
  - intros v [].
  - intros v p [].
  - simpl. lia.
Qed.

End Acyclic.

(** On the two-node cycle neither loop ever finishes. *)
Lemma children_loop_cycle2 fuel : forall acc,
  children_loop fuel cycle2 [cycA] acc = None /\
  children_loop fuel cycle2 [cycB] acc = None.
Proof.
  induction fuel as [|fuel IH]; intros acc; [split; reflexivity|].
  split.
  - change (children_loop (S fuel) cycle2 [cycA] acc)
      with (children_loop fuel cycle2 [cycB] (acc ++ [cycB])).
    apply IH.
  - change (children_loop (S fuel) cycle2 [cycB] acc)
      with (children_loop fuel cycle2 [cycA] (acc ++ [cycA])).
    apply IH.
Qed.

Lemma getChildren_cycle2 fuel : getChildren fuel cycle2 (Some "a") = None.
Proof. apply (children_loop_cycle2 fuel [cycB]). Qed.

Lemma ancestors_loop_cycle2 fuel : forall acc,
  ancestors_loop fuel cycle2 (Some "a") acc = None /\
  ancestors_loop fuel cycle2 (Some "b") acc = None.
Proof.
  induction fuel as [|fuel IH]; intros acc; [split; reflexivity|].
  split.
  - change (ancestors_loop (S fuel) cycle2 (Some "a") acc)
      with (ancestors_loop fuel cycle2 (Some "b")
              (acc ++ [cycA])).
    apply IH.
  - change (ancestors_loop (S fuel) cycle2 (Some "b") acc)
      with (ancestors_loop fuel cycle2 (Some "a")
              (acc ++ [cycB])).
    apply IH.
Qed.

Lemma getAncestors_cycle2 fuel : getAncestors fuel cycle2 (Some "a") = None.
Proof. apply (ancestors_loop_cycle2 fuel []). Qed.
(** *** [getAncestors]: the chain it returns *)

Lemma ancestors_loop_chain nodes :
  (forall n, In n nodes -> id n <> "") ->
  forall fuel cp acc r,
    ancestors_loop fuel nodes cp acc = Some r ->
    exists l, r = acc ++ l /\ up_chain nodes cp l.
Proof.
  intros Hne fuel. induction fuel as [|fuel IH]; intros cp acc r H.
  - destruct cp as [p|]; simpl in H.
    + destruct (truthy p) eqn:Ht; [discriminate|].
      inversion H; subst. exists []. split; [now rewrite app_nil_r|].
      apply up_missing. intros n Hin He.
      assert (p = "") as ->.
      { unfold truthy in Ht. apply negb_false_iff in Ht. now apply String.eqb_eq. }
      now apply (Hne n).
    + inversion H; subst. exists []. split; [now rewrite app_nil_r | constructor].
  - destruct cp as [p|]; simpl in H.
    + destruct (truthy p) eqn:Ht.
      * destruct (find_node nodes p) as [cn|] eqn:Hf.
        -- apply IH in H. destruct H as (l & -> & Hl).
           apply find_node_some in Hf. destruct Hf as [Hin Hid].
           exists (cn :: l). split; [now rewrite <- app_assoc|].
           now apply up_node.
        -- rewrite ancestors_loop_none in H. inversion H; subst.
           exists []. split; [now rewrite app_nil_r|].
           apply up_missing. now apply find_node_none.
      * inversion H; subst. exists []. split; [now rewrite app_nil_r|].
        apply up_missing. intros n Hin He.
        assert (p = "") as ->.
        { unfold truthy in Ht. apply negb_false_iff in Ht. now apply String.eqb_eq. }
        now apply (Hne n).
    + inversion H; subst. exists []. split; [now rewrite app_nil_r | constructor].
Qed.

Lemma node_unique nodes n n' :
  List.NoDup (map id nodes) -> In n nodes -> In n' nodes -> id n = id n' -> n = n'.
Proof.
  intros Hnd Hn Hn' He.
  pose proof (find_node_unique nodes n Hnd Hn) as H1.
  pose proof (find_node_unique nodes n' Hnd Hn') as H2.
  rewrite He in H1. congruence.
Qed.

Lemma up_chain_parent_chain nodes :
  List.NoDup (map id nodes) ->
  forall cp l, up_chain nodes cp l ->
  forall n, In n nodes -> parentId n = cp -> parent_chain nodes (id n) l.
Proof.
  intros Hnd cp l H.
  induction H as [| p Hmiss | p cn l Hcn Hid _ IH]; intros n Hin Hp.
  - apply pc_root. intros p (n' & Hn' & He & Hpp & _).
    assert (n' = n) by (eapply node_unique; eauto). subst. congruence.
  - apply pc_root. intros q (n' & Hn' & He & Hpp & Hq).
    assert (n' = n) by (eapply node_unique; eauto). subst.
    rewrite Hp in Hpp. inversion Hpp; subst. now apply (Hmiss q).
  - apply pc_up.
    + exists n. subst p. auto.
    + now apply IH.
Qed.

Lemma up_chain_ancestors nodes cp l :
  up_chain nodes cp l ->
  forall d, (forall p, cp = Some p -> ancestor nodes p d) ->
  forall m, In m l -> ancestor nodes (id m) d.
Proof.
  intros H. induction H as [| p Hmiss | p cn l Hcn Hid _ IH]; intros d Hd m Hm.
  - destruct Hm.
  - destruct Hm.
  - destruct Hm as [<-|Hm].
    + rewrite Hid. now apply Hd.
    + apply (IH d); [|exact Hm]. intros q Hq.
      eapply ancestor_trans; [|apply (Hd p eq_refl)].
      rewrite <- Hid. now apply anc_parent.
Qed.

Lemma getAncestors_spec nodes fuel i r :
  forest nodes ->
  getAncestors fuel nodes (Some i) = Some r ->
  parent_chain nodes i r /\ forall m, In m r -> id m <> i.
Proof.
  intros [Hnd Hne Hac]. unfold getAncestors.
  destruct (find_node nodes i) as [n|] eqn:Hf.
  - intros H. apply (ancestors_loop_chain nodes Hne) in H.
    destruct H as (l & -> & Hl). simpl.
    apply find_node_some in Hf. destruct Hf as [Hin <-].
    split.
    + eapply up_chain_parent_chain; eauto.
    + intros m Hm He. apply (Hac (id n)).
      rewrite <- He at 1. eapply up_chain_ancestors; eauto.
      intros p Hp. now apply anc_parent.
  - rewrite ancestors_loop_none. intros H. inversion H; subst. split.
    + apply pc_root. intros p (n & Hn & He & _).
      now apply (find_node_none nodes i Hf n).
    + intros m [].
Qed.

Lemma getChildren_not_self nodes fuel i r :
  acyclic nodes ->
  getChildren fuel nodes (Some i) = Some r ->
  forall n, In n r -> id n <> i.
Proof.
  intros Hac H n Hn He. apply (Hac i).
  rewrite <- He at 2. apply open_descendant_ancestor.
  now apply (getChildren_spec nodes fuel (Some i) r H).
Qed.

Lemma chain4_acyclic : acyclic chain4.
Proof.
  apply (acyclic_of_rank chain4 chain4_rank).
  intros n p Hin Hp. simpl in Hin.
  repeat (destruct Hin as [<-|Hin];
          [simpl in Hp; try discriminate; inversion Hp; subst; vm_compute; lia |]).
  contradiction.
Qed.
Lemma chain4_forest : forest chain4.
Proof.
  constructor.
  - simpl. repeat constructor; simpl; intuition discriminate.
  - intros n Hin. simpl in Hin.
    repeat (destruct Hin as [<-|Hin]; [simpl; discriminate|]). contradiction.
  - exact chain4_acyclic.
Qed.

Lemma cycle2_cyclic : ~ acyclic cycle2.
Proof.
  intros H. apply (H "a").
  apply (anc_step cycle2 cycA "b" "a"); [simpl; auto | reflexivity |].
  apply (anc_parent cycle2 cycB "a"); [simpl; auto | reflexivity].
Qed.

(** Three levels below the root are all collected, nearest level first. *)
Example getChildren_chain4 :
  getChildren 4 chain4 (Some "a") =
  Some [ mkNode "b" (Some "a") (Some (mkContext true (Some 2%nat)));
         mkNode "c" (Some "b") (Some (mkContext true (Some 3%nat)));
         mkNode "d" (Some "c") (Some (mkContext true (Some 4%nat))) ].
Proof. reflexivity. Qed.

(** Three levels above the leaf are all collected, nearest parent first. *)
Example getAncestors_chain4 :
  getAncestors 5 chain4 (Some "d") =
  Some [ mkNode "c" (Some "b") (Some (mkContext true (Some 3%nat)));
         mkNode "b" (Some "a") (Some (mkContext true (Some 2%nat)));
         mkNode "a" None (Some (mkContext true (Some 1%nat))) ].
Proof. reflexivity. Qed.

(** A closed node hides its whole subtree from [getChildren]. *)
Example getChildren_closed_link :
  getChildren 4
    [ mkNode "a" None (Some (mkContext true None));
      mkNode "b" (Some "a") (Some (mkContext false None));
      mkNode "c" (Some "b") (Some (mkContext true None)) ] (Some "a") = Some [].
Proof. reflexivity. Qed.

(** Why [forest] asks for non-empty ids: the loop of [getAncestors] tests the
    parent id by truthiness, so a parent whose id is the empty string is
    not visited. *)
Example getAncestors_stops_at_empty_id :
  getAncestors 3 emptyIdTree (Some "a") = Some [].
Proof. reflexivity. Qed.

(** The parent chain of an id is unique when ids identify nodes. *)
Lemma parent_chain_functional nodes :
  List.NoDup (map id nodes) ->
  forall i l1, parent_chain nodes i l1 ->
  forall l2, parent_chain nodes i l2 -> l1 = l2.
Proof.
  intros Hnd i l1 H1.
  induction H1 as [i Hno | i p l Hp _ IH]; intros l2 H2.
  - inversion H2 as [|? p' ? Hp' ?]; subst; [reflexivity|].
    now apply Hno in Hp'.
  - inversion H2 as [? Hno|? p' l' Hp' Hc']; subst.
    + now apply Hno in Hp.
    + assert (p = p').
      { destruct Hp as (n & Hn & He & Hpar & Hin).
        destruct Hp' as (n' & Hn' & He' & Hpar' & Hin').
        assert (n = n') by (eapply node_unique; eauto; congruence). subst n'.
        eapply node_unique; eauto. congruence. }
      subst p'. f_equal. now apply IH.
Qed.

(** C3: on a forest of registered nodes (unique non-empty ids, no node its own
    ancestor), [getChildren nodes q] returns exactly the nodes that descend
    from [q] through a chain of nodes whose context reports [open], and
    [getAncestors nodes i] returns exactly the chain of parent nodes of [i]
    up to the root; neither result contains the queried node.  Both hold for
    chains of any depth. *)
Theorem tree_queries_closure (nodes : list FloatingNode) (q : option string) (i : string) :
  forest nodes ->
  (exists r, getChildren (length nodes) nodes q = Some r /\
     (forall n, In n r <-> open_descendant nodes q n) /\
     (forall n, In n r -> Some (id n) <> q)) /\
  (exists r, getAncestors (S (length nodes)) nodes (Some i) = Some r /\
     parent_chain nodes i r /\
     (forall l, parent_chain nodes i l -> l = r) /\
     (forall m, In m r -> id m <> i)).
Proof.
  intros Hf. pose proof Hf as [Hnd Hne Hac]. split.
  - destruct (getChildren_total nodes Hac q) as [r Hr].
    exists r. split; [exact Hr|]. split.
    + now apply (getChildren_spec nodes (length nodes) q r).
    + intros n Hn He. destruct q as [j|]; [|discriminate].
      inversion He; subst j.
      now apply (getChildren_not_self nodes (length nodes) (id n) r Hac Hr n).
  - destruct (getAncestors_total nodes Hac (Some i)) as [r Hr].
    exists r. split; [exact Hr|].
    destruct (getAncestors_spec nodes _ i r Hf Hr) as [Hc Hs].
    split; [exact Hc|]. split; [|exact Hs].
    intros l Hl. now apply (parent_chain_functional nodes Hnd i l Hl r).
Qed.

Lemma tree_queries_closure_witness :
  forest chain4 /\
  (exists r, getChildren (length chain4) chain4 (Some "a") = Some r /\
     (forall n, In n r <-> open_descendant chain4 (Some "a") n) /\
     (forall n, In n r -> Some (id n) <> Some "a")) /\
  (exists r, getAncestors (S (length chain4)) chain4 (Some "d") = Some r /\
     parent_chain chain4 "d" r /\
     (forall l, parent_chain chain4 "d" l -> l = r) /\
     (forall m, In m r -> id m <> "d")).
Proof.
  split; [exact chain4_forest|].
  apply (tree_queries_closure chain4 (Some "a") "d"). exact chain4_forest.
Defined.

(** C10: [getChildren] and [getAncestors] terminate on every node list in
    which no node is its own transitive ancestor (a number of rounds bounded
    by the list length suffices); the precondition matters, since on a
    two-node cycle neither loop finishes whatever the number of rounds. *)
Theorem tree_queries_terminate (nodes : list FloatingNode) (q : option string) :
  acyclic nodes ->
  (exists r, getChildren (length nodes) nodes q = Some r) /\
  (exists r, getAncestors (S (length nodes)) nodes q = Some r) /\
  (~ acyclic cycle2 /\
   forall fuel,
     getChildren fuel cycle2 (Some "a") = None /\
     getAncestors fuel cycle2 (Some "a") = None).
Proof.
  intros Hac. split; [now apply getChildren_total|].
  split; [now apply getAncestors_total|].
  split; [exact cycle2_cyclic|].
  intros fuel. split; [apply getChildren_cycle2 | apply getAncestors_cycle2].
Qed.

Lemma tree_queries_terminate_witness :
  acyclic chain4 /\
  (exists r, getChildren (length chain4) chain4 (Some "a") = Some r) /\
  (exists r, getAncestors (S (length chain4)) chain4 (Some "a") = Some r) /\
  (~ acyclic cycle2 /\
   forall fuel,
     getChildren fuel cycle2 (Some "a") = None /\
     getAncestors fuel cycle2 (Some "a") = None).
Proof.
  split; [exact chain4_acyclic|].
  apply (tree_queries_terminate chain4 (Some "a")). exact chain4_acyclic.
Defined.

End TreeFacts.

(* ===================================================================== *)
(** ** Properties of the dismiss coordinator *)
(* ===================================================================== *)

Module DismissFacts.
Import Dismiss.

Lemma hasOpenChildren_cons fuel i nodes c cs :
  tree i = Some nodes ->
  Tree.getChildrenOf fuel nodes (nodeId i) = Some (c :: cs) ->
  hasOpenChildren fuel i = Some true.
Proof. intros Ht Hc. unfold hasOpenChildren. now rewrite Ht, Hc. Qed.

Lemma isEventTargetWithin_spec path el :
  isEventTargetWithin path (Some el) = true <-> In el path.
Proof.
  simpl. rewrite existsb_exists. split.
  - intros (x & Hx & He). apply Nat.eqb_eq in He. now subst.
  - intros H. exists el. split; [exact H | apply Nat.eqb_refl].
Qed.

(** A pointer-down outside every element closes the menu when [bubbles] is
    set, and a nested instance asks not to scroll. *)
Example outside_pointer_down_closes :
  deliver 2 defaults menuA (PointerDown [50%nat]) =
    Some [Emit PayloadFalse; OnOpenChange false] /\
  deliver 2 defaults menuA (PointerDown [11%nat]) = Some [] /\
  deliver 2 defaults
    (mkInstance true (Some 21%nat) (Some 20%nat) (Some "b") (Some menuTree) true [] None)
    (PointerDown [50%nat]) =
    Some [Emit (PreventScroll true); OnOpenChange false].
Proof. repeat split. Qed.

(** C1 as stated fails: with the default options ([bubbles = true]) the
    Escape key closes menu "a" although its submenu "b" is open; an ancestor
    scroll closes it for either value of [bubbles]; and with
    [bubbles = false] the Escape key and an outside pointer-down close menu
    "a" of [deepTree] although its descendant "c" reports open, because "b"
    in between is closed and [getChildren] reports nothing.  Besides, the
    [reference.onPointerDown] prop closes on a press on the reference when
    [referencePointerDown] is set, open submenu or not. *)
Lemma nested_dismiss_counterexample :
  Tree.getChildren 2 menuTree (Some "a") =
    Some [Tree.mkNode "b" (Some "a") (Some (Tree.mkContext true (Some 21%nat)))] /\
  deliver 2 defaults menuA (KeyDown "Escape") =
    Some [Emit (PreventScroll false); OnOpenChange false] /\
  deliver 2 (mkOptions true true true false true false) menuA (Scroll 99) =
    Some [OnOpenChange false] /\
  deliver 2 (mkOptions true true true false true true) menuA (Scroll 99) =
    Some [OnOpenChange false] /\
  Tree.is_open (Tree.mkNode "c" (Some "b") (Some (Tree.mkContext true (Some 31%nat)))) = true /\
  Tree.getChildren 3 deepTree (Some "a") = Some [] /\
  deliver 3 (mkOptions true true true false false false) deepA (KeyDown "Escape") =
    Some [Emit (PreventScroll false); OnOpenChange false] /\
  deliver 3 (mkOptions true true true false false false) deepA (PointerDown [50%nat]) =
    Some [Emit PayloadFalse; OnOpenChange false] /\
  pointerDownEvent 2 (mkOptions true true true true false false) menuA [10%nat] =
    Some ([Emit PayloadUndefined; OnOpenChange false], []).
Proof. repeat split. Qed.

(** C1, amended: while [getChildren] reports at least one open descendant,
    the document listeners of an instance with [bubbles = false] handle
    every key-down and every pointer-down without calling [onOpenChange],
    and a pointer-down has no effect at all unless [referencePointerDown]
    is set and the press passes through the reference element; and
    whatever [bubbles] is, the document listener ignores a pointer-down
    inside the floating element of one of those descendants. *)
Theorem dismiss_swallowed_while_child_open
    (fuel : nat) (o : Options) (i : Instance)
    (nodes : list Tree.FloatingNode) (c : Tree.FloatingNode) (cs : list Tree.FloatingNode) :
  tree i = Some nodes ->
  Tree.getChildrenOf fuel nodes (nodeId i) = Some (c :: cs) ->
  (bubbles o = false ->
     (forall key, deliver fuel o i (KeyDown key) = Some []) /\
     (forall path, deliver fuel o i (PointerDown path) = Some []) /\
     (forall path,
        referencePointerDown o = false \/
        isEventTargetWithin path (referenceEl i) = false ->
        pointerDownEvent fuel o i path = Some ([], []))) /\
  (forall path n cx el,
     In n (c :: cs) -> Tree.ctx n = Some cx -> Tree.floating cx = Some el ->
     In el path ->
     deliver fuel o i (PointerDown path) = Some []).
Proof.
  intros Ht Hc.
  pose proof (hasOpenChildren_cons fuel i nodes c cs Ht Hc) as Ho.
  split.
  - intros Hb.
    assert (Hp : forall path, deliver fuel o i (PointerDown path) = Some []).
    { intros path. unfold deliver, onPointerDown, targetIsInsideChildren.
      rewrite Ht, Hc, Hb, Ho. simpl negb.
      destruct (negb (open i) || negb (enabled o)); [reflexivity|].
      destruct (outsidePointerDown o); [|reflexivity].
      match goal with |- (if ?b then _ else _) = _ => destruct b; reflexivity end. }
    split; [|split; [exact Hp|]].
    + intros key. unfold deliver, onKeyDown.
      rewrite Hb, Ho. simpl.
      destruct (negb (open i) || negb (enabled o)); [reflexivity|].
      destruct (escapeKey o); [|reflexivity].
      destruct (String.eqb key "Escape"); reflexivity.
    + intros path Hr. unfold pointerDownEvent. rewrite Hp.
      unfold referenceOnPointerDown.
      destruct Hr as [Hr | Hr]; rewrite Hr.
      * destruct (enabled o && isEventTargetWithin path (referenceEl i)); reflexivity.
      * rewrite andb_false_r. reflexivity.
  - intros path n cx el Hn Hcx Hfl Hel.
    unfold deliver, onPointerDown, targetIsInsideChildren.
    rewrite Ht, Hc.
    destruct (negb (open i) || negb (enabled o)); [reflexivity|].
    destruct (outsidePointerDown o); [|reflexivity].
    match goal with
    | |- (if _ || _ || ?b then _ else _) = _ => assert (Hin : b = true)
    end.
    { apply existsb_exists. exists n. split; [exact Hn|].
      rewrite Hcx, Hfl. now apply isEventTargetWithin_spec. }
    rewrite Hin, !orb_true_r. reflexivity.
Qed.

Lemma dismiss_swallowed_while_child_open_witness :
  tree menuA = Some menuTree /\
  Tree.getChildrenOf 2 menuTree (nodeId menuA) =
    Some [Tree.mkNode "b" (Some "a") (Some (Tree.mkContext true (Some 21%nat)))] /\
  deliver 2 (mkOptions true true true false true false) menuA (KeyDown "Escape") = Some [] /\
  deliver 2 (mkOptions true true true false true false) menuA (PointerDown [50%nat]) = Some [] /\
  pointerDownEvent 2 (mkOptions true true true false true false) menuA [10%nat] =
    Some ([], []) /\
  deliver 2 defaults menuA (PointerDown [22%nat; 21%nat]) = Some [].
Proof.
  split; [reflexivity|]. split; [reflexivity|].
  pose proof (dismiss_swallowed_while_child_open 2
                (mkOptions true true true false true false) menuA menuTree
                (Tree.mkNode "b" (Some "a") (Some (Tree.mkContext true (Some 21%nat)))) []
                eq_refl eq_refl) as [Hb _].
  pose proof (dismiss_swallowed_while_child_open 2 defaults menuA menuTree
                (Tree.mkNode "b" (Some "a") (Some (Tree.mkContext true (Some 21%nat)))) []
                eq_refl eq_refl) as [_ Hin].
  destruct (Hb eq_refl) as (Hk & Hp & Hr).
  split; [apply Hk|]. split; [apply Hp|].
  split; [apply Hr; left; reflexivity|].
  apply (Hin [22%nat; 21%nat]
           (Tree.mkNode "b" (Some "a") (Some (Tree.mkContext true (Some 21%nat))))
           (Tree.mkContext true (Some 21%nat)) 21%nat);
    simpl; auto.
Defined.

End DismissFacts.

(* ===================================================================== *)
(** ** Properties of the merge engine *)
(* ===================================================================== *)

Module MergeFacts.
Import Merge.

(** One entry changes only its own key. *)
Lemma step_other st k v k' :
  k <> k' ->
  (step st (k, v)).1 !! k' = st.1 !! k' /\ (step st (k, v)).2 !! k' = st.2 !! k'.
Proof.
  intros Hne. destruct st as [acc m]. unfold step.
  destruct (is_handler_key k); simpl.
  - split; [now rewrite lookup_insert_ne|].
    destruct (m !! k) eqn:Hm; destruct v; simpl;
      rewrite ?lookup_insert_ne by done; reflexivity.
  - split; [now rewrite lookup_insert_ne | reflexivity].
Qed.

Lemma step_same st k v :
  (step st (k, v)).1 !! k = upd_acc k (Some v) (st.1 !! k) /\
  (step st (k, v)).2 !! k = upd_map k (Some v) (st.2 !! k).
Proof.
  destruct st as [acc m]. unfold step, upd_acc, upd_map.
  destruct (is_handler_key k); simpl.
  - split; [now rewrite lookup_insert_eq|].
    destruct (m !! k) as [l|] eqn:Hm; destruct v as [f|d]; simpl.
    + rewrite lookup_insert_eq, Hm. reflexivity.
    + rewrite Hm, app_nil_r. reflexivity.
    + rewrite !lookup_insert_eq. reflexivity.
    + rewrite lookup_insert_eq. reflexivity.
  - split; [now rewrite lookup_insert_eq | reflexivity].
Qed.

(** The entries of one object, whose keys are distinct, act key by key. *)
Lemma foldl_step_lookup (l : list (string * Value)) :
  NoDup l.*1 ->
  forall st k,
    (foldl step st l).1 !! k =
      upd_acc k ((list_to_map l : gmap string Value) !! k) (st.1 !! k) /\
    (foldl step st l).2 !! k =
      upd_map k ((list_to_map l : gmap string Value) !! k) (st.2 !! k).
Proof.
  induction l as [|[k0 v0] l IH]; intros Hnd st k.
  - simpl. rewrite lookup_empty. split; reflexivity.
  - simpl in Hnd. apply NoDup_cons in Hnd. destruct Hnd as [Hni Hnd].
    simpl foldl. simpl list_to_map.
    destruct (IH Hnd (step st (k0, v0)) k) as [Ha Hm]. rewrite Ha, Hm.
    destruct (decide (k0 = k)) as [->|Hne].
    + rewrite lookup_insert_eq.
      rewrite (not_elem_of_list_to_map_1 (M := gmap string) l k Hni).
      destruct (step_same st k v0) as [-> ->]. split; reflexivity.
    + rewrite lookup_insert_ne by done.
      destruct (step_other st k0 v0 k Hne) as [-> ->]. split; reflexivity.
Qed.

Lemma assign_all_lookup st c k :
  (assign_all st c).1 !! k = upd_acc k (lookup_c k c) (st.1 !! k) /\
  (assign_all st c).2 !! k = upd_map k (lookup_c k c) (st.2 !! k).
Proof.
  destruct c as [p|]; simpl; [|split; reflexivity].
  pose proof (foldl_step_lookup (map_to_list p) (NoDup_fst_map_to_list p) st k) as H.
  rewrite list_to_map_to_list in H. exact H.
Qed.

Lemma foldl_assign_all_lookup cs : forall st k,
  (foldl assign_all st cs).1 !! k =
    foldl (fun o c => upd_acc k (lookup_c k c) o) (st.1 !! k) cs /\
  (foldl assign_all st cs).2 !! k =
    foldl (fun o c => upd_map k (lookup_c k c) o) (st.2 !! k) cs.
Proof.
  induction cs as [|c cs IH]; intros st k; simpl; [split; reflexivity|].
  destruct (IH (assign_all st c) k) as [-> ->].
  destruct (assign_all_lookup st c k) as [-> ->]. split; reflexivity.
Qed.

Lemma contributed_no_key k cs : has_key k cs = false -> contributed k cs = [].
Proof.
  induction cs as [|c cs IH]; simpl; [reflexivity|].
  destruct (lookup_c k c); simpl; [discriminate|]. exact IH.
Qed.

(** Event keys: the handler list grows by the contributed functions. *)
Lemma foldl_upd_map_handler k cs : forall o,
  is_handler_key k = true ->
  foldl (fun o c => upd_map k (lookup_c k c) o) o cs =
    if has_key k cs then Some (default [] o ++ contributed k cs) else o.
Proof.
  induction cs as [|c cs IH]; intros o Hk; simpl; [reflexivity|].
  rewrite (IH _ Hk). unfold upd_map. rewrite Hk.
  destruct (lookup_c k c) as [v|]; simpl; [|reflexivity].
  rewrite <- app_assoc. destruct (has_key k cs) eqn:Hh; [reflexivity|].
  rewrite (contributed_no_key k cs Hh), app_nil_r. reflexivity.
Qed.

Lemma foldl_upd_acc_handler k cs : forall o,
  is_handler_key k = true ->
  foldl (fun o c => upd_acc k (lookup_c k c) o) o cs =
    if has_key k cs then Some (Handler k) else o.
Proof.
  induction cs as [|c cs IH]; intros o Hk; simpl; [reflexivity|].
  rewrite (IH _ Hk). unfold upd_acc. rewrite Hk.
  destruct (lookup_c k c) as [v|]; simpl; [|reflexivity].
  destruct (has_key k cs); reflexivity.
Qed.

(** Other keys: the last contribution that has the key wins. *)
Lemma foldl_upd_acc_plain k cs : forall o,
  is_handler_key k = false ->
  foldl (fun o c => upd_acc k (lookup_c k c) o) o cs =
    match last_value k cs with
    | Some v => Some (Plain v)
    | None => o
    end.
Proof.
  induction cs as [|c cs IH]; intros o Hk; simpl; [reflexivity|].
  rewrite (IH _ Hk). unfold upd_acc. rewrite Hk.
  destruct (last_value k cs) as [w|]; [reflexivity|].
  destruct (lookup_c k c) as [v|]; reflexivity.
Qed.

Lemma foldl_upd_map_plain k cs : forall o,
  is_handler_key k = false ->
  foldl (fun o c => upd_map k (lookup_c k c) o) o cs = o.
Proof.
  induction cs as [|c cs IH]; intros o Hk; simpl; [reflexivity|].
  rewrite (IH _ Hk). unfold upd_map. rewrite Hk.
  destruct (lookup_c k c); reflexivity.
Qed.

(** The caller's props come last among the contributions. *)
Lemma last_value_user k userProps propsList elementKey v :
  lookup_c k userProps = Some v ->
  last_value k (contributions userProps propsList elementKey) = Some v.
Proof.
  intros H. unfold contributions.
  induction (map _ propsList) as [|c cs IH]; simpl.
  - exact H.
  - now rewrite IH.
Qed.

Lemma has_key_user k userProps propsList elementKey v :
  lookup_c k userProps = Some v ->
  has_key k (contributions userProps propsList elementKey) = true.
Proof.
  intros H. unfold has_key, contributions.
  rewrite existsb_app. simpl. rewrite H. now rewrite orb_true_r.
Qed.

(** The merged object, key by key. *)
Lemma mergeProps_lookup userProps propsList elementKey k :
  let cs := contributions userProps propsList elementKey in
  props (mergeProps userProps propsList elementKey) !! k =
    if is_handler_key k then
      if has_key k cs then Some (Handler k) else None
    else
      match last_value k cs with
      | Some v => Some (Plain v)
      | None => tabIndexDefault elementKey !! k
      end.
Proof.
  intros cs. unfold mergeProps. fold cs. simpl props.
  destruct (foldl_assign_all_lookup cs (∅, ∅) k) as [Ha _]. simpl in Ha.
  rewrite lookup_empty in Ha.
  rewrite lookup_union, Ha, lookup_union, lookup_fmap.
  assert (Hu : (default ∅ userProps : gmap string Value) !! k = lookup_c k userProps).
  { destruct userProps; simpl; [reflexivity | apply lookup_empty]. }
  rewrite Hu.
  destruct (is_handler_key k) eqn:Hk.
  - rewrite (foldl_upd_acc_handler k cs None Hk).
    destruct (has_key k cs) eqn:Hh.
    + now rewrite union_Some_l.
    + rewrite (left_id None _).
      destruct (lookup_c k userProps) as [v|] eqn:Hv.
      * pose proof (has_key_user k _ propsList elementKey v Hv) as Hx.
        fold cs in Hx. congruence.
      * simpl. rewrite (left_id None _).
        destruct elementKey; simpl; try apply lookup_empty.
        destruct (decide (k = "tabIndex")) as [->|Hne]; [discriminate|].
        now rewrite lookup_singleton_ne.
  - rewrite (foldl_upd_acc_plain k cs None Hk).
    destruct (last_value k cs) as [v|] eqn:Hl.
    + now rewrite union_Some_l.
    + rewrite (left_id None _).
      destruct (lookup_c k userProps) as [v|] eqn:Hv.
      * pose proof (last_value_user k _ propsList elementKey v Hv) as Hx.
        fold cs in Hx. congruence.
      * simpl. now rewrite (left_id None _).
Qed.

Lemma mergeProps_handlers userProps propsList elementKey k :
  let cs := contributions userProps propsList elementKey in
  handlers (mergeProps userProps propsList elementKey) !! k =
    if is_handler_key k && has_key k cs then Some (contributed k cs) else None.
Proof.
  intros cs. unfold mergeProps. fold cs. simpl handlers.
  destruct (foldl_assign_all_lookup cs (∅, ∅) k) as [_ Hm]. simpl in Hm.
  rewrite lookup_empty in Hm. rewrite Hm.
  destruct (is_handler_key k) eqn:Hk; simpl.
  - now rewrite (foldl_upd_map_handler k cs None Hk).
  - now rewrite (foldl_upd_map_plain k cs None Hk).
Qed.

(** The floating element gets [tabIndex = -1] unless a contribution sets
    it. *)
Example floating_tabIndex_default :
  props (mergeProps None [] Floating) !! "tabIndex" = Some (Plain (VData "-1")) /\
  props (mergeProps (Some {[ "tabIndex" := VData "0" ]}) [] Floating) !! "tabIndex"
    = Some (Plain (VData "0")) /\
  props (mergeProps None [] Reference) !! "tabIndex" = None.
Proof. repeat split. Qed.

(** An event key whose contributed values are not functions is still bound
    to a function, which then calls nothing. *)
Example handler_without_functions :
  invoke (mergeProps (Some {[ "onClick" := VData "undefined" ]}) [] Reference) "onClick"
    = Some [].
Proof. reflexivity. Qed.

(** C2: in the output of [mergeProps], a key that begins with "on" and that
    some contribution (the hooks' prop sets in list order, then the caller's
    props) carries is bound to one function, and calling it runs every
    function contributed under that key once, in contribution order; any
    other key is bound to the value of the last contribution that carries
    it, so a value supplied by the caller wins. *)
Theorem mergeProps_preserves_handlers
    (userProps : option Props) (propsList : list (option PropSet))
    (elementKey : ElementKey) (k : string) :
  let cs := contributions userProps propsList elementKey in
  let r := mergeProps userProps propsList elementKey in
  (is_handler_key k = true -> has_key k cs = true ->
     props r !! k = Some (Handler k) /\ invoke r k = Some (contributed k cs)) /\
  (is_handler_key k = false ->
     (forall v, last_value k cs = Some v -> props r !! k = Some (Plain v)) /\
     (forall v, lookup_c k userProps = Some v -> props r !! k = Some (Plain v))).
Proof.
  intros cs r. split.
  - intros Hk Hh.
    assert (Hp : props r !! k = Some (Handler k)).
    { unfold r. rewrite mergeProps_lookup. fold cs. now rewrite Hk, Hh. }
    split; [exact Hp|].
    unfold invoke. rewrite Hp. unfold r. rewrite mergeProps_handlers. fold cs.
    now rewrite Hk, Hh.
  - intros Hk.
    assert (Hl : forall v, last_value k cs = Some v -> props r !! k = Some (Plain v)).
    { intros v Hv. unfold r. rewrite mergeProps_lookup. fold cs. now rewrite Hk, Hv. }
    split; [exact Hl|].
    intros v Hv. apply Hl. now apply last_value_user.
Qed.

(** The scenario of the merge-engine test: both hooks' [onClick] and the
    caller's run once each, in order, and the caller's [role] wins. *)
Lemma mergeProps_preserves_handlers_witness :
  invoke (mergeProps (Some callerProps) [Some hookA; Some hookB] Reference) "onClick"
    = Some [1; 2; 3]%nat /\
  props (mergeProps (Some callerProps) [Some hookA; Some hookB] Reference) !! "role"
    = Some (Plain (VData "button")).
Proof.
  pose proof (mergeProps_preserves_handlers (Some callerProps) [Some hookA; Some hookB]
                Reference "onClick") as [H1 _].
  pose proof (mergeProps_preserves_handlers (Some callerProps) [Some hookA; Some hookB]
                Reference "role") as [_ H2].
  split.
  - destruct (H1 eq_refl eq_refl) as [_ Hi]. exact Hi.
  - destruct (H2 eq_refl) as [_ Hu]. apply Hu. reflexivity.
Defined.

End MergeFacts.

(* ===================================================================== *)
(** ** Properties of the hover-intent geometry *)
(* ===================================================================== *)

Module PolygonFacts.
Import Polygon.

(** The ray-casting test on the unit square. *)
Example unit_square_inside :
  isPointInPolygon (1#2, 1#2)%Q [(0, 0); (1, 0); (1, 1); (0, 1)]%Q = true.
Proof. vm_compute. reflexivity. Qed.

Example unit_square_outside :
  isPointInPolygon (2, 1#2)%Q [(0, 0); (1, 0); (1, 1); (0, 1)]%Q = false.
Proof. vm_compute. reflexivity. Qed.

(** The polygon built for the scenario, with the default buffer. *)
Example scenario_polygon :
  getPolygon Bottom (1#2) (rectOf 0 0 100 40) (rectOf 0 40 100 60) false false 50 38
  = [ (50 - (1#2) * 4, 38 - (1#2)); (50 - (1#2) * 4, 38 - (1#2));
      (0, 40 + 60); (0 + 100, 40 + (1#2)) ]%Q.
Proof. reflexivity. Qed.

Example scenario_far_point_outside :
  isPointInPolygon (500, 500)%Q
    (getPolygon Bottom (1#2) (rectOf 0 0 100 40) (rectOf 0 40 100 60) false false 50 38)
  = false.
Proof. vm_compute. reflexivity. Qed.

Example scenario_trough_point :
  inTrough Bottom 50 45 (rectOf 0 0 100 40) (rectOf 0 40 100 60) = true.
Proof. vm_compute. reflexivity. Qed.

(** A point well inside the polygon is classified as inside. *)
Example scenario_inner_point_inside :
  isPointInPolygon (40, 70)%Q
    (getPolygon Bottom (1#2) (rectOf 0 0 100 40) (rectOf 0 40 100 60) false false 50 38)
  = true.
Proof. vm_compute. reflexivity. Qed.

(** C4: with the floating element [{0,40,100,60}] placed below the reference
    [{0,0,100,40}] and the pointer having left the reference at (50,38), the
    pointer-move handler does not call [onClose] for a pointer at (50,45),
    which lies in the trough between the two elements, and calls it for a
    mouse pointer at (500,500) outside both elements, which the ray-casting
    test places outside the polygon. *)
Theorem safePolygon_scenario
    (fuel : nat) (rest : Q) (al : option Alignment) (nid : option string)
    (tree : option (list Tree.FloatingNode)) (leave : bool) (st : State)
    (pt : option string) (ty : string) (path : list nat) (b : bool) :
  childOpen fuel (scenario al nid tree leave) = Some b ->
  (exists st',
     onPointerMove fuel (mkOptions rest (1#2)) (scenario al nid tree leave) st
       (mkPointerEvent pt 50 45 ty path) = Some (st', [])) /\
  inTrough Bottom 50 45 (rectOf 0 0 100 40) (rectOf 0 40 100 60) = true /\
  (notMouse pt = false -> b = false ->
   existsb (Nat.eqb 1) path = false -> existsb (Nat.eqb 2) path = false ->
     onPointerMove fuel (mkOptions rest (1#2)) (scenario al nid tree leave) st
       (mkPointerEvent pt 500 500 ty path)
     = Some (mkState false (polygonIsDestroyed st), [OnClose])) /\
  isPointInPolygon (500, 500)%Q
    (getPolygon Bottom (1#2) (rectOf 0 0 100 40) (rectOf 0 40 100 60) false false 50 38)
  = false.
Proof.
  intros Hc. split; [|split; [exact scenario_trough_point|split]].
  - unfold onPointerMove. cbn [pointerType type composedPath clientX clientY].
    destruct (notMouse pt); [eexists; reflexivity|].
    destruct (String.eqb ty "pointermove" && _); [eexists; reflexivity|].
    rewrite Hc. destruct b; [eexists; reflexivity|].
    destruct (contains _ path && negb _); [eexists; reflexivity|].
    eexists. reflexivity.
  - intros Hm -> Hr Hf. unfold onPointerMove.
    cbn [pointerType type composedPath clientX clientY].
    rewrite Hm, Hc.
    assert (Hcr : contains (domReference (scenario al nid tree leave)) path = false)
      by exact Hr.
    assert (Hcf : contains (floating (scenario al nid tree leave)) path = false)
      by exact Hf.
    rewrite Hcr, Hcf, andb_false_r. cbn [andb].
    destruct st as [tp [|]]; vm_compute; reflexivity.
  - exact scenario_far_point_outside.
Qed.

Lemma safePolygon_scenario_witness :
  childOpen 0 (scenario None None None false) = Some false /\
  (exists st',
     onPointerMove 0 (mkOptions 0 (1#2)) (scenario None None None false)
       (mkState false false)
       (mkPointerEvent (Some "mouse"%string) 50 45 "pointermove"%string [2%nat; 0%nat])
     = Some (st', [])) /\
  onPointerMove 0 (mkOptions 0 (1#2)) (scenario None None None false)
    (mkState false false)
    (mkPointerEvent (Some "mouse"%string) 500 500 "pointermove"%string [0%nat])
  = Some (mkState false false, [OnClose]).
Proof.
  split; [reflexivity|].
  pose proof (safePolygon_scenario 0 0 None None None false (mkState false false)
                (Some "mouse"%string) "pointermove"%string [2%nat; 0%nat] false eq_refl)
    as [Hnear _].
  pose proof (safePolygon_scenario 0 0 None None None false (mkState false false)
                (Some "mouse"%string) "pointermove"%string [0%nat] false eq_refl)
    as (_ & _ & Hfar & _).
  split; [exact Hnear|].
  apply Hfar; reflexivity.
Defined.

End PolygonFacts.

(* ===================================================================== *)
(** ** Properties of list navigation *)
(* ===================================================================== *)

Module ListNavFacts.
Import ListNav.
Local Open Scope Z_scope.

Lemma keepWalking_bounds l di i :
  keepWalking l di i = true -> 0 <= i <= len l - 1 /\ isDisabled l di i = true.
Proof.
  unfold keepWalking. rewrite !andb_true_iff, Z.geb_le, Z.leb_le. tauto.
Qed.

Lemma keepWalking_false l di i :
  keepWalking l di i = false -> 0 <= i <= len l - 1 -> isDisabled l di i = false.
Proof.
  unfold keepWalking. intros H Hb.
  destruct (isDisabled l di i); [|reflexivity].
  assert ((i >=? 0) = true) as Hge by (apply Z.geb_le; lia).
  assert ((i <=? len l - 1) = true) as Hle by (apply Z.leb_le; lia).
  rewrite Hge, Hle in H. discriminate.
Qed.

(** Probing mode skips [null] entries and items marked disabled. *)
Example probe_skips_disabled :
  findNonDisabledIndex threeItemsAria 0 false None = 2 /\
  findNonDisabledIndex [None; Some (mkItem 7 true false); Some (mkItem 8 false false)]
    (-1) false None = 2 /\
  findNonDisabledIndex threeItemsAria 0 true None = -1.
Proof. repeat split. Qed.

(** The walk always moves: forward it ends above its start, backward below. *)
Lemma walk_forward fuel l di : forall index, index < walk fuel l di false index.
Proof.
  induction fuel as [|fuel IH]; intros index; simpl; [lia|].
  destruct (keepWalking l di _); [|lia].
  specialize (IH (index + 1)). lia.
Qed.

Lemma walk_backward fuel l di : forall index, walk fuel l di true index < index.
Proof.
  induction fuel as [|fuel IH]; intros index; simpl; [lia|].
  destruct (keepWalking l di _); [|lia].
  specialize (IH (index + -1)). lia.
Qed.

(** Every index the walk passes over is in bounds and disabled. *)
Lemma walk_skips_forward fuel l di : forall index j,
  index < j < walk fuel l di false index -> keepWalking l di j = true.
Proof.
  induction fuel as [|fuel IH]; intros index j Hj; simpl in Hj; [lia|].
  destruct (keepWalking l di (index + 1)) eqn:Hk; [|lia].
  destruct (Z.eq_dec j (index + 1)) as [->|Hne]; [exact Hk|].
  apply (IH (index + 1)). lia.
Qed.

Lemma walk_skips_backward fuel l di : forall index j,
  walk fuel l di true index < j < index -> keepWalking l di j = true.
Proof.
  induction fuel as [|fuel IH]; intros index j Hj; simpl in Hj; [lia|].
  destruct (keepWalking l di (index + -1)) eqn:Hk; [|lia].
  destruct (Z.eq_dec j (index + -1)) as [->|Hne]; [exact Hk|].
  apply (IH (index + -1)). lia.
Qed.

(** With enough fuel, an in-bounds result is not disabled. *)
Lemma walk_valid fuel l di dec : forall index,
  enough fuel l dec index ->
  0 <= walk fuel l di dec index <= len l - 1 ->
  isDisabled l di (walk fuel l di dec index) = false.
Proof.
  induction fuel as [|fuel IH]; intros index He Hb; simpl in *.
  - unfold enough in He. destruct dec; simpl in *; lia.
  - destruct (keepWalking l di (index + (if dec then -1 else 1))) eqn:Hk.
    + apply IH; [|exact Hb].
      apply keepWalking_bounds in Hk. destruct Hk as [Hin _].
      unfold enough in *. destruct dec; lia.
    + now apply keepWalking_false.
Qed.

(** More fuel than [length l] changes nothing: the loop never runs dry. *)
Lemma walk_fuel_stable fuel l di dec : forall index,
  enough fuel l dec index ->
  walk (S fuel) l di dec index = walk fuel l di dec index.
Proof.
  induction fuel as [|fuel IH]; intros index He.
  - simpl. destruct (keepWalking l di _) eqn:Hk; [|reflexivity].
    apply keepWalking_bounds in Hk. unfold enough in He. destruct dec; simpl in *; lia.
  - change (walk (S (S fuel)) l di dec index)
      with (let index' := index + (if dec then -1 else 1) in
            if keepWalking l di index' then walk (S fuel) l di dec index' else index').
    change (walk (S fuel) l di dec index)
      with (let index' := index + (if dec then -1 else 1) in
            if keepWalking l di index' then walk fuel l di dec index' else index').
    cbv zeta. destruct (keepWalking l di _) eqn:Hk; [|reflexivity].
    apply IH. apply keepWalking_bounds in Hk. unfold enough in *. destruct dec; lia.
Qed.

Lemma enough_length l dec index : enough (length l) l dec index.
Proof. unfold enough, len. destruct dec; lia. Qed.

Lemma enough_mono fuel fuel' l dec index :
  (fuel <= fuel')%nat -> enough fuel l dec index -> enough fuel' l dec index.
Proof. unfold enough. destruct dec; lia. Qed.

Lemma walk_fuel_irrelevant l di dec index (extra : nat) :
  walk (length l + extra) l di dec index = findNonDisabledIndex l index dec di.
Proof.
  unfold findNonDisabledIndex. induction extra as [|extra IH].
  - now rewrite Nat.add_0_r.
  - rewrite Nat.add_succ_r, walk_fuel_stable; [exact IH|].
    apply (enough_mono (length l)); [lia | apply enough_length].
Qed.

Lemma find_valid l di dec start :
  let r := findNonDisabledIndex l start dec di in
  isIndexOutOfBounds l r = false -> validIndex l di r.
Proof.
  intros r Hb. unfold isIndexOutOfBounds in Hb.
  apply orb_false_iff in Hb. destruct Hb as [H0 H1].
  apply Z.ltb_ge in H0. rewrite Z.geb_leb in H1. apply Z.leb_gt in H1.
  split; [lia|].
  apply walk_valid; [apply enough_length | fold (findNonDisabledIndex l start dec di); lia].
Qed.

Lemma find_forward l di start : start < findNonDisabledIndex l start false di.
Proof. apply walk_forward. Qed.

Lemma find_backward l di start : findNonDisabledIndex l start true di < start.
Proof. apply walk_backward. Qed.

(** The index that the arrow-key branch settles on is either out of bounds
    or refers to an item that is not disabled. *)
Lemma nextIndex_valid p l cur toEnd :
  isIndexOutOfBounds l (nextIndex p l cur toEnd) = false ->
  validIndex l (disabledIndices p) (nextIndex p l cur toEnd).
Proof.
  unfold nextIndex, getMinIndex, getMaxIndex.
  destruct toEnd, (loop p).
  - destruct (cur >=? _).
    + destruct (allowEscape p && _); [discriminate|]. apply find_valid.
    + apply find_valid.
  - destruct (Z.min_spec (findNonDisabledIndex l (len l) true (disabledIndices p))
                (findNonDisabledIndex l cur false (disabledIndices p))) as [[_ ->]|[_ ->]];
      apply find_valid.
  - destruct (cur <=? _).
    + destruct (allowEscape p && _).
      * unfold isIndexOutOfBounds. rewrite Z.geb_leb.
        intros H. apply orb_false_iff in H. destruct H as [_ H].
        apply Z.leb_gt in H. lia.
      * apply find_valid.
    + apply find_valid.
  - destruct (Z.max_spec (findNonDisabledIndex l (-1) false (disabledIndices p))
                (findNonDisabledIndex l cur true (disabledIndices p))) as [[_ ->]|[_ ->]];
      apply find_valid.
Qed.

(** *** The grid scenario *)

Lemma validIndexb_spec l di i : validIndexb l di i = true <-> validIndex l di i.
Proof.
  unfold validIndexb, validIndex, isIndexOutOfBounds.
  rewrite andb_true_iff, !negb_true_iff, orb_false_iff, Z.ltb_ge, Z.geb_leb, Z.leb_gt.
  intuition lia.
Qed.

Lemma main_key_not_home_end k o :
  isMainOrientationKey k o = true ->
  String.eqb k "Home" = false /\ String.eqb k "End" = false.
Proof.
  intros H. split.
  - destruct (String.eqb_spec k "Home") as [->|]; [|reflexivity].
    destruct o; discriminate.
  - destruct (String.eqb_spec k "End") as [->|]; [|reflexivity].
    destruct o; discriminate.
Qed.

Example grid_min_max :
  getMinIndex gridList (Some gridDisabled) = 3 /\
  getMaxIndex gridList (Some gridDisabled) = 45.
Proof. split; vm_compute; reflexivity. Qed.

(** Forty forward presses from index 3 visit the enabled items in order
    and come back to index 3. *)
Example grid_forward_cycle :
  map (fun n => Nat.iter n gridNext 3) (seq 1 40) =
  [4; 6; 7; 8; 9; 11; 12; 13; 14; 16; 17; 18; 19; 20; 21; 22; 23; 24; 25; 26;
   27; 28; 29; 30; 31; 32; 33; 34; 35; 36; 37; 38; 39; 40; 41; 42; 43; 44; 45; 3].
Proof. vm_compute. reflexivity. Qed.

Lemma gridNext_table :
  forallb (fun n => let i := gridNext (Z.of_nat n) in
                    validIndexb gridList (Some gridDisabled) i)
          (seq 0 49) = true.
Proof. vm_compute. reflexivity. Qed.

Lemma gridNext_valid i :
  0 <= i < 49 -> validIndex gridList (Some gridDisabled) (gridNext i).
Proof.
  intros Hi. apply validIndexb_spec.
  pose proof gridNext_table as Ht. rewrite forallb_forall in Ht.
  specialize (Ht (Z.to_nat i)). rewrite Z2Nat.id in Ht by lia.
  apply Ht. apply in_seq. lia.
Qed.

Lemma nextIndex_grid_props virtual o rtl i :
  nextIndex (gridProps virtual o rtl) gridList i true = gridNext i.
Proof. reflexivity. Qed.

(** One forward press in the grid. *)
Lemma grid_press virtual o rtl k f st :
  isMainOrientationKey k o = true ->
  isMainOrientationToEndKey k o rtl = true ->
  listRef st = gridList ->
  0 <= indexRef st < 49 ->
  let i := if negb virtual && f then 3 else gridNext (indexRef st) in
  onKeyDown (gridProps virtual o rtl) st (mkKeyEvent k f) =
    (mkState gridList i (keyRef st) true, [StopEvent; OnNavigate (Some i)]).
Proof.
  intros Hm He Hl Hi i. unfold onKeyDown.
  destruct (main_key_not_home_end k o Hm) as [Hh Hn].
  cbn [nested gridProps andb key currentTargetIsActive orientation ListNav.rtl open
       ListNav.virtual disabledIndices].
  rewrite Hh, Hn, Hm, He. cbn [listRef setBlock indexRef].
  rewrite Hl.
  destruct (negb virtual && f) eqn:Hf.
  - destruct grid_min_max as [-> _]. subst i. unfold setIndex, setBlock. simpl.
    rewrite Hl. reflexivity.
  - rewrite nextIndex_grid_props. subst i.
    pose proof (gridNext_valid (indexRef st) Hi) as Hv.
    apply validIndexb_spec in Hv. unfold validIndexb in Hv.
    apply andb_true_iff in Hv. destruct Hv as [Hb _].
    apply negb_true_iff in Hb. rewrite Hb.
    unfold setIndex, setBlock. simpl. rewrite Hl. reflexivity.
Qed.

Lemma grid_run virtual o rtl k :
  isMainOrientationKey k o = true ->
  isMainOrientationToEndKey k o rtl = true ->
  forall flags st,
    listRef st = gridList ->
    0 <= indexRef st < 49 ->
    Forall (fun '(_, _, effs) =>
              exists i, effs = [StopEvent; OnNavigate (Some i)] /\
                        validIndex gridList (Some gridDisabled) i)
           (run (gridProps virtual o rtl) st (forwardPresses k flags)).
Proof.
  intros Hm He flags. induction flags as [|f flags IH]; intros st Hl Hi; simpl.
  - constructor.
  - change (step (gridProps virtual o rtl) st (FloatingKeyDown (mkKeyEvent k f)))
      with (onKeyDown (gridProps virtual o rtl) st (mkKeyEvent k f)).
    rewrite (grid_press virtual o rtl k f st Hm He Hl Hi).
    assert (Hv : validIndex gridList (Some gridDisabled)
                   (if negb virtual && f then 3 else gridNext (indexRef st))).
    { destruct (negb virtual && f).
      - apply validIndexb_spec. vm_compute. reflexivity.
      - now apply gridNext_valid. }
    constructor.
    + eexists. split; [reflexivity | exact Hv].
    + apply IH; [reflexivity|]. simpl. destruct Hv as [Hv _].
      change (len gridList) with 49 in Hv. exact Hv.
Qed.

Lemma grid_walk_skips start j :
  start < j < findNonDisabledIndex gridList start false (Some gridDisabled) ->
  In j gridDisabled.
Proof.
  intros Hj. apply walk_skips_forward in Hj.
  apply keepWalking_bounds in Hj. destruct Hj as [_ Hd].
  cbn [isDisabled] in Hd. apply existsb_exists in Hd. destruct Hd as (z & Hz & He).
  apply Z.eqb_eq in He. now subst.
Qed.

(** C5: in the 49-item grid with [loop] set and indices 0, 1, 2, 5, 10, 15,
    46, 47, 48 disabled, every forward main-orientation key press in a
    sequence that starts at index 3 navigates to an in-bounds index that is
    not disabled (the indices that [findNonDisabledIndex] passes over are
    disabled ones), and a forward press at index 45, the last enabled one,
    wraps to index 3, the first enabled one. *)
Theorem grid_forward_navigation
    (virtual : bool) (o : Orientation) (rtl : bool) (k : string) (flags : list bool)
    (f : bool) (kr : option string) (blk : bool) :
  isMainOrientationKey k o = true ->
  isMainOrientationToEndKey k o rtl = true ->
  Forall (fun '(_, _, effs) =>
            exists i, effs = [StopEvent; OnNavigate (Some i)] /\
                      validIndex gridList (Some gridDisabled) i)
         (run (gridProps virtual o rtl) (mkState gridList 3 kr blk) (forwardPresses k flags)) /\
  (forall start j,
     start < j < findNonDisabledIndex gridList start false (Some gridDisabled) ->
     In j gridDisabled) /\
  getMaxIndex gridList (Some gridDisabled) = 45 /\
  getMinIndex gridList (Some gridDisabled) = 3 /\
  onKeyDown (gridProps virtual o rtl) (mkState gridList 45 kr blk) (mkKeyEvent k f) =
    (mkState gridList 3 kr true, [StopEvent; OnNavigate (Some 3)]).
Proof.
  intros Hm He. split; [|split; [|split; [|split]]].
  - apply grid_run; [exact Hm | exact He | reflexivity | simpl; lia].
  - apply grid_walk_skips.
  - apply grid_min_max.
  - apply grid_min_max.
  - rewrite (grid_press virtual o rtl k f (mkState gridList 45 kr blk) Hm He eq_refl);
      [|simpl; lia].
    simpl indexRef. simpl keyRef.
    destruct (negb virtual && f); reflexivity.
Qed.

Lemma grid_forward_navigation_witness :
  isMainOrientationKey "ArrowRight" Horizontal = true /\
  isMainOrientationToEndKey "ArrowRight" Horizontal false = true /\
  Forall (fun '(_, _, effs) =>
            exists i, effs = [StopEvent; OnNavigate (Some i)] /\
                      validIndex gridList (Some gridDisabled) i)
         (run (gridProps false Horizontal false) (mkState gridList 3 None false)
              (forwardPresses "ArrowRight" [false; false; true; false])) /\
  onKeyDown (gridProps false Horizontal false) (mkState gridList 45 None false)
            (mkKeyEvent "ArrowRight" false) =
    (mkState gridList 3 None true, [StopEvent; OnNavigate (Some 3)]).
Proof.
  split; [reflexivity|]. split; [reflexivity|].
  pose proof (grid_forward_navigation false Horizontal false "ArrowRight"
                [false; false; true; false] false None false eq_refl eq_refl)
    as (Hrun & _ & _ & _ & Hwrap).
  split; [exact Hrun | exact Hwrap].
Defined.

(** *** Boundary behaviour and the reported indices *)

(** An arrow-key press that reaches the index computation. *)
Lemma onKeyDown_arrow p st ev :
  arrowNavigation p ev = true ->
  let i := nextIndex p (listRef st) (indexRef st)
             (isMainOrientationToEndKey (key ev) (orientation p) (rtl p)) in
  onKeyDown p st ev =
    (setIndex (setBlock st true) i,
     [StopEvent;
      if isIndexOutOfBounds (listRef st) i then OnNavigate None else OnNavigate (Some i)]).
Proof.
  unfold arrowNavigation. rewrite !andb_true_iff, !negb_true_iff.
  intros [[Hm Hc] Hr]. unfold onKeyDown.
  destruct (main_key_not_home_end _ _ Hm) as [Hh Hn].
  rewrite Hc, Hh, Hn, Hm, Hr. reflexivity.
Qed.

(** C8 as stated fails: with [loop] and [allowEscape] set but [virtual]
    unset, a forward press at the last item leaves the list (index -1,
    [onNavigate(null)]) instead of wrapping; and with [virtual] set the
    forward sentinel is -1 and the backward sentinel is the list length,
    not the other way round. *)
Lemma boundary_escape_counterexample :
  onKeyDown (plainProps true true false None) (mkState threeItems 2 None false)
            (mkKeyEvent "ArrowDown" false)
    = (mkState threeItems (-1) None true, [StopEvent; OnNavigate None]) /\
  onKeyDown (plainProps true true true None) (mkState threeItems 2 None false)
            (mkKeyEvent "ArrowDown" false)
    = (mkState threeItems (-1) None true, [StopEvent; OnNavigate None]) /\
  onKeyDown (plainProps true true true None) (mkState threeItems 0 None false)
            (mkKeyEvent "ArrowUp" false)
    = (mkState threeItems 3 None true, [StopEvent; OnNavigate None]) /\
  getMaxIndex threeItems None = 2 /\ getMinIndex threeItems None = 0 /\
  len threeItems = 3.
Proof. repeat split. Qed.

(** C8, amended: for an arrow-key press that reaches the index computation
    with the current index at the boundary it moves towards, the new index
    is, when [loop] is set, the out-of-bounds sentinel if [allowEscape] is
    set and the current index is not already the opposite sentinel (-1 on a
    forward press, the list length on a backward press, whatever [virtual]
    is) and the opposite end otherwise; when [loop] is not set it is the
    boundary itself. *)
Theorem boundary_navigation (p : Props) (st : State) (ev : KeyEvent) :
  arrowNavigation p ev = true ->
  let l := listRef st in
  let cur := indexRef st in
  let minIndex := getMinIndex l (disabledIndices p) in
  let maxIndex := getMaxIndex l (disabledIndices p) in
  let toEnd := isMainOrientationToEndKey (key ev) (orientation p) (rtl p) in
  let i := indexRef (fst (onKeyDown p st ev)) in
  (toEnd = true -> maxIndex <= cur ->
     i = if loop p
         then (if allowEscape p && negb (cur =? len l) then -1 else minIndex)
         else maxIndex) /\
  (toEnd = false -> cur <= minIndex ->
     i = if loop p
         then (if allowEscape p && negb (cur =? -1) then len l else maxIndex)
         else minIndex) /\
  snd (onKeyDown p st ev) =
    [StopEvent; if isIndexOutOfBounds l i then OnNavigate None else OnNavigate (Some i)].
Proof.
  intros Ha l cur minIndex maxIndex toEnd i.
  pose proof (onKeyDown_arrow p st ev Ha) as Hk. cbv zeta in Hk.
  fold l cur toEnd in Hk.
  assert (Hi : i = nextIndex p l cur toEnd) by (unfold i; rewrite Hk; reflexivity).
  split; [|split].
  - intros Ht Hb. rewrite Hi, Ht. unfold nextIndex. fold minIndex maxIndex.
    destruct (loop p).
    + assert ((cur >=? maxIndex) = true) as -> by (apply Z.geb_le; lia). reflexivity.
    + pose proof (find_forward l (disabledIndices p) cur). lia.
  - intros Ht Hb. rewrite Hi, Ht. unfold nextIndex. fold minIndex maxIndex.
    destruct (loop p).
    + assert ((cur <=? minIndex) = true) as -> by (apply Z.leb_le; lia). reflexivity.
    + pose proof (find_backward l (disabledIndices p) cur). lia.
  - rewrite Hk. simpl. rewrite Hi. reflexivity.
Qed.

Lemma boundary_navigation_witness :
  arrowNavigation (plainProps true false false None) (mkKeyEvent "ArrowDown" false) = true /\
  indexRef (fst (onKeyDown (plainProps true false false None)
                   (mkState threeItems 2 None false) (mkKeyEvent "ArrowDown" false))) = 0 /\
  indexRef (fst (onKeyDown (plainProps false false false None)
                   (mkState threeItems 2 None false) (mkKeyEvent "ArrowDown" false))) = 2 /\
  indexRef (fst (onKeyDown (plainProps true true false None)
                   (mkState threeItems 0 None false) (mkKeyEvent "ArrowUp" false))) = 3.
Proof.
  split; [reflexivity|].
  pose proof (boundary_navigation (plainProps true false false None)
                (mkState threeItems 2 None false) (mkKeyEvent "ArrowDown" false) eq_refl)
    as (H1 & _ & _).
  pose proof (boundary_navigation (plainProps false false false None)
                (mkState threeItems 2 None false) (mkKeyEvent "ArrowDown" false) eq_refl)
    as (H2 & _ & _).
  pose proof (boundary_navigation (plainProps true true false None)
                (mkState threeItems 0 None false) (mkKeyEvent "ArrowUp" false) eq_refl)
    as (_ & H3 & _).
  split; [|split].
  - apply H1; [reflexivity | vm_compute; discriminate].
  - apply H2; [reflexivity | vm_compute; discriminate].
  - apply H3; [reflexivity | vm_compute; discriminate].
Defined.

(** [indexOf] returns a position that holds the element, or -1. *)
Lemma item_indexOfFrom_spec l t : forall i,
  0 <= i ->
  indexOfFrom l t i = -1 \/
  (i <= indexOfFrom l t i < i + len l /\
   exists it, nth_error l (Z.to_nat (indexOfFrom l t i - i)) = Some (Some it) /\
              elem it = t).
Proof.
  induction l as [|[it|] l IH]; intros i Hi; simpl.
  - now left.
  - destruct (Nat.eqb_spec (elem it) t) as [He|Hne].
    + right. unfold len. simpl length. split; [lia|].
      exists it. rewrite Z.sub_diag. simpl. auto.
    + destruct (IH (i + 1) ltac:(lia)) as [H|[Hb (it' & Hn & He)]]; [now left|].
      right. unfold len in *. simpl length. split; [lia|].
      exists it'. split; [|exact He].
      replace (Z.to_nat (indexOfFrom l t (i + 1) - i))
        with (S (Z.to_nat (indexOfFrom l t (i + 1) - (i + 1)))) by lia.
      exact Hn.
  - destruct (IH (i + 1) ltac:(lia)) as [H|[Hb (it' & Hn & He)]]; [now left|].
    right. unfold len in *. simpl length. split; [lia|].
    exists it'. split; [|exact He].
    replace (Z.to_nat (indexOfFrom l t (i + 1) - i))
      with (S (Z.to_nat (indexOfFrom l t (i + 1) - (i + 1)))) by lia.
    exact Hn.
Qed.

Lemma itemOnFocus_reports st t i :
  In (OnNavigate (Some i)) (snd (itemOnFocus st t)) ->
  0 <= i < len (listRef st) /\
  exists it, nth_error (listRef st) (Z.to_nat i) = Some (Some it) /\ elem it = t.
Proof.
  unfold itemOnFocus, indexOf.
  destruct (Z.eqb_spec (indexOfFrom (listRef st) t 0) (-1)) as [He|Hne]; simpl.
  - intros [].
  - intros [H|[]]. inversion H; subst i.
    destruct (item_indexOfFrom_spec (listRef st) t 0 ltac:(lia)) as [H1|[Hb (it & Hn & He)]];
      [contradiction|].
    split; [lia|]. exists it. rewrite Z.sub_0_r in Hn. auto.
Qed.

(** Every operation keeps the promise of [reportsOk], from any state. *)
Lemma step_reportsOk p st op : reportsOk p st op (snd (step p st op)).
Proof.
  destruct op as [ev|ev| |t| |t| |l i]; simpl; auto.
  - intros Ha i Hin. rewrite (onKeyDown_arrow p st ev Ha) in Hin. simpl in Hin.
    destruct Hin as [H|[H|[]]]; [discriminate|].
    destruct (isIndexOutOfBounds _ _) eqn:Hb; [discriminate|].
    inversion H; subst i. now apply nextIndex_valid.
  - intros i. apply itemOnFocus_reports.
  - intros i. unfold itemOnMouseMove.
    destruct (focusItemOnHover p); [apply itemOnFocus_reports | intros []].
  - intros i. unfold itemOnPointerLeave.
    destruct (focusItemOnHover p && _); simpl; [|tauto].
    destruct (virtual p); simpl; intuition discriminate.
Qed.

(** C9 as stated fails: hovering or focusing an item whose index is listed
    in [disabledIndices], or that is marked [aria-disabled] in the probing
    mode, reports that index. *)
Lemma hover_reports_disabled_counterexample :
  step (plainProps false false false (Some [1])) (mkState threeItems 0 None false)
       (ItemMouseMove 101)
    = (mkState threeItems 0 None false, [OnNavigate (Some 1)]) /\
  isDisabled threeItems (Some [1]) 1 = true /\
  step (plainProps false false false (Some [1])) (mkState threeItems 0 None false)
       (ItemFocus 101)
    = (mkState threeItems 0 None false, [OnNavigate (Some 1)]) /\
  step (plainProps false false false None) (mkState threeItemsAria 0 None false)
       (ItemMouseMove 101)
    = (mkState threeItemsAria 0 None false, [OnNavigate (Some 1)]) /\
  isDisabled threeItemsAria None 1 = true.
Proof. repeat split. Qed.

(** Home on a list without any enabled item reports the list length, which
    is out of bounds; the arrow-key branch maps such an index to [null]. *)
Example home_reports_out_of_bounds :
  onKeyDown (plainProps false false false (Some [0; 1; 2])) (mkState threeItems 0 None false)
            (mkKeyEvent "Home" false)
    = (mkState threeItems 3 None true, [OnNavigate (Some 3)]) /\
  onKeyDown (plainProps false false false (Some [0; 1; 2])) (mkState threeItems 0 None false)
            (mkKeyEvent "ArrowDown" false)
    = (mkState threeItems (-1) None true, [StopEvent; OnNavigate None]).
Proof. repeat split. Qed.

(** A short session: two arrow presses, a hover, and the pointer leaving
    once the pointer has moved again. *)
Example navigation_session :
  map snd
    (run (plainProps true false false (Some [1])) (mkState threeItems (-1) None false)
       [ FloatingKeyDown (mkKeyEvent "ArrowDown" false);
         FloatingKeyDown (mkKeyEvent "ArrowDown" false);
         ItemMouseMove 100;
         ItemPointerLeave;
         FloatingPointerMove;
         ItemPointerLeave ])
  = [ [StopEvent; OnNavigate (Some 0)];
      [StopEvent; OnNavigate (Some 2)];
      [OnNavigate (Some 0)];
      [];
      [];
      [FocusItem (-1); OnNavigate None; FocusFloating] ].
Proof. reflexivity. Qed.

(** C9, amended: along every sequence of operations, from any state, an
    arrow-key press on the floating element that reaches the index
    computation reports only indices that are in bounds for the current
    list and not disabled; item focus and item hover report only the
    in-bounds position of the focused or hovered item; pointer leave
    reports no index. *)
Theorem navigation_reports (p : Props) (ops : list Op) (st : State) :
  Forall (fun '(st0, op, effs) => reportsOk p st0 op effs) (run p st ops).
Proof.
  revert st. induction ops as [|op ops IH]; intros st; simpl; [constructor|].
  destruct (step p st op) as [st' effs] eqn:Hs.
  constructor.
  - pose proof (step_reportsOk p st op) as H. rewrite Hs in H. exact H.
  - apply IH.
Qed.

End ListNavFacts.
(* ===================================================================== *)
(** ** Properties of typeahead *)
(* ===================================================================== *)

Module TypeaheadFacts.
Import Typeahead.
Local Open Scope Z_scope.

Example lower_apple : asciiLowerCase "Apple" = "apple"%string.
Proof. reflexivity. Qed.

(** [slice] with a negative start counts from the end of the array. *)
Example slice_negative_start :
  sliceFrom [1; 2; 3; 4] (-1) = [4] /\ slice [1; 2; 3; 4] 0 (-1) = [1; 2; 3] /\
  slice [1; 2; 3; 4] 1 9 = [2; 3; 4].
Proof. repeat split. Qed.

Lemma label_indexOfFrom_spec l str : forall i,
  0 <= i ->
  indexOfFrom l str i = -1 \/
  (i <= indexOfFrom l str i < i + Z.of_nat (length l) /\
   nth_error l (Z.to_nat (indexOfFrom l str i - i)) = Some (Some str)).
Proof.
  induction l as [|[t|] l IH]; intros i Hi; simpl.
  - now left.
  - destruct (String.eqb_spec t str) as [->|Hne].
    + right. split; [lia|]. now rewrite Z.sub_diag.
    + destruct (IH (i + 1) ltac:(lia)) as [H|[Hb Hn]]; [now left|].
      right. split; [lia|].
      replace (Z.to_nat (indexOfFrom l str (i + 1) - i))
        with (S (Z.to_nat (indexOfFrom l str (i + 1) - (i + 1)))) by lia.
      exact Hn.
  - destruct (IH (i + 1) ltac:(lia)) as [H|[Hb Hn]]; [now left|].
    right. split; [lia|].
    replace (Z.to_nat (indexOfFrom l str (i + 1) - i))
      with (S (Z.to_nat (indexOfFrom l str (i + 1) - (i + 1)))) by lia.
    exact Hn.
Qed.





(** *** Positions in a rotated list *)





(** *** One key press *)


Lemma prefix_nonempty (b t : string) :
  b <> EmptyString -> String.prefix b t = true -> t <> EmptyString.
Proof. intros Hb Hp ->. destruct b; [contradiction | discriminate]. Qed.



(** *** Independence of the lower-casing function where it is not asked *)









Lemma distinct_fruit :
  distinctLabels [Some "Apple"; Some "Apricot"; Some "Banana"]%string.
Proof.
  intros [|[|[|i]]] [|[|[|j]]] t Hi Hj; simpl in Hi, Hj;
    try reflexivity; try congruence;
    try (destruct i; discriminate); try (destruct j; discriminate).
Qed.


End TypeaheadFacts.

(* ===================================================================== *)
(** ** Properties of the aria-hidden ledger *)
(* ===================================================================== *)

Module AriaHideFacts.
Import AriaHide.

(** Only the siblings along the path to the target are hidden; what lies
    below a hidden node is not visited. *)
Example deep_page :
  deep [1%nat] page = [2%nat; 3%nat] /\
  deep [4%nat] page = [1%nat; 2%nat] /\
  deep [0%nat] page = [].
Proof. repeat split. Qed.

(** Component-wise equality of two local states. *)
Ltac local_eq := repeat (apply pair_equal_spec; split); try reflexivity.

(** *** Each step touches the state of one node only *)

Lemma hideNode_local h w y x :
  localOf (hideNode h w y) x =
  if decide (x = y) then hideLocal (localOf w x) else localOf w x.
Proof.
  unfold localOf, hideNode, hideLocal. cbn [ariaHidden ledger counterMap uncontrolledNodes].
  destruct (decide (x = y)) as [->|Hne].
  - rewrite lookup_insert_eq.
    destruct (alreadyHidden (ariaHidden w !! y)) eqn:Hh;
      destruct (Z.eqb (bump (counterMap (ledger w) !! y)) 1) eqn:Hz; cbn [andb];
      rewrite ?lookup_insert_eq;
      local_eq.
    apply bool_decide_eq_true. apply elem_of_union_l. now apply elem_of_singleton.
  - rewrite lookup_insert_ne by congruence.
    destruct (alreadyHidden (ariaHidden w !! y)) eqn:Hh;
      destruct (Z.eqb (bump (counterMap (ledger w) !! y)) 1) eqn:Hz; cbn [andb];
      rewrite ?lookup_insert_ne by congruence;
      local_eq.
    apply bool_decide_ext. rewrite elem_of_union, elem_of_singleton. intuition congruence.
Qed.

Lemma unhideNode_local h w y x :
  localOf (unhideNode h w y) x =
  if decide (x = y) then unhideLocal (localOf w x) else localOf w x.
Proof.
  unfold localOf, unhideNode, unhideLocal.
  cbn [ariaHidden ledger counterMap uncontrolledNodes].
  destruct (decide (x = y)) as [->|Hne].
  - rewrite lookup_insert_eq.
    destruct (falsy (decr (counterMap (ledger w) !! y))) eqn:Hf;
      destruct (bool_decide (y ∈ uncontrolledNodes (ledger w))) eqn:Hu; cbn [andb negb];
      rewrite ?lookup_delete_eq;
      local_eq;
      try (apply bool_decide_eq_false; rewrite elem_of_difference, elem_of_singleton; tauto).
  - rewrite lookup_insert_ne by congruence.
    destruct (falsy (decr (counterMap (ledger w) !! y))) eqn:Hf;
      destruct (bool_decide (y ∈ uncontrolledNodes (ledger w))) eqn:Hu; cbn [andb negb];
      rewrite ?lookup_delete_ne by congruence;
      local_eq;
      try (apply bool_decide_ext; rewrite elem_of_difference, elem_of_singleton;
           intuition congruence).
Qed.

Lemma occurrences_cons x y l :
  occurrences x (y :: l) = if decide (x = y) then S (occurrences x l) else occurrences x l.
Proof.
  unfold occurrences. simpl.
  destruct (Nat.eqb_spec x y); destruct (decide (x = y)); try contradiction; reflexivity.
Qed.

Lemma foldl_local (f : World -> nat -> World) (g : Local -> Local) :
  (forall w y x, localOf (f w y) x = if decide (x = y) then g (localOf w x) else localOf w x) ->
  forall l w x, localOf (foldl f w l) x = Nat.iter (occurrences x l) g (localOf w x).
Proof.
  intros Hf l. induction l as [|y l IH]; intros w x; [reflexivity|].
  simpl foldl. rewrite IH, Hf, occurrences_cons.
  destruct (decide (x = y)); [|reflexivity].
  now rewrite Nat.iter_succ_r.
Qed.

Lemma foldl_hideNode_lock h l : forall w,
  lockCount (ledger (foldl (hideNode h) w l)) = lockCount (ledger w) /\
  markerMap (ledger (foldl (hideNode h) w l)) = markerMap (ledger w).
Proof.
  induction l as [|y l IH]; intros w; [split; reflexivity|].
  simpl foldl. destruct (IH (hideNode h w y)) as [-> ->]. split; reflexivity.
Qed.

Lemma foldl_unhideNode_lock h l : forall w,
  lockCount (ledger (foldl (unhideNode h) w l)) = lockCount (ledger w).
Proof.
  induction l as [|y l IH]; intros w; [reflexivity|].
  simpl foldl. now rewrite IH.
Qed.

(** *** One activation, one release *)

Lemma hideOthers_local w targets doc x :
  localOf (fst (hideOthers w targets doc)) x =
  Nat.iter (occurrences x (deep targets doc)) hideLocal (localOf w x).
Proof.
  unfold hideOthers. cbn [fst].
  change (localOf (lock ?w') x) with (localOf w' x).
  now rewrite (foldl_local (hideNode (markerHandle (ledger w))) hideLocal
                 (hideNode_local (markerHandle (ledger w)))).
Qed.

Lemma hideOthers_lock w targets doc :
  lockCount (ledger (fst (hideOthers w targets doc))) = (lockCount (ledger w) + 1)%Z.
Proof.
  unfold hideOthers. cbn [fst lock ledger lockCount].
  now destruct (foldl_hideNode_lock (markerHandle (ledger w)) (deep targets doc)
                  (withMarker w)) as [-> _].
Qed.

Lemma hideOthers_nodes w targets doc :
  hiddenNodes (snd (hideOthers w targets doc)) = deep targets doc.
Proof. reflexivity. Qed.

Lemma release_lock w r :
  lockCount (ledger (release w r)) = (lockCount (ledger w) - 1)%Z.
Proof.
  unfold release. cbn [ledger]. rewrite foldl_unhideNode_lock.
  destruct (Z.eqb _ 0); reflexivity.
Qed.

Lemma release_attr w r x :
  ariaHidden (release w r) !! x =
  fst (fst (Nat.iter (occurrences x (hiddenNodes r)) unhideLocal (localOf w x))).
Proof.
  unfold release. cbn [ariaHidden].
  now rewrite <- (foldl_local (unhideNode (markerCounter r)) unhideLocal
                    (unhideNode_local (markerCounter r))).
Qed.

Lemma release_local w r x :
  lockCount (ledger w) <> 1%Z ->
  localOf (release w r) x =
  Nat.iter (occurrences x (hiddenNodes r)) unhideLocal (localOf w x).
Proof.
  intros Hl. unfold release.
  rewrite <- (foldl_local (unhideNode (markerCounter r)) unhideLocal
                (unhideNode_local (markerCounter r))).
  rewrite foldl_unhideNode_lock.
  destruct (Z.eqb_spec (lockCount (ledger w) - 1) 0) as [He|_]; [lia|]. reflexivity.
Qed.

(** *** N activations, N releases *)

Lemma activate_succ n w targets doc :
  activate (S n) w targets doc =
  (fst (activate n (fst (hideOthers w targets doc)) targets doc),
   snd (hideOthers w targets doc)
   :: snd (activate n (fst (hideOthers w targets doc)) targets doc)).
Proof.
  change (activate (S n) w targets doc)
    with (let '(w1, r) := hideOthers w targets doc in
          let '(w2, rs) := activate n w1 targets doc in (w2, r :: rs)).
  destruct (hideOthers w targets doc) as [w1 r]. cbn [fst snd].
  destruct (activate n w1 targets doc) as [w2 rs]. reflexivity.
Qed.

Lemma activate_local targets doc x n : forall w,
  localOf (fst (activate n w targets doc)) x =
  Nat.iter (n * occurrences x (deep targets doc)) hideLocal (localOf w x).
Proof.
  induction n as [|n IH]; intros w; [reflexivity|].
  rewrite activate_succ. cbn [fst]. rewrite IH, hideOthers_local.
  rewrite <- Nat.iter_add. f_equal. lia.
Qed.

Lemma activate_lock targets doc n : forall w,
  lockCount (ledger (fst (activate n w targets doc))) =
  (lockCount (ledger w) + Z.of_nat n)%Z.
Proof.
  induction n as [|n IH]; intros w; [simpl; lia|].
  rewrite activate_succ. cbn [fst]. rewrite IH, hideOthers_lock. lia.
Qed.

Lemma activate_releases targets doc n : forall w,
  length (snd (activate n w targets doc)) = n /\
  Forall (fun r => hiddenNodes r = deep targets doc) (snd (activate n w targets doc)).
Proof.
  induction n as [|n IH]; intros w; [split; [reflexivity | constructor]|].
  rewrite activate_succ. cbn [snd].
  destruct (IH (fst (hideOthers w targets doc))) as [Hl Hf].
  split; [cbn [length]; now rewrite Hl|]. constructor; [reflexivity | exact Hf].
Qed.

Lemma releaseAll_attr l x rs : forall w,
  Forall (fun r => hiddenNodes r = l) rs ->
  lockCount (ledger w) = Z.of_nat (length rs) ->
  ariaHidden (releaseAll w rs) !! x =
  fst (fst (Nat.iter (length rs * occurrences x l) unhideLocal (localOf w x))).
Proof.
  induction rs as [|r rs IH]; intros w Hf Hl; [reflexivity|].
  apply Forall_cons in Hf. destruct Hf as [Hr Hf].
  unfold releaseAll. simpl foldl. fold (releaseAll (release w r) rs).
  destruct rs as [|r' rs'].
  - change (releaseAll (release w r) []) with (release w r).
    rewrite release_attr, Hr. f_equal. f_equal. f_equal. simpl length. lia.
  - rewrite IH; [|exact Hf|rewrite release_lock, Hl; simpl length; lia].
    rewrite release_local by (rewrite Hl; simpl length; lia).
    rewrite Hr, <- Nat.iter_add. f_equal. f_equal. f_equal. simpl length. lia.
Qed.

(** *** The life of one node's state *)

Lemma alreadyHidden_kept a :
  alreadyHidden (if alreadyHidden a then a else Some "true") = true.
Proof. destruct (alreadyHidden a) eqn:H; [exact H | reflexivity]. Qed.

Lemma hide_iter a k :
  Nat.iter (S k) hideLocal (a, None, false) =
  (if alreadyHidden a then a else Some "true",
   Some (Int (Z.of_nat (S k))), alreadyHidden a).
Proof.
  induction k as [|k IH].
  - simpl. destruct (alreadyHidden a); reflexivity.
  - rewrite Nat.iter_succ, IH. unfold hideLocal.
    rewrite alreadyHidden_kept. cbn [bump].
    assert ((Z.of_nat (S k) + 1 =? 1)%Z = false) as -> by (apply Z.eqb_neq; lia).
    cbn [andb].
    replace (Z.of_nat (S (S k))) with (Z.of_nat (S k) + 1)%Z by lia. reflexivity.
Qed.

Lemma unhide_iter attr unc k j :
  (j <= k)%nat ->
  Nat.iter j unhideLocal (attr, Some (Int (Z.of_nat (S k))), unc) =
  (attr, Some (Int (Z.of_nat (S k) - Z.of_nat j)), unc).
Proof.
  induction j as [|j IH]; intros Hj.
  - simpl Nat.iter.
    replace (Z.of_nat (S k) - Z.of_nat 0)%Z with (Z.of_nat (S k)) by lia. reflexivity.
  - rewrite Nat.iter_succ, IH by lia. unfold unhideLocal. cbn [decr falsy].
    assert ((Z.of_nat (S k) - Z.of_nat j - 1 =? 0)%Z = false) as ->
      by (apply Z.eqb_neq; lia).
    cbn [andb].
    replace (Z.of_nat (S k) - Z.of_nat (S j))%Z
      with (Z.of_nat (S k) - Z.of_nat j - 1)%Z by lia.
    reflexivity.
Qed.

Lemma unhide_iter_last attr unc k :
  Nat.iter (S k) unhideLocal (attr, Some (Int (Z.of_nat (S k))), unc) =
  (if unc then attr else None, Some (Int 0), false).
Proof.
  rewrite Nat.iter_succ, (unhide_iter attr unc k k) by lia.
  unfold unhideLocal. cbn [decr falsy].
  replace (Z.of_nat (S k) - Z.of_nat k - 1)%Z with 0%Z by lia.
  destruct unc; reflexivity.
Qed.

(** After [k >= 1] increments and as many decrements, the attribute is the
    original one if it counted as hidden, and absent otherwise. *)
Lemma local_round_trip a k :
  fst (fst (Nat.iter (S k) unhideLocal (Nat.iter (S k) hideLocal (a, None, false)))) =
  if alreadyHidden a then a else None.
Proof.
  rewrite hide_iter, unhide_iter_last. cbn [fst].
  destruct (alreadyHidden a); reflexivity.
Qed.

Lemma localOf_fresh aria marker x :
  localOf (mkWorld aria marker freshLedger) x = (aria !! x, None, false).
Proof. reflexivity. Qed.

(** The release functions of the [n] activations all captured the same
    node list, so they may run in any order. *)
Lemma releases_any_order n aria marker targets doc rs x :
  Permutation (snd (locked n aria marker targets doc)) rs ->
  ariaHidden (releaseAll (fst (locked n aria marker targets doc)) rs) !! x =
  fst (fst (Nat.iter (n * occurrences x (deep targets doc)) unhideLocal
              (Nat.iter (n * occurrences x (deep targets doc)) hideLocal
                 (aria !! x, None, false)))).
Proof.
  intros Hp. unfold locked in *.
  pose proof (activate_local targets doc x n (mkWorld aria marker freshLedger)) as Hloc.
  pose proof (activate_lock targets doc n (mkWorld aria marker freshLedger)) as Hlock.
  destruct (activate_releases targets doc n (mkWorld aria marker freshLedger)) as [Hlen Hall].
  assert (Hlen' : length rs = n) by (rewrite <- Hlen; symmetry; now apply Permutation_length).
  assert (Hall' : Forall (fun r => hiddenNodes r = deep targets doc) rs).
  { rewrite Forall_forall in *. intros r Hr. apply Hall.
    eapply elem_of_Permutation_proper; eauto. }
  rewrite (releaseAll_attr (deep targets doc) x rs _ Hall').
  - now rewrite Hlen', Hloc, localOf_fresh.
  - rewrite Hlock, Hlen'. simpl. lia.
Qed.

Lemma roundTrip_attr n aria marker targets doc x :
  ariaHidden (roundTrip n aria marker targets doc) !! x =
  fst (fst (Nat.iter (n * occurrences x (deep targets doc)) unhideLocal
              (Nat.iter (n * occurrences x (deep targets doc)) hideLocal
                 (aria !! x, None, false)))).
Proof. unfold roundTrip. now apply releases_any_order. Qed.

(** C7 as stated fails: a sibling of the target that carries
    [aria-hidden="false"] has lost the attribute after one activation and
    its release. *)
Lemma aria_hidden_false_counterexample :
  ariaHidden (roundTrip 1 {[ 2%nat := "false" ]} ∅ [1%nat] page) !! 2%nat = None /\
  deep [1%nat] page = [2%nat; 3%nat].
Proof. split; [vm_compute; reflexivity | reflexivity]. Qed.

(** While the lock is held the same node reads [aria-hidden="true"]. *)
Example aria_hidden_false_while_locked :
  ariaHidden (fst (hideOthers (mkWorld {[ 2%nat := "false" ]} ∅ freshLedger) [1%nat] page))
    !! 2%nat = Some "true".
Proof. vm_compute. reflexivity. Qed.

(** C7, amended: starting from an empty ledger, [n >= 1] activations
    with the same targets over the same subtree followed by the [n] release
    functions, called in any order, leave the [aria-hidden] attribute of
    every node as it was before the first activation, unless the node
    carried [aria-hidden="false"]; a node that [hideOthers] hid while it
    carried ["false"] ends up without the attribute.  In particular a node
    that carried any other value keeps it. *)
Theorem hideOthers_round_trip
    (n : nat) (aria marker : gmap nat string) (targets : list nat) (doc : Dom)
    (rs : list Release) (x : nat) :
  (1 <= n)%nat ->
  Permutation (snd (locked n aria marker targets doc)) rs ->
  (aria !! x <> Some "false" ->
     ariaHidden (releaseAll (fst (locked n aria marker targets doc)) rs) !! x = aria !! x) /\
  (aria !! x = Some "false" ->
     ariaHidden (releaseAll (fst (locked n aria marker targets doc)) rs) !! x =
       if Nat.eqb (occurrences x (deep targets doc)) 0 then Some "false" else None).
Proof.
  intros Hn Hp. rewrite (releases_any_order n aria marker targets doc rs x Hp).
  destruct (n * occurrences x (deep targets doc))%nat as [|k] eqn:Hk.
  - assert (occurrences x (deep targets doc) = 0)%nat as -> by nia.
    simpl. split; [reflexivity | auto].
  - assert ((occurrences x (deep targets doc) =? 0)%nat = false) as ->
      by (apply Nat.eqb_neq; nia).
    rewrite local_round_trip. split.
    + intros Hne. destruct (aria !! x) as [s|] eqn:Ha; [|reflexivity].
      simpl. destruct (String.eqb_spec s "false") as [->|]; [congruence | reflexivity].
    + intros ->. reflexivity.
Qed.

Lemma hideOthers_round_trip_witness :
  (1 <= 3)%nat /\
  ariaHidden (roundTrip 3 {[ 2%nat := "true"; 3%nat := "false" ]} ∅ [1%nat] page) !! 2%nat
    = Some "true" /\
  ariaHidden (roundTrip 3 {[ 2%nat := "true"; 3%nat := "false" ]} ∅ [1%nat] page) !! 4%nat
    = None /\
  ariaHidden (roundTrip 3 {[ 2%nat := "true"; 3%nat := "false" ]} ∅ [1%nat] page) !! 3%nat
    = None.
Proof.
  split; [lia|].
  pose proof (hideOthers_round_trip 3 {[ 2%nat := "true"; 3%nat := "false" ]} ∅ [1%nat]
                page _ 2%nat ltac:(lia) (Permutation_refl _)) as [H2 _].
  pose proof (hideOthers_round_trip 3 {[ 2%nat := "true"; 3%nat := "false" ]} ∅ [1%nat]
                page _ 4%nat ltac:(lia) (Permutation_refl _)) as [H4 _].
  pose proof (hideOthers_round_trip 3 {[ 2%nat := "true"; 3%nat := "false" ]} ∅ [1%nat]
                page _ 3%nat ltac:(lia) (Permutation_refl _)) as [_ H3].
  unfold roundTrip. split; [|split].
  - rewrite H2; [reflexivity | discriminate].
  - rewrite H4; [reflexivity | discriminate].
  - rewrite H3; reflexivity.
Defined.

End AriaHideFacts.

(* ===================================================================== *)
(** ** Properties of the event bus and of the id generator *)
(* ===================================================================== *)

Module PubSubFacts.
Import PubSub.

Lemma listeners_on map event listener e :
  listeners (on map event listener) e =
  if decide (event = e) then listeners map event ++ [listener] else listeners map e.
Proof.
  unfold on, listeners at 1. destruct (decide (event = e)) as [->|Hne].
  - now rewrite lookup_insert_eq.
  - now rewrite lookup_insert_ne.
Qed.

Lemma listeners_off map event listener e :
  listeners (off map event listener) e =
  if decide (event = e)
  then List.filter (fun l => negb (Nat.eqb l listener)) (listeners map event)
  else listeners map e.
Proof.
  unfold off, listeners at 1. destruct (decide (event = e)) as [->|Hne].
  - now rewrite lookup_insert_eq.
  - now rewrite lookup_insert_ne.
Qed.

Lemma filter_absent (l : list nat) (x : nat) :
  ~ In x l -> List.filter (fun y => negb (Nat.eqb y x)) l = l.
Proof.
  induction l as [|y l IH]; intros Hx; [reflexivity|]. simpl.
  destruct (Nat.eqb_spec y x) as [->|Hne]; simpl.
  - exfalso. apply Hx. now left.
  - rewrite IH; [reflexivity|]. intros Hin. apply Hx. now right.
Qed.

(** X1: subscribing a listener that is not yet subscribed and unsubscribing
    it again leaves [emit] as it was, for the event itself and for every
    other event; while it is subscribed it is called last. *)
Theorem pubsub_on_off_round_trip
    (D : Type) (map : Bus) (event : string) (listener : nat) (e : string) (data : D) :
  ~ In listener (listeners map event) ->
  emit (off (on map event listener) event listener) e data = emit map e data /\
  emit (on map event listener) event data = emit map event data ++ [(listener, data)] /\
  (e <> event -> emit (on map event listener) e data = emit map e data).
Proof.
  intros Hfresh. unfold emit. split; [|split].
  - rewrite listeners_off. destruct (decide (event = e)) as [->|Hne].
    + rewrite listeners_on. destruct (decide (e = e)); [|congruence].
      rewrite List.filter_app, (filter_absent _ _ Hfresh). simpl.
      rewrite Nat.eqb_refl. simpl. now rewrite app_nil_r.
    + rewrite listeners_on. destruct (decide (event = e)); [congruence | reflexivity].
  - rewrite listeners_on. destruct (decide (event = event)); [|congruence].
    now rewrite map_app.
  - intros Hne. rewrite listeners_on.
    destruct (decide (event = e)); [congruence | reflexivity].
Qed.

Lemma pubsub_on_off_round_trip_witness :
  ~ In 7%nat (listeners (on ∅ "dismiss" 3) "dismiss") /\
  emit (off (on (on ∅ "dismiss" 3) "dismiss" 7) "dismiss" 7) "dismiss" true
    = [(3%nat, true)].
Proof.
  assert (H : ~ In 7%nat (listeners (on ∅ "dismiss" 3) "dismiss")).
  { vm_compute. intros [H|[]]. discriminate. }
  split; [exact H|].
  destruct (pubsub_on_off_round_trip bool (on ∅ "dismiss" 3) "dismiss" 7 "dismiss" true H)
    as [Hrt _].
  rewrite Hrt. reflexivity.
Defined.

(** X2: [off] removes every subscription of the listener, also one made
    twice: afterwards [emit] never calls it, and the other listeners are
    called as before, in the same order. *)
Theorem pubsub_off_removes_all
    (D : Type) (map : Bus) (event : string) (listener : nat) (data : D) :
  emit (off map event listener) event data =
    List.filter (fun c => negb (Nat.eqb (fst c) listener)) (emit map event data) /\
  (forall d, ~ In (listener, d) (emit (off map event listener) event data)) /\
  emit (off (on (on map event listener) event listener) event listener) event data =
    emit (off map event listener) event data.
Proof.
  assert (Hf : forall l : list nat,
             List.map (fun h => (h, data))
               (List.filter (fun l0 => negb (Nat.eqb l0 listener)) l) =
             List.filter (fun c : nat * D => negb (Nat.eqb (fst c) listener))
               (List.map (fun h => (h, data)) l)).
  { induction l as [|y l IH]; [reflexivity|]. simpl.
    destruct (negb (Nat.eqb y listener)); simpl; now rewrite IH. }
  unfold emit. split; [|split].
  - rewrite listeners_off. destruct (decide (event = event)); [|congruence]. apply Hf.
  - intros d Hin. rewrite listeners_off in Hin.
    destruct (decide (event = event)); [|congruence].
    apply in_map_iff in Hin. destruct Hin as (h & Heq & Hh).
    inversion Heq; subst. apply filter_In in Hh. destruct Hh as [_ Hh].
    rewrite Nat.eqb_refl in Hh. discriminate.
  - rewrite !listeners_off. destruct (decide (event = event)); [|congruence].
    rewrite !listeners_on. destruct (decide (event = event)); [|congruence].
    rewrite !List.filter_app. simpl. rewrite Nat.eqb_refl. simpl.
    now rewrite !app_nil_r.
Qed.

End PubSubFacts.

Module IdsFacts.
Import Ids.

Lemma genId_inj c1 c2 : fst (genId c1) = fst (genId c2) -> c1 = c2.
Proof.
  unfold genId. simpl. intros H.
  apply (inj (String.append "floating-ui-")) in H.
  now apply (inj pretty) in H.
Qed.

Lemma increment_below count : (count < maxCount)%N -> increment count = (count + 1)%N.
Proof.
  intros H. unfold increment. apply N.ltb_lt in H. now rewrite H.
Qed.

Lemma genIds_from n : forall count s,
  (count + N.of_nat n <= maxCount)%N ->
  In s (genIds n count) ->
  exists c, (count <= c)%N /\ s = fst (genId c).
Proof.
  induction n as [|n IH]; intros count s Hb Hin; [destruct Hin|].
  destruct Hin as [<-|Hin].
  - exists count. split; [lia | reflexivity].
  - cbn [genId snd] in Hin. rewrite increment_below in Hin by lia.
    apply IH in Hin; [|lia]. destruct Hin as (c & Hc & ->).
    exists c. split; [lia | reflexivity].
Qed.

(** Once the counter has reached [2^53] it stays there and the same id is
    handed out again. *)
Example genId_repeats_at_limit :
  genIds 2 maxCount = ["floating-ui-9007199254740992"; "floating-ui-9007199254740992"].
Proof. vm_compute. reflexivity. Qed.

(** X3: as long as the counter stays within the integers that a number
    counts exactly (it starts at 0, the limit is [2^53]), the ids that
    successive [genId] calls hand out are non-empty (truthy) strings and
    pairwise distinct: what the node list needs for its [parentId] links
    to identify nodes. *)
Theorem genId_ids_distinct_truthy (n : nat) (count : N) :
  (count + N.of_nat n <= maxCount)%N ->
  List.NoDup (genIds n count) /\
  Forall (fun s => Tree.truthy s = true) (genIds n count).
Proof.
  intros Hb. split.
  - revert count Hb. induction n as [|n IH]; intros count Hb; [constructor|].
    cbn [genIds genId fst snd]. rewrite increment_below by lia.
    constructor; [|apply IH; lia].
    intros Hin. apply genIds_from in Hin; [|lia]. destruct Hin as (c & Hc & He).
    apply (genId_inj count c) in He. lia.
  - apply List.Forall_forall. intros s Hin.
    revert count Hb Hin. induction n as [|n IH]; intros count Hb Hin; [destruct Hin|].
    destruct Hin as [<-|Hin]; [reflexivity|].
    apply (IH (snd (genId count))); [|exact Hin].
    cbn [genId snd]. rewrite increment_below by lia. lia.
Qed.

Lemma genId_ids_distinct_truthy_witness :
  (0 + N.of_nat 3 <= maxCount)%N /\
  genIds 3 0 = ["floating-ui-0"; "floating-ui-1"; "floating-ui-2"] /\
  List.NoDup (genIds 3 0).
Proof.
  assert (H : (0 + N.of_nat 3 <= maxCount)%N) by (vm_compute; discriminate).
  split; [exact H|]. split; [vm_compute; reflexivity|].
  exact (proj1 (genId_ids_distinct_truthy 3 0 H)).
Defined.

End IdsFacts.

(* ===================================================================== *)
(** ** Further properties of the tree queries *)
(* ===================================================================== *)

Module TreeMore.
Import Tree TreeFacts.

Lemma open_descendant_registered nodes q n :
  open_descendant nodes q n -> In n nodes /\ is_open n = true.
Proof. intros H. destruct H; auto. Qed.

Lemma open_descendant_has_child nodes q n :
  open_descendant nodes q n ->
  exists c, In c nodes /\ parentId c = q /\ is_open c = true.
Proof.
  intros H. induction H as [n Hin Hp Ho | m n _ IH _ _ _]; [|exact IH].
  exists n. auto.
Qed.

(** X4: whatever [getChildren] returns consists of registered nodes whose
    context reports open, and the result is empty exactly when the queried
    id has no direct child that is open, however many open nodes lie
    below a closed child. *)
Theorem getChildren_open_members
    (fuel : nat) (nodes : list FloatingNode) (q : option string) (r : list FloatingNode) :
  getChildren fuel nodes q = Some r ->
  (forall n, In n r -> In n nodes /\ is_open n = true) /\
  (r = [] <-> forall n, In n nodes -> parentId n = q -> is_open n = false).
Proof.
  intros H. pose proof (getChildren_spec nodes fuel q r H) as Hs. split.
  - intros n Hn. apply Hs in Hn. now apply open_descendant_registered in Hn.
  - split.
    + intros -> n Hin Hp. destruct (is_open n) eqn:Ho; [|reflexivity].
      exfalso. apply (proj2 (Hs n)). now apply od_child.
    + intros Hno. destruct r as [|n r']; [reflexivity|]. exfalso.
      assert (Hd : open_descendant nodes q n) by (apply Hs; now left).
      apply open_descendant_has_child in Hd. destruct Hd as (c & Hc & Hp & Ho).
      rewrite (Hno c Hc Hp) in Ho. discriminate.
Qed.

Lemma getChildren_open_members_witness :
  getChildren 4 chain4 (Some "c") =
    Some [mkNode "d" (Some "c") (Some (mkContext true (Some 4%nat)))] /\
  (forall n, In n [mkNode "d" (Some "c") (Some (mkContext true (Some 4%nat)))] ->
             In n chain4 /\ is_open n = true).
Proof.
  split; [reflexivity|].
  apply (getChildren_open_members 4 chain4 (Some "c")). reflexivity.
Defined.

Lemma parent_of_unique nodes i p p' :
  List.NoDup (map id nodes) -> parent_of nodes i p -> parent_of nodes i p' -> p = p'.
Proof.
  intros Hnd (n & Hn & He & Hpar & Hin) (n' & Hn' & He' & Hpar' & Hin').
  assert (n = n') by (eapply node_unique; eauto; congruence). subst n'.
  eapply node_unique; eauto. congruence.
Qed.

Lemma descendant_chain_contains nodes p :
  List.NoDup (map id nodes) -> In p nodes ->
  forall n, open_descendant nodes (Some (id p)) n ->
  forall l, parent_chain nodes (id n) l -> In p l.
Proof.
  intros Hnd Hp n Hd.
  induction Hd as [n Hin Hpar _ | m n Hm IH Hin Hpar _]; intros l Hl.
  - assert (Hpo : parent_of nodes (id n) p) by (exists n; auto).
    inversion Hl as [? Hno|? p' l' Hp' _]; subst.
    + now apply Hno in Hpo.
    + left. eapply parent_of_unique; eauto.
  - assert (Hmin : In m nodes) by (now apply open_descendant_registered in Hm).
    assert (Hpo : parent_of nodes (id n) m) by (exists n; auto).
    inversion Hl as [? Hno|? p' l' Hp' Hc']; subst.
    + now apply Hno in Hpo.
    + assert (p' = m) by (eapply parent_of_unique; eauto). subst p'.
      right. now apply IH.
Qed.

(** X5: the two queries agree: on a forest, every node that [getChildren]
    returns for a registered node [p] has [p] among the ancestors that
    [getAncestors] returns for it. *)
Theorem getChildren_getAncestors_agree
    (fuel : nat) (nodes : list FloatingNode) (p n : FloatingNode) (r : list FloatingNode) :
  forest nodes ->
  In p nodes ->
  getChildren fuel nodes (Some (id p)) = Some r ->
  In n r ->
  exists l, getAncestors (S (length nodes)) nodes (Some (id n)) = Some l /\ In p l.
Proof.
  intros Hf Hp Hr Hn. pose proof Hf as [Hnd Hne Hac].
  destruct (getAncestors_total nodes Hac (Some (id n))) as [l Hl].
  exists l. split; [exact Hl|].
  destruct (getAncestors_spec nodes _ (id n) l Hf Hl) as [Hc _].
  apply (descendant_chain_contains nodes p Hnd Hp n); [|exact Hc].
  now apply (getChildren_spec nodes fuel (Some (id p)) r Hr).
Qed.

Lemma getChildren_getAncestors_agree_witness :
  forest chain4 /\
  exists l, getAncestors (S (length chain4)) chain4 (Some "d") = Some l /\
            In (mkNode "a" None (Some (mkContext true (Some 1%nat)))) l.
Proof.
  split; [exact chain4_forest|].
  apply (getChildren_getAncestors_agree 4 chain4
           (mkNode "a" None (Some (mkContext true (Some 1%nat))))
           (mkNode "d" (Some "c") (Some (mkContext true (Some 4%nat))))
           [ mkNode "b" (Some "a") (Some (mkContext true (Some 2%nat)));
             mkNode "c" (Some "b") (Some (mkContext true (Some 3%nat)));
             mkNode "d" (Some "c") (Some (mkContext true (Some 4%nat))) ]).
  - exact chain4_forest.
  - simpl. auto.
  - reflexivity.
  - simpl. auto.
Defined.

End TreeMore.

(* ===================================================================== *)
(** ** Further properties of dismissal and of the focus manager *)
(* ===================================================================== *)

Module DismissMore.
Import Dismiss DismissFacts.

(** X6: a scroll of the visual viewport (pinch-zoom) never dismisses, nor
    does a scroll of an element that is not an overflow ancestor, nor any
    scroll while [ancestorScroll] is off. *)
Theorem scroll_dismiss_guard (fuel : nat) (o : Options) (i : Instance) (a : nat) :
  (visualViewport i = Some a \/ ~ In a (overflowAncestors i) \/ ancestorScroll o = false) ->
  deliver fuel o i (Scroll a) = Some [].
Proof.
  intros H. unfold deliver.
  destruct (negb (open i) || negb (enabled o)); [reflexivity|].
  assert (Hn : existsb (Nat.eqb a) (ancestors o i) = false).
  { apply not_true_is_false. intros He. apply existsb_exists in He.
    destruct He as (x & Hx & Hax). apply Nat.eqb_eq in Hax. subst x.
    unfold ancestors in Hx. apply filter_In in Hx. destruct Hx as [Hin Hv].
    destruct H as [Hvv|[Hno|Hoff]].
    - rewrite Hvv, Nat.eqb_refl in Hv. discriminate.
    - destruct (ancestorScroll o); [contradiction | destruct Hin].
    - rewrite Hoff in Hin. destruct Hin. }
  now rewrite Hn.
Qed.

Lemma scroll_dismiss_guard_witness :
  deliver 2 (mkOptions true true true false true true)
    (mkInstance true (Some 11%nat) (Some 10%nat) (Some "a") (Some menuTree) false
       [99%nat; 5%nat] (Some 5%nat))
    (Scroll 5) = Some [] /\
  deliver 2 (mkOptions true true true false true true)
    (mkInstance true (Some 11%nat) (Some 10%nat) (Some "a") (Some menuTree) false
       [99%nat; 5%nat] (Some 5%nat))
    (Scroll 99) = Some [OnOpenChange false].
Proof.
  split; [|reflexivity].
  apply scroll_dismiss_guard. left. reflexivity.
Defined.

(** X7: the dismiss listeners never open and never act while the floating
    element is closed or the hook is disabled: a delivery has no effect, or
    emits the dismiss event and then closes (key-down, pointer-down), or
    closes without an event (scroll). *)
Theorem dismiss_only_closes
    (fuel : nat) (o : Options) (i : Instance) (s : Signal) (effs : list Effect) :
  deliver fuel o i s = Some effs ->
  (open i = false \/ enabled o = false -> effs = []) /\
  (effs = [] \/
   (exists p, effs = [Emit p; OnOpenChange false]) \/
   (effs = [OnOpenChange false] /\ exists a, s = Scroll a)).
Proof.
  unfold deliver. intros H. split.
  - intros [Ho|He]; [rewrite Ho in H | rewrite He, orb_true_r in H];
      simpl in H; congruence.
  - destruct (negb (open i) || negb (enabled o)); [left; congruence|].
    destruct s as [key|path|a].
    + destruct (escapeKey o); [|left; congruence].
      unfold onKeyDown in H.
      destruct (String.eqb key "Escape"); [|left; congruence].
      destruct (negb (bubbles o)).
      * destruct (hasOpenChildren fuel i) as [[|]|]; try discriminate;
          inversion H; subst; eauto.
      * inversion H; subst; eauto.
    + destruct (outsidePointerDown o); [|left; congruence].
      unfold onPointerDown in H.
      destruct (targetIsInsideChildren fuel i path) as [inside|]; [|discriminate].
      destruct (isEventTargetWithin path (floatingEl i)
                || isEventTargetWithin path (referenceEl i) || inside);
        [left; congruence|].
      destruct (negb (bubbles o)).
      * destruct (hasOpenChildren fuel i) as [[|]|]; try discriminate;
          inversion H; subst; eauto.
      * inversion H; subst; eauto.
    + destruct (existsb (Nat.eqb a) (ancestors o i)); [|left; congruence].
      right. right. inversion H; subst. split; [reflexivity | eauto].
Qed.

Lemma dismiss_only_closes_witness :
  deliver 2 defaults menuA (KeyDown "Escape") =
    Some [Emit (PreventScroll false); OnOpenChange false] /\
  ([Emit (PreventScroll false); OnOpenChange false] = [] \/
   (exists p, [Emit (PreventScroll false); OnOpenChange false] = [Emit p; OnOpenChange false]) \/
   ([Emit (PreventScroll false); OnOpenChange false] = [OnOpenChange false] /\
    exists a, KeyDown "Escape" = Scroll a)).
Proof.
  split; [reflexivity|].
  apply (dismiss_only_closes 2 defaults menuA (KeyDown "Escape")). reflexivity.
Defined.

(** X8: a pointer-down on the floating element, on the reference element or
    on anything inside them is never taken as an outside press: the document
    listener does nothing, for every setting of the options.  Such a press
    dismisses only through the [reference.onPointerDown] prop, that is,
    exactly when the hook is enabled, [referencePointerDown] is set and the
    press passes through the reference element. *)
Theorem pointer_down_inside_ignored
    (fuel : nat) (o : Options) (i : Instance) (path : list nat) (el : nat) (b : bool) :
  targetIsInsideChildren fuel i path = Some b ->
  In el path ->
  (floatingEl i = Some el \/ referenceEl i = Some el) ->
  deliver fuel o i (PointerDown path) = Some [] /\
  pointerDownEvent fuel o i path =
    Some (if enabled o && referencePointerDown o
             && isEventTargetWithin path (referenceEl i)
          then [Emit PayloadUndefined; OnOpenChange false] else [],
          []).
Proof.
  intros Ht Hin Hel.
  assert (Hd : deliver fuel o i (PointerDown path) = Some []).
  { unfold deliver, onPointerDown. rewrite Ht.
    destruct (negb (open i) || negb (enabled o)); [reflexivity|].
    destruct (outsidePointerDown o); [|reflexivity].
    assert (Hw : isEventTargetWithin path (floatingEl i)
                 || isEventTargetWithin path (referenceEl i) = true).
    { destruct Hel as [->| ->];
        rewrite (proj2 (isEventTargetWithin_spec path el) Hin);
        [reflexivity | apply orb_true_r]. }
    now rewrite Hw. }
  split; [exact Hd|].
  unfold pointerDownEvent, referenceOnPointerDown. rewrite Hd.
  destruct (enabled o), (referencePointerDown o),
    (isEventTargetWithin path (referenceEl i)); reflexivity.
Qed.

Lemma pointer_down_inside_ignored_witness :
  targetIsInsideChildren 2 menuA [12%nat; 11%nat] = Some false /\
  deliver 2 defaults menuA (PointerDown [12%nat; 11%nat]) = Some [] /\
  targetIsInsideChildren 2 menuA [10%nat] = Some false /\
  pointerDownEvent 2 (mkOptions true true true true false true) menuA [10%nat] =
    Some ([Emit PayloadUndefined; OnOpenChange false], []).
Proof.
  split; [reflexivity|].
  split.
  - apply (pointer_down_inside_ignored 2 defaults menuA [12%nat; 11%nat] 11%nat false).
    + reflexivity.
    + simpl. auto.
    + left. reflexivity.
  - split; [reflexivity|].
    apply (pointer_down_inside_ignored 2 (mkOptions true true true true false true)
             menuA [10%nat] 10%nat false).
    + reflexivity.
    + simpl. auto.
    + right. reflexivity.
Defined.

End DismissMore.

Module FocusManagerFacts.
Import FocusManager.

(** X9: how a dismissal decides about returning focus when the floating
    element unmounts and the previously focused element is an HTML element.
    With [preventTabbing] on an instance that is not a root the return-focus
    effect does not run and focus is never returned.  Otherwise, whatever
    the [returnFocus] option says: after Escape the previously focused
    element is focused again, with scrolling allowed; after an outside
    pointer-down focus is not returned when the hook is not nested and is
    returned without scrolling when it is; after a scroll dismissal the
    option decides; and after a dismissal by the [reference.onPointerDown]
    prop focus is not returned. *)
Theorem dismiss_return_focus
    (fuel : nat) (o : Dismiss.Options) (i : Dismiss.Instance) (s : Dismiss.Signal)
    (effs : list Dismiss.Effect) (preventTabbing returnFocus : bool) :
  Dismiss.deliver fuel o i s = Some effs ->
  In (Dismiss.OnOpenChange false) effs ->
  returnFocusEffect preventTabbing returnFocus true i effs =
    (if preventTabbing && negb (root i) then None
     else match s with
          | Dismiss.KeyDown _ => Some false
          | Dismiss.PointerDown _ => if Dismiss.nested i then Some true else None
          | Dismiss.Scroll _ => if returnFocus then Some false else None
          end) /\
  (Dismiss.referencePointerDown o = true ->
   returnFocusEffect preventTabbing returnFocus true i (Dismiss.referenceOnPointerDown o)
     = None).
Proof.
  intros H Hin. split.
  2: { intros Hr. unfold returnFocusEffect, Dismiss.referenceOnPointerDown. rewrite Hr.
       destruct (preventTabbing && negb (root i)); reflexivity. }
  unfold returnFocusEffect.
  destruct (preventTabbing && negb (root i)); [reflexivity|].
  unfold Dismiss.deliver in H.
  destruct (negb (Dismiss.open i) || negb (Dismiss.enabled o));
    [inversion H; subst; destruct Hin|].
  destruct s as [key|path|a].
  - destruct (Dismiss.escapeKey o); [|inversion H; subst; destruct Hin].
    unfold Dismiss.onKeyDown in H.
    destruct (String.eqb key "Escape"); [|inversion H; subst; destruct Hin].
    destruct (negb (Dismiss.bubbles o)).
    + destruct (Dismiss.hasOpenChildren fuel i) as [[|]|]; try discriminate;
        inversion H; subst; [destruct Hin | reflexivity].
    + inversion H; subst. reflexivity.
  - destruct (Dismiss.outsidePointerDown o); [|inversion H; subst; destruct Hin].
    unfold Dismiss.onPointerDown in H.
    destruct (Dismiss.targetIsInsideChildren fuel i path) as [inside|]; [|discriminate].
    destruct (Dismiss.isEventTargetWithin path (Dismiss.floatingEl i)
              || Dismiss.isEventTargetWithin path (Dismiss.referenceEl i) || inside);
      [inversion H; subst; destruct Hin|].
    destruct (negb (Dismiss.bubbles o)).
    + destruct (Dismiss.hasOpenChildren fuel i) as [[|]|]; try discriminate;
        inversion H; subst; [destruct Hin|].
      destruct (Dismiss.nested i); reflexivity.
    + inversion H; subst. destruct (Dismiss.nested i); reflexivity.
  - destruct (existsb (Nat.eqb a) (Dismiss.ancestors o i));
      [|inversion H; subst; destruct Hin].
    inversion H; subst. destruct returnFocus; reflexivity.
Qed.

Lemma dismiss_return_focus_witness :
  Dismiss.deliver 2 Dismiss.defaults menuB (Dismiss.KeyDown "Escape") =
    Some [Dismiss.Emit (Dismiss.PreventScroll false); Dismiss.OnOpenChange false] /\
  root menuB = false /\
  returnFocusEffect false false true menuB
    [Dismiss.Emit (Dismiss.PreventScroll false); Dismiss.OnOpenChange false] = Some false /\
  returnFocusEffect true true true menuB
    [Dismiss.Emit (Dismiss.PreventScroll false); Dismiss.OnOpenChange false] = None.
Proof.
  split; [reflexivity|]. split; [reflexivity|].
  assert (Hin : In (Dismiss.OnOpenChange false)
                  [Dismiss.Emit (Dismiss.PreventScroll false); Dismiss.OnOpenChange false])
    by (simpl; auto).
  split.
  - exact (proj1 (dismiss_return_focus 2 Dismiss.defaults menuB (Dismiss.KeyDown "Escape")
                    _ false false eq_refl Hin)).
  - exact (proj1 (dismiss_return_focus 2 Dismiss.defaults menuB (Dismiss.KeyDown "Escape")
                    _ true true eq_refl Hin)).
Defined.

(** X10: in non-modal mode a focus-out never closes the floating element
    while [getChildren] reports an open descendant, nor when focus moves
    into the floating element or into the reference element. *)
Theorem focus_out_keeps_open
    (fuel : nat) (i : Dismiss.Instance) (referenceIsElement : bool)
    (event : FocusOutEvent) (effs : list Dismiss.Effect) :
  onFocusOut fuel i referenceIsElement event = Some effs ->
  (Dismiss.hasOpenChildren fuel i = Some true \/
   containsRelated (Dismiss.floatingEl i) (relatedTarget event) = true \/
   containsRelated (Dismiss.referenceEl i) (relatedTarget event) = true) ->
  effs = [].
Proof.
  unfold onFocusOut. intros H Hc.
  destruct (Dismiss.hasOpenChildren fuel i) as [isChildOpen|]; [|discriminate].
  match type of H with
  | match ?x with _ => _ end = _ => destruct x as [related|]; [|discriminate]
  end.
  destruct (containsRelated (Dismiss.floatingEl i) (relatedTarget event)),
           (containsRelated (Dismiss.referenceEl i) (relatedTarget event)),
           referenceIsElement, isChildOpen, related;
    simpl in H; destruct Hc as [Hc|[Hc|Hc]]; congruence.
Qed.

Lemma focus_out_keeps_open_witness :
  Dismiss.hasOpenChildren 3 Dismiss.menuA = Some true /\
  onFocusOut 3 Dismiss.menuA true (mkFocusOutEvent (Some [50%nat]) false) = Some [] /\
  ([] : list Dismiss.Effect) = [] /\
  onFocusOut 3 menuB true (mkFocusOutEvent (Some [50%nat]) false) =
    Some [Dismiss.OnOpenChange false].
Proof.
  split; [reflexivity|]. split; [reflexivity|]. split; [|reflexivity].
  apply (focus_out_keeps_open 3 Dismiss.menuA true
           (mkFocusOutEvent (Some [50%nat]) false) []); [reflexivity|].
  left. reflexivity.
Defined.

(** X11: a focus-out on the reference element of a nested instance whose
    focus moves into the floating element of one of its ancestors does not
    close the nested element. *)
Theorem focus_out_into_ancestor
    (fuel : nat) (i : Dismiss.Instance) (nodes ancestors : list Tree.FloatingNode)
    (node : Tree.FloatingNode) (cx : Tree.Context) (el : nat) (path : list nat)
    (referenceIsElement : bool) (b : bool) :
  Dismiss.tree i = Some nodes ->
  Dismiss.hasOpenChildren fuel i = Some b ->
  Tree.getAncestors fuel nodes (Dismiss.nodeId i) = Some ancestors ->
  In node ancestors -> Tree.ctx node = Some cx -> Tree.floating cx = Some el ->
  In el path ->
  onFocusOut fuel i referenceIsElement (mkFocusOutEvent (Some path) true) = Some [].
Proof.
  intros Ht Hb Ha Hn Hcx Hfl Hel. unfold onFocusOut.
  rewrite Hb, Ht. cbn [currentTargetIsReference relatedTarget]. rewrite Ha.
  assert (Hex : existsb
                  (fun node0 =>
                     containsRelated
                       (match Tree.ctx node0 with
                        | Some c => Tree.floating c
                        | None => None
                        end) (Some path)) ancestors = true).
  { apply existsb_exists. exists node. split; [exact Hn|].
    rewrite Hcx, Hfl. simpl. apply existsb_exists. exists el.
    split; [exact Hel | apply Nat.eqb_refl]. }
  rewrite Hex. cbn [negb]. rewrite andb_false_r. reflexivity.
Qed.

Lemma focus_out_into_ancestor_witness :
  onFocusOut 3 menuB true (mkFocusOutEvent (Some [12%nat; 11%nat]) true) = Some [] /\
  onFocusOut 3 menuB true (mkFocusOutEvent (Some [12%nat; 11%nat]) false)
    = Some [Dismiss.OnOpenChange false].
Proof.
  split; [|reflexivity].
  apply (focus_out_into_ancestor 3 menuB Dismiss.menuTree
           [Tree.mkNode "a" None (Some (Tree.mkContext true (Some 11%nat)))]
           (Tree.mkNode "a" None (Some (Tree.mkContext true (Some 11%nat))))
           (Tree.mkContext true (Some 11%nat)) 11%nat [12%nat; 11%nat] true false);
    try reflexivity; simpl; auto.
Defined.

End FocusManagerFacts.

(* ===================================================================== *)
(** ** Further properties of the merge engine *)
(* ===================================================================== *)

Module MergeMore.
Import Merge MergeFacts.

Lemma last_value_has_key k cs :
  has_key k cs = true <-> exists v, last_value k cs = Some v.
Proof.
  induction cs as [|c cs IH]; simpl.
  - split; [discriminate | intros [v H]; discriminate].
  - destruct (last_value k cs) as [w|] eqn:Hl.
    + split; [eauto|]. intros _. apply orb_true_iff. right. apply IH. eauto.
    + destruct (lookup_c k c) as [v|]; simpl.
      * split; eauto.
      * split.
        -- intros H. apply IH in H. destruct H as [v H]. discriminate.
        -- intros [v H]. discriminate.
Qed.

(** X12: [mergeProps] neither drops nor invents keys: the merged object
    has a key exactly when the caller or some hook's prop set for that
    target has it, the only addition being [tabIndex] on the floating
    target.  So what a hook contributes to one target never shows up on
    another. *)
Theorem mergeProps_keys
    (userProps : option Props) (propsList : list (option PropSet))
    (elementKey : ElementKey) (k : string) :
  is_Some (props (mergeProps userProps propsList elementKey) !! k) <->
  has_key k (contributions userProps propsList elementKey) = true \/
  (elementKey = Floating /\ k = "tabIndex").
Proof.
  rewrite mergeProps_lookup. cbv zeta.
  set (cs := contributions userProps propsList elementKey).
  assert (Htab : is_Some (tabIndexDefault elementKey !! k) <->
                 elementKey = Floating /\ k = "tabIndex").
  { destruct elementKey; simpl.
    - rewrite lookup_empty. split; [intros [? ?]; discriminate | intros [? _]; discriminate].
    - destruct (decide (k = "tabIndex")) as [->|Hne].
      + rewrite lookup_singleton_eq. split; eauto.
      + rewrite lookup_singleton_ne by congruence.
        split; [intros [? ?]; discriminate | intros [_ ?]; contradiction].
    - rewrite lookup_empty. split; [intros [? ?]; discriminate | intros [? _]; discriminate]. }
  destruct (is_handler_key k) eqn:Hk.
  - destruct (has_key k cs) eqn:Hh.
    + split; eauto.
    + split; [intros [? ?]; discriminate|].
      intros [?|[_ ->]]; discriminate.
  - destruct (last_value k cs) as [v|] eqn:Hl.
    + split; [|eauto]. intros _. left. apply last_value_has_key. eauto.
    + rewrite Htab. split; [auto|]. intros [Hh|?]; [|assumption].
      apply last_value_has_key in Hh. destruct Hh as [v Hv]. fold cs in Hv. congruence.
Qed.

Lemma has_key_skip k a b :
  has_key k (a ++ None :: b) = has_key k (a ++ b).
Proof. unfold has_key. rewrite !existsb_app. reflexivity. Qed.

Lemma contributed_skip k a b :
  contributed k (a ++ None :: b) = contributed k (a ++ b).
Proof. unfold contributed. rewrite !flat_map_app. reflexivity. Qed.

Lemma last_value_skip k a b :
  last_value k (a ++ None :: b) = last_value k (a ++ b).
Proof.
  induction a as [|c a IH]; simpl.
  - destruct (last_value k b); reflexivity.
  - now rewrite IH.
Qed.

Lemma contributions_skip userProps pl1 h pl2 elementKey :
  match h with Some v => select elementKey v | None => None end = None ->
  contributions userProps (pl1 ++ h :: pl2) elementKey =
  List.map (fun value => match value with
                         | Some v => select elementKey v
                         | None => None
                         end) pl1
  ++ None :: (List.map (fun value => match value with
                                     | Some v => select elementKey v
                                     | None => None
                                     end) pl2 ++ [userProps]).
Proof.
  intros Hh. unfold contributions. rewrite map_app. simpl. rewrite Hh.
  now rewrite <- app_assoc.
Qed.

(** X13: a hook that contributes nothing to a target (a disabled hook, or
    one without props for that target) is transparent: with or without it
    in the list, [mergeProps] returns the same object and the same
    handlers. *)
Theorem mergeProps_skips_empty_hook
    (userProps : option Props) (pl1 pl2 : list (option PropSet)) (h : option PropSet)
    (elementKey : ElementKey) :
  match h with Some v => select elementKey v | None => None end = None ->
  mergeProps userProps (pl1 ++ h :: pl2) elementKey =
  mergeProps userProps (pl1 ++ pl2) elementKey.
Proof.
  intros Hh.
  assert (Hc : contributions userProps (pl1 ++ pl2) elementKey =
               List.map (fun value => match value with
                                      | Some v => select elementKey v
                                      | None => None
                                      end) pl1
               ++ (List.map (fun value => match value with
                                          | Some v => select elementKey v
                                          | None => None
                                          end) pl2 ++ [userProps])).
  { unfold contributions. now rewrite map_app, <- app_assoc. }
  assert (Hp : props (mergeProps userProps (pl1 ++ h :: pl2) elementKey) =
               props (mergeProps userProps (pl1 ++ pl2) elementKey)).
  { apply map_eq. intros k. rewrite !mergeProps_lookup. cbv zeta.
    rewrite (contributions_skip _ _ _ _ _ Hh), Hc.
    now rewrite has_key_skip, last_value_skip. }
  assert (Hm : handlers (mergeProps userProps (pl1 ++ h :: pl2) elementKey) =
               handlers (mergeProps userProps (pl1 ++ pl2) elementKey)).
  { apply map_eq. intros k. rewrite !mergeProps_handlers. cbv zeta.
    rewrite (contributions_skip _ _ _ _ _ Hh), Hc.
    now rewrite has_key_skip, contributed_skip. }
  destruct (mergeProps userProps (pl1 ++ h :: pl2) elementKey) as [p1 m1].
  destruct (mergeProps userProps (pl1 ++ pl2) elementKey) as [p2 m2].
  simpl in Hp, Hm. now subst.
Qed.

Lemma mergeProps_skips_empty_hook_witness :
  select Floating hookA = None /\
  mergeProps (Some callerProps) ([Some hookB] ++ Some hookA :: []) Floating =
  mergeProps (Some callerProps) ([Some hookB] ++ []) Floating.
Proof.
  split; [reflexivity|].
  apply (mergeProps_skips_empty_hook (Some callerProps) [Some hookB] [] (Some hookA) Floating).
  reflexivity.
Defined.

End MergeMore.

(* ===================================================================== *)
(** ** Further properties of the hover-intent geometry *)
(* ===================================================================== *)

Module PolygonMore.
Import Polygon.
Local Open Scope Q_scope.

Lemma Qle_bool_ext (a b c : Q) : b == c -> Qle_bool a b = Qle_bool a c.
Proof.
  intros H. apply Bool.eq_iff_eq_true. rewrite !Qle_bool_iff, H. reflexivity.
Qed.

Lemma Qle_bool_mono (a b c : Q) : b < c -> Qle_bool a b = true -> Qle_bool a c = true.
Proof.
  rewrite !Qle_bool_iff. intros H1 H2.
  apply Qle_trans with b; [assumption | apply Qlt_le_weak; assumption].
Qed.

(** X14: on an axis-aligned rectangle with corners [(x0,y0)] and
    [(x1,y1)], listed in order, whose ordinates and the point's ordinate
    are of magnitude at most [2^1022] (so that no difference overflows in
    double precision, where all four edge tests are then computed without
    rounding), the ray-casting test [isPointInPolygon] answers exactly
    [x0 < x <= x1] and [y0 < y <= y1]: it agrees with the geometric
    rectangle, counting the right and bottom borders in and the left and
    top borders out. *)
Theorem isPointInPolygon_rectangle (x0 y0 x1 y1 x y : Q) :
  x0 < x1 -> y0 < y1 ->
  PolygonRange.noOverflow y0 -> PolygonRange.noOverflow y1 -> PolygonRange.noOverflow y ->
  isPointInPolygon (x, y) [(x0, y0); (x1, y0); (x1, y1); (x0, y1)] =
  (gtb x x0 && leb x x1) && (gtb y y0 && leb y y1).
Proof.
  intros Hx Hy _ _ _.
  unfold isPointInPolygon, pip_loop, intersect, geb, gtb, leb. cbn [List.last].
  rewrite (Qle_bool_ext x ((x0 - x0) * (y - y0) / (y1 - y0) + x0) x0)
    by (unfold Qdiv; ring).
  rewrite (Qle_bool_ext x ((x1 - x1) * (y - y1) / (y0 - y1) + x1) x1)
    by (unfold Qdiv; ring).
  pose proof (Qle_bool_mono x x0 x1 Hx) as Mx.
  pose proof (Qle_bool_mono y y0 y1 Hy) as My.
  destruct (Qle_bool x x0), (Qle_bool x x1), (Qle_bool y y0), (Qle_bool y y1);
    simpl; try reflexivity;
    try (specialize (Mx eq_refl); discriminate);
    try (specialize (My eq_refl); discriminate).
Qed.

Lemma noOverflow_small (v : Q) :
  Qle_bool (- inject_Z (2 ^ 1022)) v = true -> Qle_bool v (inject_Z (2 ^ 1022)) = true ->
  PolygonRange.noOverflow v.
Proof. intros H1 H2. split; now apply Qle_bool_iff. Qed.

Lemma isPointInPolygon_rectangle_witness :
  0 < 100 /\ 40 < 100 /\
  PolygonRange.noOverflow 40 /\ PolygonRange.noOverflow 100 /\
  isPointInPolygon (100, 100) [(0, 40); (100, 40); (100, 100); (0, 100)] = true /\
  isPointInPolygon (0, 50) [(0, 40); (100, 40); (100, 100); (0, 100)] = false.
Proof.
  assert (H40 : PolygonRange.noOverflow 40)
    by (apply noOverflow_small; vm_compute; reflexivity).
  assert (H50 : PolygonRange.noOverflow 50)
    by (apply noOverflow_small; vm_compute; reflexivity).
  assert (H100 : PolygonRange.noOverflow 100)
    by (apply noOverflow_small; vm_compute; reflexivity).
  split; [reflexivity|]. split; [reflexivity|].
  split; [exact H40|]. split; [exact H100|].
  split.
  - rewrite (isPointInPolygon_rectangle 0 40 100 100 100 100 eq_refl eq_refl H40 H100 H100).
    reflexivity.
  - rewrite (isPointInPolygon_rectangle 0 40 100 100 0 50 eq_refl eq_refl H40 H100 H50).
    reflexivity.
Defined.

Lemma pip_loop_same_side (x y : Q) (side : bool) (rest : list Point) (pj : Point) (acc : bool) :
  geb (snd pj) y = side ->
  List.Forall (fun p => geb (snd p) y = side) rest ->
  pip_loop x y pj rest acc = acc.
Proof.
  revert pj acc. induction rest as [|p rest IH]; intros pj acc Hj Hall; simpl.
  - reflexivity.
  - pose proof (List.Forall_inv Hall) as Hp.
    pose proof (List.Forall_inv_tail Hall) as Hrest.
    destruct p as [xi yi], pj as [xj yj]. simpl in Hj, Hp.
    unfold intersect. rewrite Hj, Hp. rewrite Bool.eqb_reflx. simpl.
    apply IH; [assumption | assumption].
Qed.

Lemma last_Forall {A} (P : A -> Prop) (l : list A) (d : A) :
  l <> [] -> List.Forall P l -> P (List.last l d).
Proof.
  induction l as [|a l IH]; intros Hne Hall; [contradiction|].
  pose proof (List.Forall_inv Hall) as Ha.
  pose proof (List.Forall_inv_tail Hall) as Hl.
  destruct l as [|b l]; [exact Ha|].
  change (P (List.last (b :: l) d)). apply IH; [discriminate | assumption].
Qed.

(** A point whose [y] lies on one side of all the vertices (every vertex
    has [yi >= y], or every vertex has [yi < y]) is classified as outside:
    no edge is counted as crossed.  The empty polygon contains no point. *)
Theorem isPointInPolygon_outside_band (x y : Q) (polygon : list Point) (side : bool) :
  List.Forall (fun p => geb (snd p) y = side) polygon ->
  isPointInPolygon (x, y) polygon = false.
Proof.
  intros Hall. unfold isPointInPolygon.
  destruct polygon as [|p polygon]; [reflexivity|].
  apply pip_loop_same_side with side; [|assumption].
  apply (last_Forall (fun p => geb (snd p) y = side)); [discriminate | assumption].
Qed.

Lemma isPointInPolygon_outside_band_witness :
  List.Forall (fun p : Point => geb (snd p) 500 = false)
    [(48, 75 # 2); (48, 75 # 2); (0, 100); (100, 81 # 2)] /\
  isPointInPolygon (500, 500) [(48, 75 # 2); (48, 75 # 2); (0, 100); (100, 81 # 2)] = false.
Proof.
  assert (H : List.Forall (fun p : Point => geb (snd p) 500 = false)
                [(48, 75 # 2); (48, 75 # 2); (0, 100); (100, 81 # 2)])
    by (repeat constructor).
  split; [exact H|].
  apply (isPointInPolygon_outside_band 500 500 _ false H).
Defined.

(** X15: the pointer-move handler of [safePolygon] does nothing but
    clear its timer when the pointer is not a mouse, when a pointer move
    happens over the reference element, or when a child floating element
    is open: it requests no close, starts no timer and leaves the
    "polygon destroyed" flag as it was. *)
Theorem safePolygon_guards (fuel : nat) (o : Options) (b : Binding) (st st' : State)
    (event : PointerEvent) (effs : list Effect) :
  onPointerMove fuel o b st event = Some (st', effs) ->
  notMouse (pointerType event) = true \/
  (type event = "pointermove"%string /\
   contains (domReference b) (composedPath event) = true) \/
  childOpen fuel b = Some true ->
  effs = [] /\ timeoutPending st' = false /\
  polygonIsDestroyed st' = polygonIsDestroyed st.
Proof.
  unfold onPointerMove. intros H Hg.
  destruct (notMouse (pointerType event)) eqn:Hn.
  { inversion H; subst. auto. }
  destruct (String.eqb (type event) "pointermove"
            && contains (domReference b) (composedPath event)) eqn:Hr.
  { inversion H; subst. auto. }
  destruct Hg as [Hg | [[Ht Hc] | Hg]].
  - discriminate.
  - rewrite Ht, Hc in Hr. discriminate.
  - rewrite Hg in H. inversion H; subst. auto.
Qed.

Lemma safePolygon_guards_witness :
  exists st' effs,
    onPointerMove 3 (mkOptions 0 (1 # 2)) (scenario None None None false)
      (mkState true false) (mkPointerEvent (Some "touch"%string) 500 500 "pointermove" [])
    = Some (st', effs) /\
    effs = [] /\ timeoutPending st' = false /\ polygonIsDestroyed st' = false.
Proof.
  eexists. eexists. split; [reflexivity|].
  apply (safePolygon_guards 3 (mkOptions 0 (1 # 2)) (scenario None None None false)
           (mkState true false) _
           (mkPointerEvent (Some "touch"%string) 500 500 "pointermove" []) _ eq_refl).
  left. reflexivity.
Defined.

(** X16: whatever the event, the handler has at most one effect: nothing,
    one [onClose], or one rest timer of [restMs].  The timer is pending
    afterwards exactly when it was set by this call, which needs a
    non-zero [restMs] and a polygon that is not destroyed; and once the
    pointer has landed on the floating element the "polygon destroyed"
    flag is never reset. *)
Theorem safePolygon_effects (fuel : nat) (o : Options) (b : Binding) (st st' : State)
    (event : PointerEvent) (effs : list Effect) :
  onPointerMove fuel o b st event = Some (st', effs) ->
  (effs = [] \/ effs = [OnClose] \/ effs = [SetTimeout (restMs o)]) /\
  (timeoutPending st' = true <-> effs = [SetTimeout (restMs o)]) /\
  (effs = [SetTimeout (restMs o)] ->
   Qeq_bool (restMs o) 0 = false /\ polygonIsDestroyed st = false) /\
  (polygonIsDestroyed st = true -> polygonIsDestroyed st' = true).
Proof.
  unfold onPointerMove. intros H.
  assert (Hnil : forall s, s = {| timeoutPending := false;
                                  polygonIsDestroyed := polygonIsDestroyed st |} ->
            (([] : list Effect) = [] \/ ([] : list Effect) = [OnClose]
             \/ ([] : list Effect) = [SetTimeout (restMs o)]) /\
            (timeoutPending s = true <-> ([] : list Effect) = [SetTimeout (restMs o)]) /\
            (([] : list Effect) = [SetTimeout (restMs o)] ->
             Qeq_bool (restMs o) 0 = false /\ polygonIsDestroyed st = false) /\
            (polygonIsDestroyed st = true -> polygonIsDestroyed s = true)).
  { intros s ->. simpl. repeat split; auto; discriminate. }
  assert (Hclose : forall s, s = {| timeoutPending := false;
                                    polygonIsDestroyed := polygonIsDestroyed st |} ->
            ([OnClose] = [] \/ [OnClose] = [OnClose]
             \/ [OnClose] = [SetTimeout (restMs o)]) /\
            (timeoutPending s = true <-> [OnClose] = [SetTimeout (restMs o)]) /\
            ([OnClose] = [SetTimeout (restMs o)] ->
             Qeq_bool (restMs o) 0 = false /\ polygonIsDestroyed st = false) /\
            (polygonIsDestroyed st = true -> polygonIsDestroyed s = true)).
  { intros s ->. simpl. repeat split; auto; discriminate. }
  destruct (notMouse (pointerType event)).
  { inversion H; subst. now apply Hnil. }
  destruct (String.eqb (type event) "pointermove"
            && contains (domReference b) (composedPath event)).
  { inversion H; subst. now apply Hnil. }
  destruct (childOpen fuel b) as [[|]|]; [| |discriminate].
  { inversion H; subst. now apply Hnil. }
  destruct (contains (floating b) (composedPath event) && negb (leave b)).
  { inversion H; subst. simpl. repeat split; auto; discriminate. }
  destruct (domReference b) as [reference|]; [|inversion H; subst; now apply Hnil].
  destruct (floating b) as [float|]; [|inversion H; subst; now apply Hnil].
  destruct (placement b) as [pl|]; [|inversion H; subst; now apply Hnil].
  destruct (x b) as [bx|]; [|inversion H; subst; now apply Hnil].
  destruct (y b) as [by_|]; [|inversion H; subst; now apply Hnil].
  cbv zeta in H.
  destruct (pastFarEdge _ _ _ _); [inversion H; subst; now apply Hclose|].
  destruct (inTrough _ _ _ _ _); [inversion H; subst; now apply Hnil|].
  destruct (polygonIsDestroyed st) eqn:Hd.
  { inversion H; subst. simpl. repeat split; auto; discriminate. }
  destruct (negb (isPointInPolygon _ _)).
  { inversion H; subst. simpl. repeat split; auto; discriminate. }
  destruct (Qeq_bool (restMs o) 0) eqn:Hz.
  { inversion H; subst. simpl. repeat split; auto; discriminate. }
  inversion H; subst. simpl. repeat split; auto; discriminate.
Qed.

Lemma safePolygon_effects_witness :
  exists st' effs,
    onPointerMove 3 (mkOptions 100 (1 # 2)) (scenario None None None false)
      (mkState false false) (mkPointerEvent (Some "mouse"%string) 50 38 "pointermove" [])
    = Some (st', effs) /\
    timeoutPending st' = true /\ effs = [SetTimeout 100].
Proof.
  eexists. eexists. split; [reflexivity|].
  pose proof (safePolygon_effects 3 (mkOptions 100 (1 # 2)) (scenario None None None false)
           (mkState false false) _
           (mkPointerEvent (Some "mouse"%string) 50 38 "pointermove" []) _ eq_refl)
    as (_ & Hiff & _).
  split; [apply Hiff|]; reflexivity.
Defined.

End PolygonMore.

(* ===================================================================== *)
(** ** Further properties of list navigation *)
(* ===================================================================== *)

Module ListNavMore.
Import ListNav ListNavFacts.
Local Open Scope Z_scope.

Lemma find_forward_upper l di start :
  -1 <= start < len l -> findNonDisabledIndex l start false di <= len l.
Proof.
  intros Hs.
  destruct (Z_le_gt_dec (findNonDisabledIndex l start false di) (len l)) as [H|H];
    [assumption|].
  assert (Hk : keepWalking l di (findNonDisabledIndex l start false di - 1) = true).
  { apply (walk_skips_forward (length l) l di start). unfold findNonDisabledIndex in *. lia. }
  apply keepWalking_bounds in Hk. lia.
Qed.

Lemma find_backward_lower l di start :
  0 <= start <= len l -> -1 <= findNonDisabledIndex l start true di.
Proof.
  intros Hs.
  destruct (Z_le_gt_dec (-1) (findNonDisabledIndex l start true di)) as [H|H];
    [assumption|].
  assert (Hk : keepWalking l di (findNonDisabledIndex l start true di + 1) = true).
  { apply (walk_skips_backward (length l) l di start). unfold findNonDisabledIndex in *. lia. }
  apply keepWalking_bounds in Hk. lia.
Qed.

Lemma in_bounds l i : 0 <= i < len l -> isIndexOutOfBounds l i = false.
Proof. intros H. unfold isIndexOutOfBounds. apply orb_false_iff. split; lia. Qed.

(** X17: [findNonDisabledIndex] returns the nearest index in the walking
    direction that is not disabled: every index strictly between the start
    and the result is an in-bounds disabled index, and the result is either
    an enabled item or the first index outside the list on that side (the
    list length walking forward, -1 walking backward). *)
Theorem findNonDisabledIndex_nearest (l : ItemList) (di : option (list Z)) (start : Z) :
  (-1 <= start < len l ->
   let r := findNonDisabledIndex l start false di in
   start < r <= len l /\
   (forall j, start < j < r -> 0 <= j < len l /\ isDisabled l di j = true) /\
   (r < len l -> validIndex l di r)) /\
  (0 <= start <= len l ->
   let r := findNonDisabledIndex l start true di in
   -1 <= r < start /\
   (forall j, r < j < start -> 0 <= j < len l /\ isDisabled l di j = true) /\
   (0 <= r -> validIndex l di r)).
Proof.
  split; intros Hs r.
  - pose proof (find_forward l di start) as Hf.
    pose proof (find_forward_upper l di start Hs) as Hu. fold r in Hf, Hu.
    split; [lia|]. split.
    + intros j Hj.
      pose proof (walk_skips_forward (length l) l di start j Hj) as Hk.
      apply keepWalking_bounds in Hk. split; [lia | tauto].
    + intros Hr. apply (find_valid l di false start). apply in_bounds. fold r. lia.
  - pose proof (find_backward l di start) as Hf.
    pose proof (find_backward_lower l di start Hs) as Hu. fold r in Hf, Hu.
    split; [lia|]. split.
    + intros j Hj.
      pose proof (walk_skips_backward (length l) l di start j Hj) as Hk.
      apply keepWalking_bounds in Hk. split; [lia | tauto].
    + intros Hr. apply (find_valid l di true start). apply in_bounds. fold r. lia.
Qed.

Lemma findNonDisabledIndex_nearest_witness :
  (-1 <= 0 < len threeItemsAria ->
   let r := findNonDisabledIndex threeItemsAria 0 false None in
   0 < r <= len threeItemsAria /\
   (forall j, 0 < j < r ->
              0 <= j < len threeItemsAria /\ isDisabled threeItemsAria None j = true) /\
   (r < len threeItemsAria -> validIndex threeItemsAria None r)) /\
  -1 <= 0 < len threeItemsAria /\
  findNonDisabledIndex threeItemsAria 0 false None = 2.
Proof.
  split; [|split; [vm_compute; split; [discriminate | reflexivity] | reflexivity]].
  apply (findNonDisabledIndex_nearest threeItemsAria None 0).
Defined.

Lemma len_nonneg l : 0 <= len l.
Proof. unfold len. lia. Qed.

Lemma min_le_valid l di j : validIndex l di j -> getMinIndex l di <= j.
Proof.
  intros [Hb Hd].
  destruct (Z_le_gt_dec (getMinIndex l di) j) as [H|H]; [assumption|].
  assert (Hk : keepWalking l di j = true).
  { apply (walk_skips_forward (length l) l di (-1)).
    unfold getMinIndex, findNonDisabledIndex in *. lia. }
  apply keepWalking_bounds in Hk. destruct Hk as [_ Hk]. congruence.
Qed.

Lemma max_ge_valid l di j : validIndex l di j -> j <= getMaxIndex l di.
Proof.
  intros [Hb Hd].
  destruct (Z_le_gt_dec j (getMaxIndex l di)) as [H|H]; [assumption|].
  assert (Hk : keepWalking l di j = true).
  { apply (walk_skips_backward (length l) l di (len l)).
    unfold getMaxIndex, findNonDisabledIndex in *. lia. }
  apply keepWalking_bounds in Hk. destruct Hk as [_ Hk]. congruence.
Qed.

Lemma min_valid l di j : validIndex l di j -> validIndex l di (getMinIndex l di).
Proof.
  intros Hj. pose proof (min_le_valid l di j Hj) as Hle.
  pose proof (find_forward l di (-1)) as Hf. destruct Hj as [Hb _].
  apply (find_valid l di false (-1)). apply in_bounds.
  unfold getMinIndex in Hle. lia.
Qed.

Lemma max_valid l di j : validIndex l di j -> validIndex l di (getMaxIndex l di).
Proof.
  intros Hj. pose proof (max_ge_valid l di j Hj) as Hle.
  pose proof (find_backward l di (len l)) as Hf. destruct Hj as [Hb _].
  apply (find_valid l di true (len l)). apply in_bounds.
  unfold getMaxIndex in Hle. lia.
Qed.

(** X18: [getMinIndex] and [getMaxIndex] are the least and the greatest
    index of an enabled item.  When the list has no enabled item (for
    instance when it is empty) they are the list length and -1, so the
    minimum lies above the maximum. *)
Theorem min_max_index (l : ItemList) (di : option (list Z)) :
  (forall j, validIndex l di j ->
     getMinIndex l di <= j <= getMaxIndex l di /\
     validIndex l di (getMinIndex l di) /\ validIndex l di (getMaxIndex l di)) /\
  ((forall j, ~ validIndex l di j) ->
     getMinIndex l di = len l /\ getMaxIndex l di = -1).
Proof.
  split.
  - intros j Hj. split; [split; [now apply min_le_valid | now apply max_ge_valid]|].
    split; [now apply (min_valid l di j) | now apply (max_valid l di j)].
  - intros Hnone. pose proof (len_nonneg l) as Hl. split.
    + destruct (Z.eq_dec (len l) 0) as [H0|H0].
      * unfold getMinIndex, findNonDisabledIndex.
        destruct l; [reflexivity | unfold len in H0; simpl in H0; lia].
      * pose proof (find_forward l di (-1)) as Hf.
        pose proof (find_forward_upper l di (-1) ltac:(lia)) as Hu.
        unfold getMinIndex.
        destruct (Z.eq_dec (findNonDisabledIndex l (-1) false di) (len l)) as [|Hne];
          [assumption|].
        exfalso. apply (Hnone (findNonDisabledIndex l (-1) false di)).
        apply (find_valid l di false (-1)). apply in_bounds. lia.
    + pose proof (find_backward l di (len l)) as Hf.
      pose proof (find_backward_lower l di (len l) ltac:(lia)) as Hu.
      unfold getMaxIndex.
      destruct (Z.eq_dec (findNonDisabledIndex l (len l) true di) (-1)) as [|Hne];
        [assumption|].
      exfalso. apply (Hnone (findNonDisabledIndex l (len l) true di)).
      apply (find_valid l di true (len l)). apply in_bounds. lia.
Qed.

Lemma nextIndex_in_bounds p l cur toEnd j :
  validIndex l (disabledIndices p) j ->
  allowEscape p = false \/ loop p = false ->
  -1 <= cur <= len l ->
  0 <= nextIndex p l cur toEnd < len l.
Proof.
  intros Hj Hopt Hcur.
  pose proof (min_le_valid _ _ _ Hj) as Hmin.
  pose proof (max_ge_valid _ _ _ Hj) as Hmax.
  pose proof (min_valid _ _ _ Hj) as [Hminb Hmind].
  pose proof (max_valid _ _ _ Hj) as [Hmaxb Hmaxd].
  destruct Hj as [Hjb _].
  set (mn := getMinIndex l (disabledIndices p)) in *.
  set (mx := getMaxIndex l (disabledIndices p)) in *.
  assert (Hfw : cur < mx ->
                cur < findNonDisabledIndex l cur false (disabledIndices p) <= mx).
  { intros Hlt. split; [apply find_forward|].
    destruct (Z_le_gt_dec (findNonDisabledIndex l cur false (disabledIndices p)) mx)
      as [H|H]; [assumption|].
    assert (Hk : keepWalking l (disabledIndices p) mx = true).
    { apply (walk_skips_forward (length l) l (disabledIndices p) cur).
      unfold findNonDisabledIndex in *. lia. }
    apply keepWalking_bounds in Hk. destruct Hk as [_ Hk]. congruence. }
  assert (Hbw : mn < cur ->
                mn <= findNonDisabledIndex l cur true (disabledIndices p) < cur).
  { intros Hlt. split; [|apply find_backward].
    destruct (Z_le_gt_dec mn (findNonDisabledIndex l cur true (disabledIndices p)))
      as [H|H]; [assumption|].
    assert (Hk : keepWalking l (disabledIndices p) mn = true).
    { apply (walk_skips_backward (length l) l (disabledIndices p) cur).
      unfold findNonDisabledIndex in *. lia. }
    apply keepWalking_bounds in Hk. destruct Hk as [_ Hk]. congruence. }
  pose proof (find_forward l (disabledIndices p) cur) as Hf1.
  pose proof (find_backward l (disabledIndices p) cur) as Hb1.
  unfold nextIndex. fold mn mx.
  destruct toEnd.
  - destruct (loop p) eqn:Hloop.
    + destruct Hopt as [Hesc|Hl]; [|discriminate]. rewrite Hesc. simpl.
      destruct (cur >=? mx) eqn:Hc; [lia|].
      assert (cur < mx) by lia. specialize (Hfw H). lia.
    + destruct (Z_lt_le_dec cur mx) as [H|H]; [specialize (Hfw H)|]; lia.
  - destruct (loop p) eqn:Hloop.
    + destruct Hopt as [Hesc|Hl]; [|discriminate]. rewrite Hesc. simpl.
      destruct (cur <=? mn) eqn:Hc; [lia|].
      assert (mn < cur) by lia. specialize (Hbw H). lia.
    + destruct (Z_lt_le_dec mn cur) as [H|H]; [specialize (Hbw H)|]; lia.
Qed.

(** X19: unless both [loop] and [allowEscape] are set, keyboard navigation
    never leaves the list: if the list has an enabled item and the current
    index lies between -1 and the list length, an arrow-key press that
    reaches the index computation stops the event and reports exactly one
    index, that of an enabled item, and never [null]. *)
Theorem arrow_navigation_stays_inside (p : Props) (st : State) (ev : KeyEvent) (j : Z) :
  arrowNavigation p ev = true ->
  validIndex (listRef st) (disabledIndices p) j ->
  allowEscape p = false \/ loop p = false ->
  -1 <= indexRef st <= len (listRef st) ->
  exists i, snd (onKeyDown p st ev) = [StopEvent; OnNavigate (Some i)] /\
            indexRef (fst (onKeyDown p st ev)) = i /\
            validIndex (listRef st) (disabledIndices p) i.
Proof.
  intros Harrow Hj Hopt Hcur.
  set (toEnd := isMainOrientationToEndKey (key ev) (orientation p) (rtl p)).
  pose proof (nextIndex_in_bounds p (listRef st) (indexRef st) toEnd j Hj Hopt Hcur) as Hb.
  exists (nextIndex p (listRef st) (indexRef st) toEnd).
  rewrite (onKeyDown_arrow p st ev Harrow). cbv zeta. fold toEnd.
  rewrite (in_bounds _ _ Hb). simpl.
  split; [reflexivity|]. split; [reflexivity|].
  apply nextIndex_valid. now apply in_bounds.
Qed.

Lemma arrow_navigation_stays_inside_witness :
  exists i,
    snd (onKeyDown (plainProps true false false (Some [1])) (mkState threeItems 2 None false)
           (mkKeyEvent "ArrowDown" false)) = [StopEvent; OnNavigate (Some i)] /\
    indexRef (fst (onKeyDown (plainProps true false false (Some [1]))
                     (mkState threeItems 2 None false)
                     (mkKeyEvent "ArrowDown" false))) = i /\
    validIndex threeItems (Some [1]) i.
Proof.
  apply (arrow_navigation_stays_inside (plainProps true false false (Some [1]))
           (mkState threeItems 2 None false) (mkKeyEvent "ArrowDown" false) 0).
  - reflexivity.
  - vm_compute. split; [split; [discriminate | reflexivity] | reflexivity].
  - left. reflexivity.
  - vm_compute. split; discriminate.
Defined.

Lemma onKeyDown_block p st ev : blockPointerLeaveRef (fst (onKeyDown p st ev)) = true.
Proof.
  unfold onKeyDown.
  destruct (nested p && isCrossOrientationCloseKey _ _ _); [reflexivity|].
  cbv zeta.
  destruct (String.eqb (key ev) "Home"), (String.eqb (key ev) "End");
    destruct (isMainOrientationKey _ _);
    try destruct (open p && negb (virtual p) && currentTargetIsActive ev);
    reflexivity.
Qed.

Lemma referenceOnKeyDown_block p st ev :
  blockPointerLeaveRef (fst (referenceOnKeyDown p st ev)) = true.
Proof.
  unfold referenceOnKeyDown. cbv zeta.
  destruct (virtual p && open p); [apply onKeyDown_block|].
  destruct (String.prefix "Arrow" (key ev) || String.eqb (key ev) "Enter"
            || String.eqb (key ev) " " || String.eqb (key ev) "").
  - destruct (nested p).
    + destruct (isCrossOrientationOpenKey _ _ _); [destruct (open p)|]; reflexivity.
    + destruct (isMainOrientationKey _ _); [|reflexivity].
      destruct (negb (open p) && openOnArrowKeyDown p).
      * destruct (selectedIndex p); reflexivity.
      * match goal with
        | |- context [onKeyDown p ?s ev] =>
            pose proof (onKeyDown_block p s ev) as Hk;
            destruct (onKeyDown p s ev) as [s' e']
        end. exact Hk.
  - destruct (nested p).
    + destruct (isCrossOrientationOpenKey _ _ _); [destruct (open p)|]; reflexivity.
    + destruct (isMainOrientationKey _ _); [|reflexivity].
      destruct (negb (open p) && openOnArrowKeyDown p).
      * destruct (selectedIndex p); reflexivity.
      * match goal with
        | |- context [onKeyDown p ?s ev] =>
            pose proof (onKeyDown_block p s ev) as Hk;
            destruct (onKeyDown p s ev) as [s' e']
        end. exact Hk.
Qed.

Lemma step_keeps_block p st op :
  op <> FloatingPointerMove ->
  blockPointerLeaveRef st = true ->
  blockPointerLeaveRef (fst (step p st op)) = true.
Proof.
  intros Hop Hb. destruct op; simpl.
  - apply onKeyDown_block.
  - apply referenceOnKeyDown_block.
  - contradiction.
  - unfold itemOnFocus. cbv zeta. destruct (negb _); assumption.
  - assumption.
  - unfold itemOnMouseMove, itemOnFocus. cbv zeta.
    destruct (focusItemOnHover p); [destruct (negb _)|]; assumption.
  - unfold itemOnPointerLeave. rewrite Hb, andb_false_r. assumption.
  - assumption.
Qed.

Lemma key_down_sets_block p st op :
  (exists ev, op = FloatingKeyDown ev \/ op = ReferenceKeyDown ev) ->
  blockPointerLeaveRef (fst (step p st op)) = true.
Proof.
  intros [ev [-> | ->]]; simpl.
  - apply onKeyDown_block.
  - apply referenceOnKeyDown_block.
Qed.

Lemma run_blocked p ops : forall st,
  blockPointerLeaveRef st = true ->
  ~ In FloatingPointerMove ops ->
  Forall (fun '(st0, _, _) => blockPointerLeaveRef st0 = true) (run p st ops) /\
  blockPointerLeaveRef (final p st ops) = true.
Proof.
  induction ops as [|op ops IH]; intros st Hb Hno; simpl.
  - split; [constructor | assumption].
  - assert (Hop : op <> FloatingPointerMove) by (intros ->; apply Hno; now left).
    assert (Hno' : ~ In FloatingPointerMove ops) by (intros H; apply Hno; now right).
    pose proof (step_keeps_block p st op Hop Hb) as Hb'.
    destruct (step p st op) as [st' effs] eqn:Hs. simpl in Hb'.
    destruct (IH st' Hb' Hno') as [IH1 IH2].
    split; [|assumption].
    constructor; assumption.
Qed.

(** X20: keyboard use blocks the pointer-leave reset.  After a key press
    on the floating or the reference element, and until the pointer moves
    over the floating element again, an item's pointer-leave handler has
    no effect: it reports nothing, moves no focus and keeps the index,
    whatever other key, focus, hover, click or render events come in
    between. *)
Theorem pointer_leave_blocked_after_key (p : Props) (st : State) (op : Op) (ops : list Op) :
  (exists ev, op = FloatingKeyDown ev \/ op = ReferenceKeyDown ev) ->
  ~ In FloatingPointerMove ops ->
  Forall (fun '(st0, op0, effs) =>
            op0 = ItemPointerLeave -> step p st0 op0 = (st0, []))
         (run p (fst (step p st op)) ops).
Proof.
  intros Hkey Hno.
  pose proof (key_down_sets_block p st op Hkey) as Hb.
  destruct (run_blocked p ops (fst (step p st op)) Hb Hno) as [Hall _].
  eapply List.Forall_impl; [|exact Hall].
  intros [[st0 op0] effs] Hb0 ->. simpl.
  unfold itemOnPointerLeave. now rewrite Hb0, andb_false_r.
Qed.

Lemma pointer_leave_blocked_after_key_witness :
  Forall (fun '(st0, op0, effs) =>
            op0 = ItemPointerLeave ->
            step (plainProps true false false None) st0 op0 = (st0, []))
         (run (plainProps true false false None)
              (fst (step (plainProps true false false None)
                         (mkState threeItems 0 None false)
                         (FloatingKeyDown (mkKeyEvent "ArrowDown" false))))
              [ItemMouseMove 100; ItemPointerLeave]).
Proof.
  apply (pointer_leave_blocked_after_key (plainProps true false false None)
           (mkState threeItems 0 None false)
           (FloatingKeyDown (mkKeyEvent "ArrowDown" false))
           [ItemMouseMove 100; ItemPointerLeave]).
  - eexists. left. reflexivity.
  - intros [H|[H|[]]]; discriminate.
Defined.

End ListNavMore.

(* ===================================================================== *)
(** ** Further properties of the aria-hidden ledger *)
(* ===================================================================== *)

Module AriaMore.
Import AriaHide AriaHideFacts AriaSession.

(** Induction over DOM subtrees. *)
Lemma Dom_induction (P : Dom -> Prop) :
  (forall e cs, List.Forall P cs -> P (Node e cs)) -> forall d, P d.
Proof.
  intros H. fix IH 1. intros [e cs]. apply H.
  induction cs as [|c cs IHcs]; constructor; [apply IH | exact IHcs].
Qed.

(** X21: [hideOthers] hides only roots of proper subtrees of the parent
    node that contain no target: it never hides a target, an ancestor of a
    target, or the parent node itself. *)
Theorem deep_hides_target_free_subtrees (targets : list nat) (doc : Dom) (x : nat) :
  In x (deep targets doc) ->
  exists node, In node (subnodes doc) /\ elOf node = x /\
               kept targets node = false /\ inTargets targets x = false.
Proof.
  revert x. induction doc as [e cs IH] using Dom_induction. intros x Hx.
  simpl in Hx. destruct (inTargets targets e); [contradiction|].
  apply in_flat_map in Hx. destruct Hx as (c & Hc & Hx).
  destruct (kept targets c) eqn:Hk.
  - rewrite List.Forall_forall in IH. destruct (IH c Hc x Hx) as (node & Hn & Hrest).
    exists node. split; [|exact Hrest].
    simpl. apply in_flat_map. exists c. split; [assumption | now right].
  - destruct Hx as [<-|[]]. exists c. split.
    + simpl. apply in_flat_map. exists c. split; [assumption | now left].
    + split; [reflexivity|]. split; [assumption|].
      destruct c as [e' cs']. simpl in *. apply orb_false_iff in Hk. tauto.
Qed.

Lemma deep_hides_target_free_subtrees_witness :
  In 3%nat (deep [1%nat] page) /\
  exists node, In node (subnodes page) /\ elOf node = 3%nat /\
               kept [1%nat] node = false /\ inTargets [1%nat] 3%nat = false.
Proof.
  assert (H : In 3%nat (deep [1%nat] page)) by (simpl; tauto).
  split; [exact H|].
  apply (deep_hides_target_free_subtrees [1%nat] page 3%nat H).
Defined.

(** *** The per-node invariant of a session *)

Lemma localInv_hide a0 c s : localInv a0 c s -> localInv a0 (S c) (hideLocal s).
Proof.
  destruct c as [|k]; simpl.
  - destruct s as [[attr cnt] unc]. simpl. intros (Ha & Hb & Hu). subst a0 unc.
    rewrite Hb. simpl. destruct (alreadyHidden attr); reflexivity.
  - intros ->. unfold hideLocal, bump. rewrite alreadyHidden_kept.
    replace (Z.of_nat (S k) + 1 =? 1)%Z with false by (symmetry; apply Z.eqb_neq; lia).
    replace (Z.of_nat (S k) + 1)%Z with (Z.of_nat (S (S k))) by lia.
    reflexivity.
Qed.

Lemma localInv_hide_iter a0 k : forall c s,
  localInv a0 c s -> localInv a0 (k + c) (Nat.iter k hideLocal s).
Proof.
  induction k as [|k IH]; intros c s H; [exact H|].
  change (localInv a0 (S (k + c)) (hideLocal (Nat.iter k hideLocal s))).
  apply localInv_hide, IH, H.
Qed.

Lemma localInv_unhide a0 c s :
  a0 <> Some "false" ->
  localInv a0 (S c) s -> localInv a0 c (unhideLocal s).
Proof.
  intros Ha. simpl. intros ->.
  destruct c as [|k].
  - simpl. destruct (alreadyHidden a0) eqn:Hh; simpl; [auto|].
    split; [|auto]. destruct a0 as [v|]; [|reflexivity].
    simpl in Hh. apply negb_false_iff, String.eqb_eq in Hh. subst. contradiction.
  - unfold unhideLocal, decr, falsy, localInv.
    replace (Z.of_nat (S (S k)) - 1 =? 0)%Z with false by (symmetry; apply Z.eqb_neq; lia).
    replace (Z.of_nat (S (S k)) - 1)%Z with (Z.of_nat (S k)) by lia.
    reflexivity.
Qed.

Lemma localInv_unhide_iter a0 k : forall c s,
  a0 <> Some "false" ->
  (k <= c)%nat ->
  localInv a0 c s -> localInv a0 (c - k) (Nat.iter k unhideLocal s).
Proof.
  induction k as [|k IH]; intros c s Ha Hk H.
  - now rewrite Nat.sub_0_r.
  - change (localInv a0 (c - S k) (unhideLocal (Nat.iter k unhideLocal s))).
    apply localInv_unhide; [assumption|].
    replace (S (c - S k)) with (c - k)%nat by lia.
    apply IH; [assumption | lia | assumption].
Qed.

Lemma hiddenBy_app pending r x :
  hiddenBy (pending ++ [r]) x = (occurrences x (hiddenNodes r) + hiddenBy pending x)%nat.
Proof. induction pending as [|q pending IH]; simpl; [lia | rewrite IH; lia]. Qed.

Lemma hiddenBy_remove x r : forall pending k,
  nth_error pending k = Some r ->
  hiddenBy pending x =
    (occurrences x (hiddenNodes r) + hiddenBy (remove_nth k pending) x)%nat /\
  length pending = S (length (remove_nth k pending)).
Proof.
  induction pending as [|q pending IH]; intros k Hk.
  - destruct k; discriminate.
  - destruct k as [|k]; simpl in *.
    + inversion Hk; subst. split; reflexivity.
    + destruct (IH k Hk) as [H1 H2]. rewrite H1, H2. split; lia.
Qed.

Lemma release_last_ledger w r :
  lockCount (ledger w) = 1%Z ->
  ledger (release w r) =
    {| counterMap := ∅; uncontrolledNodes := ∅;
       markerHeap := markerHeap (ledger (foldl (unhideNode (markerCounter r))
                                          w (hiddenNodes r)));
       markerMap := None; lockCount := 0 |}.
Proof.
  intros H1. unfold release. cbv zeta. cbn [ledger].
  rewrite foldl_unhideNode_lock, H1. reflexivity.
Qed.

Lemma step_ledgerInv s op : ledgerInv s -> ledgerInv (step s op).
Proof.
  destruct s as [w pending]. unfold ledgerInv. cbn [fst snd].
  intros (Hlock & Hreset). destruct op as [targets doc|k]; cbn [step].
  - pose proof (hideOthers_lock w targets doc) as Hk.
    destruct (hideOthers w targets doc) as [w' r]. cbn [fst snd] in *.
    split; [rewrite Hk, Hlock, length_app; simpl; lia|].
    intros H. destruct pending; discriminate.
  - destruct (nth_error pending k) as [r|] eqn:Hr; cbn [fst snd]; [|auto].
    destruct (hiddenBy_remove O r pending k Hr) as [_ Hlen].
    split; [rewrite release_lock, Hlock, Hlen; lia|].
    intros Hnil. rewrite Hnil in Hlen. simpl in Hlen.
    rewrite release_last_ledger by lia. auto.
Qed.

Lemma step_sessionInv a0 x s op :
  a0 <> Some "false" -> sessionInv a0 x s -> sessionInv a0 x (step s op).
Proof.
  intros Ha [Hled Hloc]. split; [now apply step_ledgerInv|].
  destruct s as [w pending]. destruct Hled as [Hlock _]. cbn [fst snd] in *.
  destruct op as [targets doc|k]; cbn [step].
  - pose proof (hideOthers_local w targets doc x) as Hl.
    pose proof (hideOthers_nodes w targets doc) as Hn.
    destruct (hideOthers w targets doc) as [w' r]. cbn [fst snd] in *.
    rewrite hiddenBy_app, Hl, Hn. now apply localInv_hide_iter.
  - destruct (nth_error pending k) as [r|] eqn:Hr; cbn [fst snd]; [|assumption].
    destruct (hiddenBy_remove x r pending k Hr) as [Hsum Hlen].
    assert (Hun : localInv a0 (hiddenBy (remove_nth k pending) x)
                    (Nat.iter (occurrences x (hiddenNodes r)) unhideLocal (localOf w x))).
    { replace (hiddenBy (remove_nth k pending) x)
        with (hiddenBy pending x - occurrences x (hiddenNodes r))%nat by lia.
      apply localInv_unhide_iter; [assumption | lia | assumption]. }
    destruct (Z.eq_dec (lockCount (ledger w)) 1%Z) as [H1|H1].
    + assert (Hnil : remove_nth k pending = []).
      { destruct (remove_nth k pending); [reflexivity|]. simpl in Hlen. lia. }
      rewrite Hnil in *. cbn [hiddenBy localInv] in Hun |- *.
      unfold localOf. rewrite (release_last_ledger w r H1). cbn [counterMap uncontrolledNodes].
      rewrite release_attr. destruct Hun as (Hattr & _).
      split; [exact Hattr|]. split; [rewrite lookup_empty; reflexivity|].
      apply bool_decide_eq_false. apply not_elem_of_empty.
    + rewrite (release_local w r x H1). exact Hun.
Qed.

Lemma exec_ledgerInv ops : forall s, ledgerInv s -> ledgerInv (foldl step s ops).
Proof.
  induction ops as [|op ops IH]; intros s H; [exact H|].
  simpl. apply IH. now apply step_ledgerInv.
Qed.

Lemma exec_sessionInv a0 x ops : forall s,
  a0 <> Some "false" -> sessionInv a0 x s -> sessionInv a0 x (foldl step s ops).
Proof.
  induction ops as [|op ops IH]; intros s Ha H; [exact H|].
  simpl. apply IH; [assumption|]. now apply step_sessionInv.
Qed.

Lemma fresh_ledgerInv aria marker : ledgerInv (mkWorld aria marker freshLedger, []).
Proof. unfold ledgerInv. simpl. auto. Qed.

Lemma fresh_sessionInv aria marker x :
  sessionInv (aria !! x) x (mkWorld aria marker freshLedger, []).
Proof.
  split; [apply fresh_ledgerInv|]. simpl.
  split; [reflexivity|]. split; [rewrite lookup_empty; reflexivity|].
  apply bool_decide_eq_false. apply not_elem_of_empty.
Qed.

(** X22: activations with different targets may be opened and released
    in any interleaving (nested or overlapping dialogs).  At every moment
    of such a session, a node that did not start with
    [aria-hidden="false"] reads as hidden while some pending activation
    hides it (keeping an attribute value of its own) and has its original
    attribute again as soon as no pending activation hides it. *)
Theorem session_attribute (aria marker : gmap nat string) (ops : list Op) (x : nat) :
  aria !! x <> Some "false" ->
  let w := fst (exec aria marker ops) in
  let pending := snd (exec aria marker ops) in
  (hiddenBy pending x = O -> ariaHidden w !! x = aria !! x) /\
  (hiddenBy pending x <> O ->
   ariaHidden w !! x = (if alreadyHidden (aria !! x) then aria !! x else Some "true") /\
   alreadyHidden (ariaHidden w !! x) = true).
Proof.
  intros Ha w pending.
  pose proof (exec_sessionInv (aria !! x) x ops _ Ha (fresh_sessionInv aria marker x))
    as (_ & Hloc).
  fold (exec aria marker ops) in Hloc. fold w pending in Hloc.
  split; intros Hc.
  - rewrite Hc in Hloc. destruct Hloc as (H & _). exact H.
  - destruct (hiddenBy pending x) as [|k]; [contradiction|].
    simpl in Hloc. unfold localOf in Hloc. injection Hloc as H1 H2 H3.
    split; [exact H1|]. rewrite H1. apply alreadyHidden_kept.
Qed.

Lemma session_attribute_witness :
  let ops := [Open [1%nat] twoDialogs; Open [5%nat] twoDialogs; Close 0%nat] in
  (∅ : gmap nat string) !! 1%nat <> Some "false" /\
  hiddenBy (snd (exec ∅ ∅ ops)) 1%nat <> O /\
  ariaHidden (fst (exec ∅ ∅ ops)) !! 1%nat = Some "true" /\
  hiddenBy (snd (exec ∅ ∅ ops)) 5%nat = O /\
  ariaHidden (fst (exec ∅ ∅ ops)) !! 5%nat = None.
Proof.
  intros ops.
  assert (H1 : (∅ : gmap nat string) !! 1%nat <> Some "false") by (rewrite lookup_empty; discriminate).
  assert (H5 : (∅ : gmap nat string) !! 5%nat <> Some "false") by (rewrite lookup_empty; discriminate).
  assert (Hc1 : hiddenBy (snd (exec ∅ ∅ ops)) 1%nat <> O) by (vm_compute; discriminate).
  assert (Hc5 : hiddenBy (snd (exec ∅ ∅ ops)) 5%nat = O) by (vm_compute; reflexivity).
  split; [exact H1|]. split; [exact Hc1|].
  split.
  - destruct (session_attribute ∅ ∅ ops 1%nat H1) as [_ H]. destruct (H Hc1) as [Hv _].
    rewrite Hv, lookup_empty. reflexivity.
  - split; [exact Hc5|].
    destruct (session_attribute ∅ ∅ ops 5%nat H5) as [H _].
    rewrite (H Hc5). apply lookup_empty.
Defined.

(** X23: along any session the lock count equals the number of pending
    activations, and whenever none is pending the module-level ledger is
    empty again: no counter, no uncontrolled node and no marker map
    survive. *)
Theorem session_ledger_reset (aria marker : gmap nat string) (ops : list Op) :
  let w := fst (exec aria marker ops) in
  let pending := snd (exec aria marker ops) in
  lockCount (ledger w) = Z.of_nat (length pending) /\
  (pending = [] ->
   counterMap (ledger w) = ∅ /\ uncontrolledNodes (ledger w) = ∅ /\
   markerMap (ledger w) = None).
Proof.
  intros w pending.
  exact (exec_ledgerInv ops _ (fresh_ledgerInv aria marker)).
Qed.

End AriaMore.

(* ===================================================================== *)
(** ** Properties of the click and focus triggers *)
(* ===================================================================== *)

Module ClickFacts.
Import Click.

Lemma pointerToggle_cases o env st type :
  pointerToggle o env st type = [] \/
  (pointerToggle o env st type = [OnOpenChange (negb (open env))] /\
   (open env = true -> toggle o = true)).
Proof.
  unfold pointerToggle. destruct (open env); [|right; split; [reflexivity|discriminate]].
  destruct (toggle o); simpl; [|now left].
  destruct (match openEvent st with Some t => String.eqb t type | None => true end);
    [right; split; [reflexivity|auto] | now left].
Qed.

Lemma keyToggle_cases o env :
  keyToggle o env = [] \/
  (keyToggle o env = [OnOpenChange (negb (open env))] /\
   (open env = true -> toggle o = true)).
Proof.
  unfold keyToggle. destruct (open env); [|right; split; [reflexivity|discriminate]].
  destruct (toggle o); [right; split; [reflexivity|auto] | now left].
Qed.

(** X24: whatever the event and the state of its refs, a reference handler
    of [useClick] does at most one thing: nothing, prevent the default
    action of the key, or report the opposite of the current [open] state.
    It never reports the state the element is already in, and closes only
    when [toggle] is set. *)
Theorem click_only_toggles (o : Options) (env : Env) (st : State) (ev : Event) :
  let effs := snd (handle o env st ev) in
  effs = [] \/ effs = [PreventDefault] \/
  (effs = [OnOpenChange (negb (open env))] /\ (open env = true -> toggle o = true)).
Proof.
  cbv zeta. unfold handle. destruct (enabled o); simpl; [|now left].
  destruct ev as [pt|button| |key|key].
  - now left.
  - destruct (negb (button =? 0)%Z); [now left|].
    destruct (mouseIgnored o st); [now left|].
    destruct (negb (pointerDown o)); [now left|]. simpl.
    destruct (pointerToggle_cases o env st "mousedown") as [H|H]; [left|right; right]; exact H.
  - destruct (pointerDown o && truthyType (pointerTypeRef st)); [now left|].
    destruct (mouseIgnored o st); [now left|]. simpl.
    destruct (pointerToggle_cases o env st "click") as [H|H]; [left|right; right]; exact H.
  - destruct (isButton env); [now left|]. simpl.
    destruct (String.eqb key "Enter") eqn:He.
    + apply String.eqb_eq in He. subst key. simpl.
      destruct (keyToggle_cases o env) as [H|H]; [left|right; right]; exact H.
    + rewrite app_nil_r.
      destruct (String.eqb key " " && negb (isSpaceIgnored env)); [right|]; now left.
  - destruct (isButton env || isSpaceIgnored env); [now left|].
    destruct (String.eqb key " "); [|now left]. simpl.
    destruct (keyToggle_cases o env) as [H|H]; [left|right; right]; exact H.
Qed.

Lemma mouseDown_keeps_pointerType o env st button :
  pointerTypeRef (fst (handle o env st (MouseDown button))) = pointerTypeRef st.
Proof.
  unfold handle. destruct (negb (enabled o)); [reflexivity|].
  destruct (negb (button =? 0)%Z); [reflexivity|].
  destruct (mouseIgnored o st); [reflexivity|].
  destruct (negb (pointerDown o)); reflexivity.
Qed.

Lemma click_swallowed o env st :
  enabled o = true -> pointerDown o = true -> truthyType (pointerTypeRef st) = true ->
  handle o env st MouseClick = ({| pointerTypeRef := None; openEvent := openEvent st |}, []).
Proof. intros He Hp Ht. unfold handle. now rewrite He, Hp, Ht. Qed.

Lemma click_handled o env st :
  enabled o = true -> pointerTypeRef st = None ->
  handle o env st MouseClick =
    ({| pointerTypeRef := None; openEvent := Some "click" |}, pointerToggle o env st "click").
Proof.
  intros He Hn. unfold handle, mouseIgnored. rewrite He, Hn. simpl.
  now rewrite andb_false_r.
Qed.

(** X25: with the [pointerDown] option a press is handled on mouse-down,
    and the click that ends the same gesture is swallowed: after a
    pointer-down with a pointer type, the next click reports nothing,
    whatever [open] is by then, and clears the stored pointer type, so
    that a later click without a pointer-down (a keyboard click on a
    button) is handled again. *)
Theorem click_after_pointer_down_swallowed
    (o : Options) (env1 env2 env3 env4 : Env) (st : State) (pt : string) (button : Z) :
  enabled o = true -> pointerDown o = true -> pt <> EmptyString ->
  let st1 := fst (handle o env1 st (PointerDown pt)) in
  let st2 := fst (handle o env2 st1 (MouseDown button)) in
  let st3 := fst (handle o env3 st2 MouseClick) in
  snd (handle o env3 st2 MouseClick) = [] /\
  pointerTypeRef st3 = None /\
  openEvent st3 = openEvent st2 /\
  snd (handle o env4 st3 MouseClick) = pointerToggle o env4 st3 "click".
Proof.
  intros He Hp Hpt. cbv zeta.
  set (st1 := fst (handle o env1 st (PointerDown pt))).
  set (st2 := fst (handle o env2 st1 (MouseDown button))).
  assert (H1 : pointerTypeRef st1 = Some pt).
  { unfold st1, handle. rewrite He. reflexivity. }
  assert (H2 : truthyType (pointerTypeRef st2) = true).
  { unfold st2. rewrite mouseDown_keeps_pointerType, H1. simpl.
    apply negb_true_iff. apply String.eqb_neq. exact Hpt. }
  rewrite (click_swallowed o env3 st2 He Hp H2). cbn [fst snd pointerTypeRef openEvent].
  split; [reflexivity|]. split; [reflexivity|]. split; [reflexivity|].
  apply (f_equal snd (click_handled o env4
                         {| pointerTypeRef := None; openEvent := openEvent st2 |}
                         He eq_refl)).
Qed.

Lemma click_after_pointer_down_swallowed_witness :
  let o := mkOptions true true true false in
  let st2 := fst (handle o (mkEnv false false false)
                    (fst (handle o (mkEnv false false false) (mkState None None)
                            (PointerDown "mouse")))
                    (MouseDown 0)) in
  snd (handle o (mkEnv false false false)
         (fst (handle o (mkEnv false false false) (mkState None None) (PointerDown "mouse")))
         (MouseDown 0)) = [OnOpenChange true] /\
  snd (handle o (mkEnv true false false) st2 MouseClick) = [].
Proof.
  intros o st2. split; [reflexivity|].
  apply (click_after_pointer_down_swallowed o (mkEnv false false false)
           (mkEnv false false false) (mkEnv true false false) (mkEnv true false false)
           (mkState None None) "mouse" 0); [reflexivity | reflexivity | discriminate].
Defined.

(** X26: a click closes only what a click opened.  While the element is
    open because of another kind of event (hover, focus, mouse-down), the
    first click on the reference keeps it open and takes the element over;
    the second click closes it. *)
Theorem click_takes_over_before_closing
    (o : Options) (env env' : Env) (st : State) (t : string) :
  enabled o = true -> toggle o = true ->
  pointerDown o && truthyType (pointerTypeRef st) = false ->
  mouseIgnored o st = false ->
  open env = true -> open env' = true ->
  openEvent st = Some t -> t <> "click"%string ->
  handle o env st MouseClick =
    ({| pointerTypeRef := pointerTypeRef st; openEvent := Some "click" |}, []) /\
  snd (handle o env' (fst (handle o env st MouseClick)) MouseClick) = [OnOpenChange false].
Proof.
  intros He Ht Hp Hm Ho Ho' Hev Hne.
  assert (H1 : handle o env st MouseClick =
               ({| pointerTypeRef := pointerTypeRef st; openEvent := Some "click" |}, [])).
  { unfold handle. rewrite He, Hp, Hm. simpl. unfold pointerToggle.
    rewrite Ho, Ht, Hev. simpl.
    apply String.eqb_neq in Hne. rewrite Hne. reflexivity. }
  split; [exact H1|]. rewrite H1. cbn [fst].
  unfold handle. rewrite He. cbn [negb pointerTypeRef].
  change (mouseIgnored o {| pointerTypeRef := pointerTypeRef st; openEvent := Some "click" |})
    with (mouseIgnored o st).
  rewrite Hp, Hm. cbn [snd]. unfold pointerToggle. rewrite Ho', Ht. reflexivity.
Qed.

Lemma click_takes_over_before_closing_witness :
  snd (handle defaults (mkEnv true false false) (mkState None (Some "mouseenter"))
         MouseClick) = [] /\
  snd (handle defaults (mkEnv true false false)
         (fst (handle defaults (mkEnv true false false) (mkState None (Some "mouseenter"))
                 MouseClick))
         MouseClick) = [OnOpenChange false].
Proof.
  destruct (click_takes_over_before_closing defaults (mkEnv true false false)
              (mkEnv true false false) (mkState None (Some "mouseenter")) "mouseenter")
    as [H1 H2]; try reflexivity; try discriminate.
  split; [rewrite H1; reflexivity | exact H2].
Defined.

End ClickFacts.

Module FocusFacts.
Import Focus.

Lemma blocked_run o : forall evs st,
  blockFocusRef st = true ->
  List.Forall (fun e => unblocks (snd e) = false) evs ->
  run o st evs = [].
Proof.
  induction evs as [|[open ev] evs IH]; intros st Hb Hall; [reflexivity|].
  pose proof (List.Forall_inv Hall) as Hev. pose proof (List.Forall_inv_tail Hall) as Hrest.
  simpl in Hev. cbn [run].
  assert (H : snd (handle o open st ev) = [] /\
              blockFocusRef (fst (handle o open st ev)) = true).
  { unfold handle. destruct (enabled o); simpl; [|auto].
    destruct ev; try discriminate.
    - rewrite Hb. auto.
    - auto. }
  destruct H as [H1 H2]. rewrite H1. simpl. apply IH; assumption.
Qed.

(** X27: focus does not reopen what was just dismissed, and with
    [keyboardOnly] a pointer press does not open by focus: after a
    [dismiss] event, or after a pointer-down with a pointer type when
    [keyboardOnly] is set, no later focus event on the reference reports
    anything, until the reference is blurred, a new pointer press arrives
    or the window listeners reset the block. *)
Theorem focus_blocked (o : Options) (open : bool) (st : State) (ev : Event)
    (evs : list (bool * Event)) :
  ev = Dismiss \/
  (exists pointerType, ev = PointerDown pointerType /\ pointerType <> EmptyString /\
                       keyboardOnly o = true) ->
  List.Forall (fun e => unblocks (snd e) = false) evs ->
  run o st ((open, ev) :: evs) = [].
Proof.
  intros Hev Hall. cbn [run].
  destruct (enabled o) eqn:He.
  - assert (H : snd (handle o open st ev) = [] /\
                blockFocusRef (fst (handle o open st ev)) = true).
    { unfold handle. rewrite He. simpl.
      destruct Hev as [-> | (pt & -> & Hpt & Hk)]; simpl; [auto|].
      rewrite Hk. apply String.eqb_neq in Hpt. rewrite Hpt. auto. }
    destruct H as [H1 H2]. rewrite H1. simpl. apply blocked_run; assumption.
  - assert (Hoff : forall evs' st', run o st' evs' = []).
    { induction evs' as [|[b e] evs' IH]; intros st'; [reflexivity|].
      cbn [run]. unfold handle at 1 2. rewrite He. simpl. apply IH. }
    unfold handle. rewrite He. simpl. apply Hoff.
Qed.

Lemma focus_blocked_witness :
  List.Forall (fun e : bool * Event => unblocks (snd e) = false)
    [(false, FocusIn "focus" (mkOpenEvent "focus" true))] /\
  run defaults (mkState "" false None)
    [(true, Dismiss); (false, FocusIn "focus" (mkOpenEvent "focus" true))] = [] /\
  run defaults (mkState "" false None)
    [(false, FocusIn "focus" (mkOpenEvent "focus" true))] = [OnOpenChange true].
Proof.
  assert (H : List.Forall (fun e : bool * Event => unblocks (snd e) = false)
                [(false, FocusIn "focus" (mkOpenEvent "focus" true))])
    by (repeat constructor).
  split; [exact H|]. split; [|reflexivity].
  apply (focus_blocked defaults true (mkState "" false None) Dismiss _ (or_introl eq_refl) H).
Defined.

End FocusFacts.

Module InnerOffsetFacts.
Import InnerOffset.
Local Open Scope Q_scope.

(** X28: the wheel listener of [useInnerOffset] changes the offset only
    when the floating element has content to scroll, and then by a step
    in the direction of the wheel that is no larger than the wheel delta
    and no larger than the remaining scroll height; the default action of
    the event is prevented exactly in that case. *)
Theorem wheel_delta_clamped (firefox : bool) (el : option Element)
    (overflowRef : option Overflow) (e : WheelEvent) (d : Q) :
  In (OnChange d) (onWheel firefox el overflowRef e) ->
  exists el0,
    el = Some el0 /\
    onWheel firefox el overflowRef e = [PreventDefault; OnChange d] /\
    let remaining := scrollHeight el0 - clientHeight el0 in
    0 < remaining /\ ~ deltaY e == 0 /\
    (0 < deltaY e -> 0 < d /\ d <= deltaY e /\ d <= remaining) /\
    (deltaY e < 0 -> d < 0 /\ deltaY e <= d /\ - remaining <= d).
Proof.
  unfold onWheel. destruct el as [el0|]; [|intros []].
  destruct overflowRef as [ov|]; [|intros []].
  destruct (ctrlKey e); [intros []|]. cbv zeta.
  destruct (Qle_bool (scrollHeight el0) (clientHeight el0)) eqn:Hs; [intros []|].
  assert (Hrem : 0 < scrollHeight el0 - clientHeight el0).
  { apply Qnot_le_lt. intros H. apply (Qplus_le_l _ _ (clientHeight el0)) in H.
    ring_simplify in H. apply Qle_bool_iff in H. congruence. }
  destruct (negb (Qle_bool (- (1 # 2)) (top ov)) && ltb 0 (deltaY e)
            || negb (Qle_bool (- (1 # 2)) (bottom ov)) && ltb (deltaY e) 0) eqn:Hc.
  2: { destruct firefox; [intros [H|[]]; discriminate | intros []]. }
  intros [H|[H|[]]]; [discriminate|]. injection H as Hd.
  exists el0. split; [reflexivity|]. split; [now rewrite Hd|].
  cbv zeta. split; [exact Hrem|].
  set (r := scrollHeight el0 - clientHeight el0) in *.
  assert (Hpos : ltb 0 (deltaY e) = true -> 0 < deltaY e).
  { unfold ltb. intros H. apply negb_true_iff in H. apply Qnot_le_lt. intros H'.
    apply Qle_bool_iff in H'. congruence. }
  assert (Hneg : ltb (deltaY e) 0 = true -> deltaY e < 0).
  { unfold ltb. intros H. apply negb_true_iff in H. apply Qnot_le_lt. intros H'.
    apply Qle_bool_iff in H'. congruence. }
  assert (Hnz : ~ deltaY e == 0).
  { intros Hz. apply orb_true_iff in Hc.
    destruct Hc as [Hc|Hc]; apply andb_true_iff in Hc; destruct Hc as [_ Hc].
    - apply Hpos in Hc. rewrite Hz in Hc. discriminate.
    - apply Hneg in Hc. rewrite Hz in Hc. discriminate. }
  split; [exact Hnz|].
  destruct (ltb (deltaY e) 0) eqn:Hl.
  - pose proof (Hneg eq_refl) as Hlt.
    split; [intros Hp; exfalso; apply (Qlt_irrefl 0); now apply Qlt_trans with (deltaY e)|].
    intros _. subst d. unfold mathMax.
    destruct (Qle_bool (deltaY e) (r * -1)) eqn:Hm.
    + apply Qle_bool_iff in Hm.
      assert (Hr : r * -1 < 0).
      { apply (Qplus_lt_l _ _ r). ring_simplify. exact Hrem. }
      split; [exact Hr|]. split; [exact Hm|].
      assert (Heq : - r == r * -1) by ring. rewrite Heq. apply Qle_refl.
    + split; [exact Hlt|]. split; [apply Qle_refl|].
      assert (Hgt : r * -1 < deltaY e).
      { apply Qnot_le_lt. intros H'. apply Qle_bool_iff in H'. congruence. }
      assert (Heq : - r == r * -1) by ring. rewrite Heq. now apply Qlt_le_weak.
  - assert (Hp : 0 < deltaY e).
    { destruct (Qlt_le_dec 0 (deltaY e)) as [H|H]; [exact H|].
      exfalso. apply Hnz. apply Qle_antisym; [exact H|].
      apply Qnot_lt_le. intros Hlt. unfold ltb in Hl. apply negb_false_iff in Hl.
      apply Qle_bool_iff in Hl. apply (Qlt_irrefl 0).
      now apply Qle_lt_trans with (deltaY e). }
    split; [|intros Hlt; exfalso; apply (Qlt_irrefl 0); now apply Qlt_trans with (deltaY e)].
    intros _. subst d. unfold mathMin.
    assert (Heq : r * 1 == r) by ring.
    destruct (Qle_bool (deltaY e) (r * 1)) eqn:Hm.
    + apply Qle_bool_iff in Hm. rewrite Heq in Hm.
      split; [exact Hp|]. split; [apply Qle_refl | exact Hm].
    + assert (Hgt : r * 1 < deltaY e).
      { apply Qnot_le_lt. intros H'. apply Qle_bool_iff in H'. congruence. }
      split; [rewrite Heq; exact Hrem|]. split; [now apply Qlt_le_weak|].
      rewrite Heq. apply Qle_refl.
Qed.

Lemma wheel_delta_clamped_witness :
  In (OnChange (30 * 1))
     (onWheel false (Some (mkElement 130 100)) (Some (mkOverflow (-10) 0))
        (mkWheelEvent false 50)) /\
  onWheel false (Some (mkElement 130 100)) (Some (mkOverflow (-10) 0))
    (mkWheelEvent false 50) = [PreventDefault; OnChange (30 * 1)].
Proof.
  assert (H : In (OnChange (30 * 1))
                (onWheel false (Some (mkElement 130 100)) (Some (mkOverflow (-10) 0))
                   (mkWheelEvent false 50))).
  { vm_compute. right. left. reflexivity. }
  split; [exact H|].
  destruct (wheel_delta_clamped false _ _ _ _ H) as (el0 & _ & Heq & _). exact Heq.
Defined.

End InnerOffsetFacts.

(* ===================================================================== *)
(** ** Further properties of typeahead *)
(* ===================================================================== *)

Module TypeaheadMore.
Import Typeahead TypeaheadFacts.
Local Open Scope Z_scope.

(** X29: whatever matcher is plugged in as [findMatch], a key press
    reports at most one match, and the index it reports is in bounds,
    holds a non-empty label, is the first position with that label and is
    remembered in [matchIndexRef]: a matcher that returns a string which
    is not in the list is ignored. *)
Theorem typeahead_match_in_list (lower : string -> string)
    (p : Props) (st : State) (ev : KeyEvent) (i : Z) :
  In (OnMatch i) (snd (onKeyDown lower p st ev)) ->
  exists l t,
    listRef p = Some l /\ 0 <= i < Z.of_nat (length l) /\
    nth_error l (Z.to_nat i) = Some (Some t) /\ t <> EmptyString /\
    indexOf l t = i /\
    matchIndexRef (fst (onKeyDown lower p st ev)) = Some i /\
    List.filter (fun e => match e with OnMatch _ => true | StopEvent => false end)
                (snd (onKeyDown lower p st ev)) = [OnMatch i].
Proof.
  unfold onKeyDown.
  destruct (negb (focusWithin ev)); [intros []|].
  set (busy := match stringRef st with EmptyString => false | String c _ => _ end).
  set (e1 := if busy && _ then [StopEvent] else []).
  assert (He1 : ~ In (OnMatch i) e1).
  { unfold e1. destruct (busy && _); simpl; intuition discriminate. }
  assert (Hf1 : List.filter (fun e => match e with OnMatch _ => true | StopEvent => false end)
                  e1 = []).
  { unfold e1. destruct (busy && _); reflexivity. }
  destruct (listRef p) as [l|]; [|simpl; intros H; now apply He1 in H].
  destruct (existsb _ _); [simpl; intros H; now apply He1 in H|].
  cbv zeta.
  set (rapid := forallb (firstTwoDiffer lower) l && _).
  set (s2 := ((if rapid then EmptyString else stringRef st) ++ key ev)%string).
  set (ordered := orderedList l _).
  set (str := match findMatch p with Some f => f ordered s2 | None => defaultFind lower ordered s2 end).
  destruct str as [[|c s]|]; cbn [Z.eqb negb snd fst].
  - intros H. now apply He1 in H.
  - destruct (Z.eqb_spec (indexOf l (String c s)) (-1)) as [Heq|Hne]; cbn [negb snd fst].
    + intros H. now apply He1 in H.
    + intros H. apply in_app_or in H. destruct H as [H|[H|[]]]; [now apply He1 in H|].
      inversion H as [Hi]. cbn [matchIndexRef].
      exists l, (String c s).
      pose proof (label_indexOfFrom_spec l (String c s) 0 ltac:(lia)) as Hspec.
      fold (indexOf l (String c s)) in Hspec.
      destruct Hspec as [H0|[Hb Hn]]; [contradiction|].
      rewrite Z.sub_0_r in Hn.
      split; [reflexivity|]. split; [lia|]. split; [exact Hn|].
      split; [discriminate|]. split; [reflexivity|]. split; [reflexivity|].
      rewrite List.filter_app, Hf1. reflexivity.
  - intros H. now apply He1 in H.
Qed.

Lemma typeahead_match_in_list_witness :
  let p := mkProps (Some [Some "Apple"; Some "Apricot"; Some "Banana"]%string)
                   (Some (fun _ _ => Some "Banana"%string)) [] in
  In (OnMatch 2) (snd (onKeyDown asciiLowerCase p initial (mkKeyEvent "x" true))) /\
  matchIndexRef (fst (onKeyDown asciiLowerCase p initial (mkKeyEvent "x" true))) = Some 2 /\
  snd (onKeyDown asciiLowerCase
         (mkProps (Some [Some "Apple"; Some "Apricot"; Some "Banana"]%string)
                  (Some (fun _ _ => Some "Cherry"%string)) [])
         initial (mkKeyEvent "x" true)) = [].
Proof.
  intros p.
  assert (H : In (OnMatch 2) (snd (onKeyDown asciiLowerCase p initial (mkKeyEvent "x" true))))
    by (vm_compute; left; reflexivity).
  split; [exact H|]. split; [|reflexivity].
  destruct (typeahead_match_in_list asciiLowerCase p initial (mkKeyEvent "x" true) 2 H)
    as (l & t & _ & _ & _ & _ & _ & Hm & _).
  exact Hm.
Defined.

(** X30: keys that typeahead ignores never disturb the search: a key
    press while focus is outside the element, or of a navigation key
    ([Home], [End], [Escape], [Enter], [Tab], the arrows) or a key listed
    in [ignoreKeys], reports no match, leaves the typed string, the
    previous and the matched index as they were and does not restart the
    reset timer. *)
Theorem typeahead_ignored_keys (lower : string -> string)
    (p : Props) (st : State) (ev : KeyEvent) :
  focusWithin ev = false \/ In (key ev) (fixedIgnoredKeys ++ ignoreKeys p) ->
  let st' := fst (onKeyDown lower p st ev) in
  stringRef st' = stringRef st /\ prevIndexRef st' = prevIndexRef st /\
  matchIndexRef st' = matchIndexRef st /\ timerPending st' = timerPending st /\
  forall i, ~ In (OnMatch i) (snd (onKeyDown lower p st ev)).
Proof.
  intros Hig. cbv zeta. unfold onKeyDown.
  destruct (focusWithin ev) eqn:Hf; cbn [negb].
  2: { repeat split; try reflexivity. intros i []. }
  destruct Hig as [Hig|Hig]; [discriminate|].
  set (busy := match stringRef st with EmptyString => false | String c _ => _ end).
  set (e1 := if busy && _ then [StopEvent] else []).
  assert (He1 : forall i, ~ In (OnMatch i) e1).
  { intros i. unfold e1. destruct (busy && _); simpl; intuition discriminate. }
  destruct (listRef p) as [l|]; cbn [fst snd stringRef prevIndexRef matchIndexRef timerPending];
    [|repeat split; try reflexivity; exact He1].
  assert (Hex : existsb (String.eqb (key ev)) (fixedIgnoredKeys ++ ignoreKeys p) = true).
  { apply existsb_exists. exists (key ev). split; [exact Hig | apply String.eqb_refl]. }
  rewrite Hex. cbn [fst snd stringRef prevIndexRef matchIndexRef timerPending].
  repeat split; try reflexivity; exact He1.
Qed.

Lemma typeahead_ignored_keys_witness :
  In "ArrowDown"%string (fixedIgnoredKeys ++ ignoreKeys fruit) /\
  stringRef (fst (onKeyDown asciiLowerCase fruit (fst (onKeyDown asciiLowerCase fruit initial (mkKeyEvent "a" true)))
                    (mkKeyEvent "ArrowDown" true))) = "a"%string.
Proof.
  assert (H : In "ArrowDown"%string (fixedIgnoredKeys ++ ignoreKeys fruit))
    by (simpl; tauto).
  split; [exact H|].
  destruct (typeahead_ignored_keys asciiLowerCase fruit (fst (onKeyDown asciiLowerCase fruit initial (mkKeyEvent "a" true)))
              (mkKeyEvent "ArrowDown" true) (or_intror H)) as (Hs & _).
  rewrite Hs. reflexivity.
Defined.

End TypeaheadMore.
